(** * z80count: cycle-count annotation of Z80 assembly lines

    A shallow embedding of [z80count.py] and the properties of its
    per-line core: the table parser ([Parser]), the accumulator
    ([update_counters]), the formatter ([format_line]) and the
    alignment ([comment_alignment], [line_length]).

    Conventions of the embedding.
    - A Python [str] is a [list ascii]; the development covers ASCII
      text: the character classes below agree with Python's on code
      points below 128, and a byte above 127 belongs to no class.
    - A Python [int] is a [Z]; [//] is [Z.div] and [%] is [Z.modulo]
      (both floor, as in Python), and a zero divisor raises. [int] on
      a text skips the blanks of C's [isspace] only and refuses a
      number of more than 4300 digits.
    - A pattern text of the table is kept as what [re] parses it to,
      or as [Malformed] when [re.compile] refuses the pattern built
      from it.
    - An exception is a [Raise] result.
    - The dict [Parser._table] is a [gmap] from mnemonics to lists of
      entries; the entry dicts are mutated in place by
      [Parser._init_entry], so [lookup] returns the table it leaves
      behind together with its answer. *)

From Stdlib Require Import ZArith Ascii String Lia DecimalString Sorted.
From stdpp Require Import gmap strings list.

Local Open Scope Z_scope.

(** ** Strings *)

Definition str := list ascii.

Notation "$ x" := (list_ascii_of_string x%string)
  (at level 1, x constr at level 0, format "$ x").

Definition code (c : ascii) : Z := Z.of_N (N_of_ascii c).

Definition between (lo hi : Z) (c : ascii) : bool :=
  (lo <=? code c) && (code c <=? hi).

(** [str.isspace] on one character, which is also the class [\s] of
    [re]: TAB, LF, VT, FF, CR, FS, GS, RS, US and the space. *)
Definition isspace (c : ascii) : bool :=
  between 9 13 c || between 28 32 c.

Definition isdigit (c : ascii) : bool := between 48 57 c.
Definition isupper (c : ascii) : bool := between 65 90 c.
Definition islower (c : ascii) : bool := between 97 122 c.

(** The class [\w] of [re]: letters, digits and the underscore. *)
Definition isword (c : ascii) : bool :=
  isdigit c || isupper c || islower c || (code c =? 95).

Definition chr (n : Z) : ascii := ascii_of_N (Z.to_N n).

Definition upper_char (c : ascii) : ascii :=
  if islower c then chr (code c - 32) else c.

Definition lower_char (c : ascii) : ascii :=
  if isupper c then chr (code c + 32) else c.

Definition eqc (a b : ascii) : bool := bool_decide (a = b).

(** [s.upper()] *)
Definition upper (s : str) : str := map upper_char s.

(** A text of code points below 128. *)
Definition ascii_text (s : str) : Prop := Forall (fun c => code c < 128) s.

(** [s.lstrip()] *)
Fixpoint lstrip (s : str) : str :=
  match s with
  | c :: t => if isspace c then lstrip t else s
  | [] => []
  end.

(** [s.rstrip()] *)
Fixpoint rstrip (s : str) : str :=
  match s with
  | [] => []
  | c :: t =>
      match rstrip t with
      | [] => if isspace c then [] else [c]
      | t' => c :: t'
      end
  end.

(** [sep in s] for a one-character [sep] *)
Definition contains (sep : ascii) (s : str) : bool := existsb (eqc sep) s.

(** [s.split(sep)] for a one-character [sep]: the pieces between the
    separators, in order. *)
Fixpoint split (sep : ascii) (s : str) : list str :=
  match s with
  | [] => [[]]
  | c :: t =>
      if eqc c sep then [] :: split sep t
      else match split sep t with
           | p :: ps => (c :: p) :: ps
           | [] => [[c]]
           end
  end.

(** The last occurrence of [sep]: what is before it and what is after. *)
Fixpoint rpartition (sep : ascii) (s : str) : option (str * str) :=
  match s with
  | [] => None
  | c :: t =>
      match rpartition sep t with
      | Some (a, b) => Some (c :: a, b)
      | None => if eqc c sep then Some ([], t) else None
      end
  end.

(** [s.rsplit(sep, 1)]: one piece when [sep] does not occur, otherwise
    the text before the last [sep] and the text after it. *)
Definition rsplit1 (sep : ascii) (s : str) : list str :=
  match rpartition sep s with
  | Some (a, b) => [a; b]
  | None => [s]
  end.

Fixpoint startswith (p s : str) : bool :=
  match p, s with
  | [], _ => true
  | a :: p', b :: s' => eqc a b && startswith p' s'
  | _ :: _, [] => false
  end.

(** [s.replace(old, new)] for a non-empty [old]: the occurrences of
    [old] are found from the left and do not overlap; [skip] counts the
    characters of the occurrence being dropped. *)
Fixpoint replace_from (old new : str) (skip : nat) (s : str) : str :=
  match s with
  | [] => []
  | c :: t =>
      match skip with
      | S k => replace_from old new k t
      | O =>
          if startswith old s
          then new ++ replace_from old new (Nat.pred (length old)) t
          else c :: replace_from old new O t
      end
  end.

(** [s.replace(old, new)]; an empty [old] matches between all
    characters. *)
Definition replace (old new s : str) : str :=
  match old with
  | [] => new ++ flat_map (fun c => c :: new) s
  | _ => replace_from old new O s
  end.

(** [s * n]: no copy at all when [n] is negative. *)
Definition str_mul (s : str) (n : Z) : str :=
  concat (replicate (Z.to_nat n) s).

(** ["%d" % n] *)
Definition str_of_int (n : Z) : str :=
  list_ascii_of_string (NilZero.string_of_int (Z.to_int n)).

(** ** Exceptions *)

Inductive exn :=
| ZeroDivisionError
| ValueError
| KeyError
| IndexError
| AssertionError
| ReError.                    (* re.error *)

Inductive result (A : Type) :=
| Ok (a : A)
| Raise (e : exn).
Arguments Ok {A} a.
Arguments Raise {A} e.

#[global] Instance result_ret : MRet result := fun A a => Ok a.

#[global] Instance result_bind : MBind result := fun A B f m =>
  match m with
  | Ok a => f a
  | Raise e => Raise e
  end.

#[global] Instance result_fmap : FMap result := fun A B f m =>
  match m with
  | Ok a => Ok (f a)
  | Raise e => Raise e
  end.

(** [a // b] *)
Definition floordiv (a b : Z) : result Z :=
  if b =? 0 then Raise ZeroDivisionError else Ok (a / b).

(** [a % b] *)
Definition pymod (a b : Z) : result Z :=
  if b =? 0 then Raise ZeroDivisionError else Ok (a mod b).

(** [l[i]] *)
Definition item {A} (l : list A) (i : nat) : result A :=
  match l !! i with
  | Some x => Ok x
  | None => Raise IndexError
  end.

(** The blanks that [int] skips around a number on ASCII text, those
    of C's [isspace]: TAB, LF, VT, FF, CR and the space, and not the
    separators FS to US that [str.strip] drops as well. *)
Definition isspace_c (c : ascii) : bool :=
  between 9 13 c || (code c =? 32).

Fixpoint skip_blanks (s : str) : str :=
  match s with
  | c :: t => if isspace_c c then skip_blanks t else s
  | [] => []
  end.

Fixpoint skip_blanks_end (s : str) : str :=
  match s with
  | [] => []
  | c :: t =>
      match skip_blanks_end t with
      | [] => if isspace_c c then [] else [c]
      | t' => c :: t'
      end
  end.

(** [sys.int_info.default_max_str_digits]: a decimal text of more
    digits is refused. *)
Definition MAX_STR_DIGITS : Z := 4300.

(** [int(s)] in base ten: blanks around the number, an optional sign,
    digits, single underscores between digits. *)
Fixpoint digits_value (acc : Z) (prev_digit : bool) (s : str) : option Z :=
  match s with
  | [] => if prev_digit then Some acc else None
  | c :: t =>
      if isdigit c then digits_value (10 * acc + (code c - 48)) true t
      else if (code c =? 95) && prev_digit then digits_value acc false t
      else None
  end.

Definition int (s : str) : result Z :=
  let body := skip_blanks_end (skip_blanks s) in
  let parsed :=
    match body with
    | c :: t =>
        if code c =? 45 then Z.opp <$> digits_value 0 false t
        else if code c =? 43 then digits_value 0 false t
        else digits_value 0 false body
    | [] => None
    end in
  match parsed with
  | Some n =>
      if MAX_STR_DIGITS <? Z.of_nat (length (List.filter isdigit body))
      then Raise ValueError
      else Ok n
  | None => Raise ValueError
  end.

(** ** Alignment *)

Definition TAB : ascii := chr 9.
Definition SPACE : ascii := chr 32.
Definition NEWLINE : ascii := chr 10.

(** The loop of [line_length], entered with the current [length]. *)
Fixpoint line_length_loop (length : Z) (line : str) (tab_width : Z)
  : result Z :=
  match line with
  | [] => Ok length
  | i :: rest =>
      if eqc i TAB then
        q ← floordiv (length + tab_width) tab_width;
        line_length_loop (q * tab_width) rest tab_width
      else line_length_loop (length + 1) rest tab_width
  end.

Definition line_length (line : str) (tab_width : Z) : result Z :=
  line_length_loop 0 line tab_width.

Definition comment_alignment (line : str) (column : Z) (use_tabs : bool)
  (tab_width : Z) : result str :=
  let expected_length := column - 1 in
  length ← line_length line tab_width;
  if length >=? expected_length then Ok [SPACE]
  else
    '(extra_tabs, extra_spaces) ←
      (if use_tabs then
        q ← floordiv expected_length tab_width;
        let tab_stop := q * tab_width + 1 in
        if tab_stop >? length then
          extra_tabs ← floordiv (tab_stop - length) tab_width;
          r ← pymod length tab_width;
          let extra_tabs := if r >? 1 then extra_tabs + 1 else extra_tabs in
          Ok (extra_tabs, expected_length - tab_stop)
        else Ok (0, expected_length - length)
      else Ok (0, expected_length - length));
    Ok (str_mul [TAB] extra_tabs ++ str_mul [SPACE] extra_spaces).

(** ** Regular expressions

    The part of [re] the program uses: literals, character sets,
    [.], [^], [$], concatenation, alternation, the greedy star and
    capturing groups, matched by backtracking with the priorities of
    [re] (left alternative first, longest repetition first). *)

Inductive citem :=
| CLit (c : ascii)            (* one character *)
| CRange (lo hi : ascii)      (* [lo-hi] *)
| CSpace                      (* \s *)
| CWord                       (* \w *)
| CDigit.                     (* \d *)

Inductive re :=
| Eps
| Chr (negate : bool) (items : list citem)   (* a set, or one literal *)
| Any                                        (* . *)
| Bol                                        (* ^ *)
| Eol                                        (* $ *)
| Seq (r1 r2 : re)
| Alt (r1 r2 : re)
| Star (r : re)
| Grp (g : nat) (r : re).

Definition Lit (c : ascii) : re := Chr false [CLit c].
Definition Plus (r : re) : re := Seq r (Star r).
Definition Opt (r : re) : re := Alt r Eps.

Definition in_item (c : ascii) (it : citem) : bool :=
  match it with
  | CLit a => eqc c a
  | CRange lo hi => between (code lo) (code hi) c
  | CSpace => isspace c
  | CWord => isword c
  | CDigit => isdigit c
  end.

(** Membership of a character in a set. Under [re.I] the character
    belongs to the set when one of its two cases does. *)
Definition chr_match (ignorecase negate : bool) (items : list citem)
  (c : ascii) : bool :=
  let hit :=
    if ignorecase
    then existsb (in_item (lower_char c)) items
         || existsb (in_item (upper_char c)) items
    else existsb (in_item c) items in
  xorb negate hit.

(** The groups set so far: number, start and end; the latest first. *)
Definition caps := list (nat * (nat * nat)).

(** The greedy repetition of [body], then [k]: one more iteration is
    tried first, and an iteration that consumes nothing is not
    repeated. [fuel] bounds the number of iterations; the length of
    the text is enough. *)
Fixpoint star_loop {A}
  (body : nat -> str -> caps -> (nat -> str -> caps -> option A) -> option A)
  (k : nat -> str -> caps -> option A)
  (fuel : nat) (i : nat) (s : str) (c : caps) : option A :=
  match fuel with
  | O => k i s c
  | S fuel' =>
      match body i s c
              (fun i' s' c' =>
                 if Nat.ltb i i' then star_loop body k fuel' i' s' c'
                 else None)
      with
      | Some x => Some x
      | None => k i s c
      end
  end.

(** [exec ic r i s c k]: match [r] at index [i], where [s] is the text
    from [i] on, then go on with [k]; the first success in priority
    order is the answer. *)
Fixpoint exec {A} (ic : bool) (r : re) (i : nat) (s : str) (c : caps)
  (k : nat -> str -> caps -> option A) {struct r} : option A :=
  match r with
  | Eps => k i s c
  | Chr negate items =>
      match s with
      | a :: s' => if chr_match ic negate items a then k (S i) s' c else None
      | [] => None
      end
  | Any =>
      match s with
      | a :: s' => if eqc a NEWLINE then None else k (S i) s' c
      | [] => None
      end
  | Bol => if Nat.eqb i 0 then k i s c else None
  | Eol =>
      match s with
      | [] => k i s c
      | [a] => if eqc a NEWLINE then k i s c else None
      | _ => None
      end
  | Seq r1 r2 => exec ic r1 i s c (fun i' s' c' => exec ic r2 i' s' c' k)
  | Alt r1 r2 =>
      match exec ic r1 i s c k with
      | Some x => Some x
      | None => exec ic r2 i s c k
      end
  | Star r1 =>
      star_loop (fun i' s' c' k' => exec ic r1 i' s' c' k') k
        (length s) i s c
  | Grp g r1 => exec ic r1 i s c (fun i' s' c' => k i' s' ((g, (i, i')) :: c'))
  end.

(** A compiled pattern: the expression and the [re.I] flag. *)
Record pattern := { pat_re : re; pat_ignorecase : bool }.

(** A match object: the subject, the span of the match, the groups. *)
Record match_obj := {
  m_string : str;
  m_start : nat;
  m_end : nat;
  m_caps : caps }.

Definition try_at (p : pattern) (whole : str) (i : nat) (s : str)
  : option match_obj :=
  exec (pat_ignorecase p) (pat_re p) i s []
    (fun i' _ c' => Some {| m_string := whole; m_start := i;
                            m_end := i'; m_caps := c' |}).

(** [p.match(s)]: at the start of [s] only. *)
Definition re_match (p : pattern) (s : str) : option match_obj :=
  try_at p s 0%nat s.

Fixpoint search_from (p : pattern) (whole : str) (i : nat) (s : str)
  : option match_obj :=
  match try_at p whole i s with
  | Some m => Some m
  | None =>
      match s with
      | [] => None
      | _ :: s' => search_from p whole (S i) s'
      end
  end.

(** [p.search(s)]: at the leftmost index where a match exists. *)
Definition re_search (p : pattern) (s : str) : option match_obj :=
  search_from p s 0%nat s.

Definition substring (s : str) (i j : nat) : str :=
  take (j - i) (drop i s).

(** [m.group(0)] *)
Definition group0 (m : match_obj) : str :=
  substring (m_string m) (m_start m) (m_end m).

Fixpoint find_cap (g : nat) (c : caps) : option (nat * nat) :=
  match c with
  | [] => None
  | (g', span) :: c' => if Nat.eqb g g' then Some span else find_cap g c'
  end.

(** [m.group(g)]: [None] when the group took no part in the match. *)
Definition group (m : match_obj) (g : nat) : option str :=
  match find_cap g (m_caps m) with
  | Some (i, j) => Some (substring (m_string m) i j)
  | None => None
  end.

(** [OUR_COMMENT = re.compile(r"(\[[0-9.\s/]+\])")] *)
Definition ANNOTATION_SET : list citem :=
  [CRange "0" "9"; CLit "."; CSpace; CLit "/"]%char.

Definition OUR_COMMENT : pattern :=
  {| pat_re := Grp 1 (Seq (Lit "[") (Seq (Plus (Chr false ANNOTATION_SET))
                                          (Lit "]")));
     pat_ignorecase := false |}.

(** ** The instruction table

    [z80table.json] is read by [json.load] and is not part of the
    program text: the development takes the loaded list as a
    parameter. Each object carries the keys ["case"], ["regex"],
    ["cycles"] and ["w"]; [Parser._init_entry] adds ["cregex"],
    ["_t_states_or_not_met"], ["_t_states_met"] and ["_initialized"]
    to the same object the first time [lookup] reaches it. A key that
    is absent is [None].

    The text of ["regex"] is kept in parsed form, as the list of its
    top-level alternatives [a1|a2|...|an]: [_init_entry] concatenates
    pattern texts, and [|] binds weaker than concatenation. A text
    with which the concatenated pattern does not compile is
    [Malformed]. *)

Inductive regex_text :=
| Alts (alternatives : list re)
| Malformed.

Record Entry := {
  case_ : str;
  regex : regex_text;
  cycles : str;
  w : Z;
  cregex : option pattern;
  t_states_or_not_met : option Z;
  t_states_met : option Z;
  initialized : option bool }.

(** An object as [json.load] returns it. *)
Definition json_entry (case regex_text : _) (cycles : str) (w : Z) : Entry :=
  {| case_ := case; regex := regex_text; cycles := cycles; w := w;
     cregex := None; t_states_or_not_met := None; t_states_met := None;
     initialized := None |}.

(** [d[key]] for a key that may be absent *)
Definition getitem {A} (v : option A) : result A :=
  match v with
  | Some x => Ok x
  | None => Raise KeyError
  end.

Fixpoint count_groups (r : re) : nat :=
  match r with
  | Seq r1 r2 | Alt r1 r2 => (count_groups r1 + count_groups r2)%nat
  | Star r1 => count_groups r1
  | Grp _ r1 => S (count_groups r1)
  | _ => 0%nat
  end.

Definition WS : re := Chr false [CSpace].

(** The text "^\s*" *)
Definition CREGEX_HEAD : re := Seq Bol (Star WS).

(** The text of the tail: "\s*", then the optional group of ";" and
    ".*", numbered [g], then "$" *)
Definition CREGEX_TAIL (g : nat) : re :=
  Seq (Star WS) (Seq (Opt (Grp g (Seq (Lit ";") (Star Any)))) Eol).

(** The expression that the text [head + a1|...|an + tail] denotes:
    the head belongs to the first alternative and the tail to the
    last one. *)
Fixpoint splice_tail (alts : list re) (tail : re) : re :=
  match alts with
  | [] => tail
  | [a] => Seq a tail
  | a :: rest => Alt a (splice_tail rest tail)
  end.

Definition splice (head : re) (alts : list re) (tail : re) : re :=
  match alts with
  | [] => Seq head tail
  | [a] => Seq head (Seq a tail)
  | a :: rest => Alt (Seq head a) (splice_tail rest tail)
  end.

(** What [re.compile(head + text + tail, re.I)] makes of a text of
    alternatives *)
Definition cregex_of (alternatives : list re) : pattern :=
  {| pat_re :=
       splice CREGEX_HEAD alternatives
         (CREGEX_TAIL (S (list_sum (map count_groups alternatives))));
     pat_ignorecase := true |}.

(** [re.compile(head + entry["regex"] + tail, re.I)] *)
Definition compile_cregex (text : regex_text) : result pattern :=
  match text with
  | Alts alternatives => Ok (cregex_of alternatives)
  | Malformed => Raise ReError
  end.

Module Parser.

(** [_LINE_RE]: "^", the optional group "([$.\w]+:)", "\s*", the
    group [operator] "(\w+)", the optional group [rest] of "\s+" and
    ".*", and "$"; [operator] and [rest] are the second and the third
    group. *)
Definition OPERATOR : nat := 2.
Definition REST : nat := 3.

Definition LINE_RE : pattern :=
  {| pat_re :=
       Seq Bol
      (Seq (Opt (Grp 1 (Seq (Plus (Chr false [CLit "$"; CLit "."; CWord]%char))
                            (Lit ":"))))
      (Seq (Star WS)
      (Seq (Grp OPERATOR (Plus (Chr false [CWord])))
      (Seq (Opt (Grp REST (Seq (Plus WS) (Star Any))))
           Eol))));
     pat_ignorecase := false |}.

(** The object state: [self._table]. *)
Abbreviation state := (gmap str (list Entry)).

Definition extract_mnemonic (line : str) : option str :=
  match re_match LINE_RE line with
  | Some m =>
      match group m OPERATOR with
      | Some operator => Some (upper operator)
      | None => None
      end
  | None => None
  end.

Definition remove_label (line : str) : option str :=
  match re_match LINE_RE line with
  | Some m =>
      match group m OPERATOR with
      | Some operator =>
          let rest := default [] (group m REST) in
          Some (operator ++ rest)
      | None => None
      end
  | None => None
  end.

Definition init_entry (entry : Entry) : result Entry :=
  cre ← compile_cregex (regex entry);
  let cycles := cycles entry in
  '(t_states_or_not_met, t_states_met) ←
    (if contains "/" cycles then
       let c := split "/" cycles in
       c1 ← item c 1;
       t_states_or_not_met ← int c1;
       c0 ← item c 0;
       t_states_met ← int c0;
       Ok (t_states_or_not_met, t_states_met)
     else
       t_states_or_not_met ← int cycles;
       Ok (t_states_or_not_met, 0));
  Ok {| case_ := case_ entry; regex := regex entry;
        cycles := cycles; w := w entry;
        cregex := Some cre;
        t_states_or_not_met := Some t_states_or_not_met;
        t_states_met := Some t_states_met;
        initialized := Some true |}.

(** The [for] loop of [lookup] over [self._table[mnemo]]: the list
    as the loop leaves it, and the entry returned, if any. *)
Fixpoint lookup_loop (entries : list Entry) (line : str)
  : result (list Entry * option Entry) :=
  match entries with
  | [] => Ok ([], None)
  | entry :: rest =>
      entry ← (match initialized entry with
               | None => init_entry entry
               | Some _ => Ok entry
               end);
      cre ← getitem (cregex entry);
      match re_search cre line with
      | Some _ => Ok (entry :: rest, Some entry)
      | None =>
          '(rest, found) ← lookup_loop rest line;
          Ok (entry :: rest, found)
      end
  end.

Definition lookup (self : state) (line : str)
  : result (state * option Entry) :=
  let mnemo := extract_mnemonic line in
  let line := remove_label line in
  match mnemo, line with
  | Some mnemo, Some line =>
      match self !! mnemo with
      | Some entries =>
          '(entries, found) ← lookup_loop entries line;
          Ok (<[mnemo := entries]> self, found)
      | None => Ok (self, None)
      end
  | _, _ => Ok (self, None)
  end.

(** [table.sort(key=lambda o: o["w"])]: ascending, and stable. *)
Fixpoint insert_by_w (x : Entry) (l : list Entry) : list Entry :=
  match l with
  | [] => [x]
  | y :: l' => if w x <=? w y then x :: l else y :: insert_by_w x l'
  end.

Fixpoint sort_by_w (l : list Entry) : list Entry :=
  match l with
  | [] => []
  | x :: l' => insert_by_w x (sort_by_w l')
  end.

(** The grouping loop of [_load_table]. *)
Fixpoint group_loop (res : state) (table : list Entry) : result state :=
  match table with
  | [] => Ok res
  | i :: rest =>
      match extract_mnemonic (case_ i) with
      | None => Raise AssertionError
      | Some mnemo =>
          let res := match res !! mnemo with
                     | None => <[mnemo := []]> res
                     | Some _ => res
                     end in
          let res := <[mnemo := default [] (res !! mnemo) ++ [i]]> res in
          group_loop res rest
      end
  end.

(** [_load_table], from the list that [json.load] returned. *)
Definition load_table (table : list Entry) : result state :=
  group_loop ∅ (sort_by_w table).

End Parser.

(** ** The per-line core *)

Definition update_counters (entry : Entry) (total : Z) : result (Z * Z) :=
  met ← getitem (t_states_met entry);
  total_cond ← (if met =? 0 then Ok 0
                else met ← getitem (t_states_met entry); Ok (total + met));
  not_met ← getitem (t_states_or_not_met entry);
  let total := total + not_met in
  Ok (total, total_cond).

Definition format_line (line : str) (entry : Entry) (total total_cond : Z)
  (subt update : bool) (column : Z) (debug use_tabs : bool) (tab_width : Z)
  : result str :=
  let cycles := cycles entry in
  let line := rsplit1 ";" (rstrip line) in
  let comment := $"; [" ++ cycles in
  let comment :=
    if subt then
      if total_cond =? 0
      then comment ++ $" .. " ++ str_of_int total ++ $"]"
      else comment ++ $" .. " ++ str_of_int total_cond ++ $"/"
                   ++ str_of_int total ++ $"]"
    else comment ++ $"]" in
  let comment :=
    if debug then comment ++ $" case{" ++ case_ entry ++ $"}" else comment in
  comment ← (if Nat.eqb (length line) 1 then
               line0 ← item line 0;
               spacing ← comment_alignment line0 column use_tabs tab_width;
               Ok (spacing ++ comment)
             else Ok comment);
  line0 ← item line 0;
  let out := line0 ++ comment in
  out ← (if Nat.ltb 1 (length line) then
           line1 ← item line 1;
           let line1 :=
             if update then
               match re_search OUR_COMMENT line1 with
               | Some m => replace (group0 m) [] line1
               | None => line1
               end
             else line1 in
           Ok (out ++ $" " ++ lstrip line1)
         else Ok out);
  Ok (out ++ $"
").

Definition z80count (line : str) (parser : Parser.state) (total : Z)
  (subt no_update : bool) (column : Z) (use_tabs : bool) (tab_width : Z)
  (debug : bool) : result (Parser.state * (str * Z)) :=
  let out := rstrip line ++ [NEWLINE] in
  '(parser, entry) ← Parser.lookup parser line;
  match entry with
  | Some entry =>
      '(total, total_cond) ← update_counters entry total;
      out ← format_line line entry total total_cond subt (negb no_update)
              column debug use_tabs tab_width;
      Ok (parser, (out, total))
  | None => Ok (parser, (out, total))
  end.

(** The loop of [main] over the lines of the input file, with the
    parser and the options as [main] passes them; the outputs are what
    is written to the output file, in order. *)
Fixpoint main_loop (in_f : list str) (parser : Parser.state) (total : Z)
  (subt no_update : bool) (column : Z) (use_tabs : bool) (tab_width : Z)
  (debug : bool) : result (Parser.state * (list str * Z)) :=
  match in_f with
  | [] => Ok (parser, ([], total))
  | line :: rest =>
      '(parser, (output, total)) ←
        z80count line parser total subt no_update column use_tabs tab_width
          debug;
      '(parser, (written, total)) ←
        main_loop rest parser total subt no_update column use_tabs tab_width
          debug;
      Ok (parser, (output :: written, total))
  end.

(** ** Views used by the properties *)

(** The cost of a record, as its label ["cycles"] encodes it: ["M/N"]
    for a conditional instruction (met, not met), a plain number
    otherwise. *)
Inductive cycle_cost :=
| Fixed (cost : Z)
| Conditional (met not_met : Z).

Definition cost_of_label (cycles : str) : option cycle_cost :=
  if contains "/" cycles then
    match split "/" cycles with
    | m :: n :: _ =>
        match int m, int n with
        | Ok M, Ok N => Some (Conditional M N)
        | _, _ => None
        end
    | _ => None
    end
  else
    match int cycles with
    | Ok C => Some (Fixed C)
    | Raise _ => None
    end.

(** The running totals after each of a sequence of matched records. *)
Fixpoint totals (entries : list Entry) (total : Z) : result (list Z) :=
  match entries with
  | [] => Ok []
  | entry :: rest =>
      '(total, _) ← update_counters entry total;
      later ← totals rest total;
      Ok (total :: later)
  end.

(** The cycles that a line adds to the total. *)
Definition line_cost (p : Parser.state) (line : str) : Z :=
  match snd <$> Parser.lookup p line with
  | Ok (Some entry) => default 0 (t_states_or_not_met entry)
  | _ => 0
  end.

(** A record that [lookup] has initialised, with a not-met (or
    unconditional) cost that is not negative. *)
Definition nonneg_cost (entry : Entry) : Prop :=
  is_Some (t_states_met entry) ∧
  ∃ n, t_states_or_not_met entry = Some n ∧ 0 <= n.

(** The tab-aware length in the words of the design: a tab advances to
    the next multiple of the tab width, any other character by one. *)
Definition next_multiple (pos tab_width : Z) : Z :=
  (pos / tab_width + 1) * tab_width.

Definition tab_aware_length (text : str) (tab_width : Z) : Z :=
  fold_left
    (fun pos c => if eqc c TAB then next_multiple pos tab_width else pos + 1)
    text 0.

(** One character of the tab-aware length. *)
Definition tab_step (tab_width : Z) (pos : Z) (c : ascii) : Z :=
  if eqc c TAB then next_multiple pos tab_width else pos + 1.

Definition tabs (n : Z) : str := replicate (Z.to_nat n) TAB.
Definition spaces (n : Z) : str := replicate (Z.to_nat n) SPACE.

(** What a match is, without the search: [Matches ic r i u rest c c']
    when [r] matches the text [u] found at index [i] and followed by
    [rest], turning the groups [c] into [c']. *)
Inductive Matches (ic : bool)
  : re -> nat -> str -> str -> caps -> caps -> Prop :=
| M_Eps i rest c : Matches ic Eps i [] rest c c
| M_Chr negate items a i rest c :
    chr_match ic negate items a = true ->
    Matches ic (Chr negate items) i [a] rest c c
| M_Any a i rest c : a <> NEWLINE -> Matches ic Any i [a] rest c c
| M_Bol rest c : Matches ic Bol 0%nat [] rest c c
| M_Eol i rest c :
    rest = [] \/ rest = [NEWLINE] -> Matches ic Eol i [] rest c c
| M_Seq r1 r2 i u v rest c c1 c2 :
    Matches ic r1 i u (v ++ rest) c c1 ->
    Matches ic r2 (i + length u)%nat v rest c1 c2 ->
    Matches ic (Seq r1 r2) i (u ++ v) rest c c2
| M_AltL r1 r2 i u rest c c1 :
    Matches ic r1 i u rest c c1 -> Matches ic (Alt r1 r2) i u rest c c1
| M_AltR r1 r2 i u rest c c1 :
    Matches ic r2 i u rest c c1 -> Matches ic (Alt r1 r2) i u rest c c1
| M_Star0 r i rest c : Matches ic (Star r) i [] rest c c
| M_StarS r i u v rest c c1 c2 :
    u <> [] ->
    Matches ic r i u (v ++ rest) c c1 ->
    Matches ic (Star r) (i + length u)%nat v rest c1 c2 ->
    Matches ic (Star r) i (u ++ v) rest c c2
| M_Grp g r i u rest c c1 :
    Matches ic r i u rest c c1 ->
    Matches ic (Grp g r) i u rest c ((g, (i, (i + length u)%nat)) :: c1).

(** A matcher [body] finds only matches of [r]. *)
Definition sound_body {A} (ic : bool)
  (body : nat -> str -> caps -> (nat -> str -> caps -> option A) -> option A)
  (r : re) : Prop :=
  forall k i s c x, body i s c k = Some x ->
    exists u rest c', s = u ++ rest /\ Matches ic r i u rest c c' /\
                 k (i + length u)%nat rest c' = Some x.

(** ** Table states

    The fields of a record that come from the table file. *)
Definition erase (entry : Entry) : Entry :=
  json_entry (case_ entry) (regex entry) (cycles entry) (w entry).

(** A record as loaded: no derived field yet. *)
Definition fresh (entry : Entry) : Prop := entry = erase entry.

(** A record is either as loaded or as [Parser._init_entry] left it. *)
Definition entry_wf (entry : Entry) : Prop :=
  entry = erase entry \/ Parser.init_entry (erase entry) = Ok entry.

Definition table_wf (p : Parser.state) : Prop :=
  map_Forall (fun _ entries => Forall entry_wf entries) p.

(** What [lookup] may do to one record: nothing, or initialise it. *)
Definition init_step (entry entry' : Entry) : Prop :=
  entry' = entry \/
  (initialized entry = None /\ Parser.init_entry entry = Ok entry').

(** The pattern of a record matches the label-stripped line. *)
Definition accepts (entry : Entry) (stripped : str) : Prop :=
  exists cre, compile_cregex (regex entry) = Ok cre /\
              is_Some (re_search cre stripped).

(** The pattern that the record carries does not match the line. *)
Definition rejects (line : str) (entry : Entry) : Prop :=
  exists cre, cregex entry = Some cre /\ re_search cre line = None.

(** The cost label of a record is numeric. *)
Definition label_ok (entry : Entry) : Prop :=
  is_Some (cost_of_label (cycles entry)).

(** The pattern text of a record compiles. *)
Definition pattern_ok (entry : Entry) : Prop :=
  exists cre, compile_cregex (regex entry) = Ok cre.

(** A record that [_init_entry] cannot initialise, and what it raises:
    [re.error] when the pattern text does not compile, else
    [ValueError] when the cost label is not numeric. *)
Definition init_error (entry : Entry) (e : exn) : Prop :=
  (~ pattern_ok entry /\ e = ReError) \/
  (pattern_ok entry /\ ~ label_ok entry /\ e = ValueError).

(** A table whose records [lookup] can initialise without raising. *)
Definition table_ok (p : Parser.state) : Prop :=
  map_Forall
    (fun _ entries =>
       Forall entry_wf entries /\ Forall pattern_ok entries /\
       Forall label_ok entries) p.

(** The table states that a sequence of lookups goes through. *)
Inductive reaches : Parser.state -> Parser.state -> Prop :=
| reaches_refl p : reaches p p
| reaches_step p line p' found p'' :
    Parser.lookup p line = Ok (p', found) ->
    reaches p' p'' ->
    reaches p p''.

(** The records of one mnemonic, in the order [_load_table] stores
    them. *)
Definition has_mnemonic (mnemo : str) (entry : Entry) : Prop :=
  Parser.extract_mnemonic (case_ entry) = Some mnemo.

#[global] Instance has_mnemonic_dec mnemo entry
  : Decision (has_mnemonic mnemo entry).
Proof. unfold has_mnemonic. apply _. Defined.

Definition bucket (json : list Entry) (mnemo : str) : list Entry :=
  filter (has_mnemonic mnemo) (Parser.sort_by_w json).

(** The table holds the records of [json], bucket by bucket, each as
    loaded or initialised. *)
Definition table_inv (json : list Entry) (p : Parser.state) : Prop :=
  forall mnemo,
    match p !! mnemo with
    | Some entries =>
        Forall entry_wf entries /\ map erase entries = bucket json mnemo
    | None => bucket json mnemo = []
    end.

Definition by_weight (a b : Entry) : Prop := w a <= w b.

(** ** The shape of a line

    [label] is empty or an identifier and a colon. *)
Definition label_char (c : ascii) : bool :=
  eqc c "$" || eqc c "." || isword c.

Definition is_label (label : str) : Prop :=
  label = [] \/
  exists name, name <> [] /\ Forall (fun c => label_char c = true) name /\
               label = name ++ $":".

(** [line] is an optional label, blanks, the mnemonic [operator] and
    the optional [rest] (blanks and text), up to an optional final
    newline. *)
Definition line_shape (line operator rest : str) : Prop :=
  exists label blanks tail,
    line = label ++ blanks ++ operator ++ rest ++ tail /\
    is_label label /\
    Forall (fun c => isspace c = true) blanks /\
    operator <> [] /\ Forall (fun c => isword c = true) operator /\
    (rest = [] \/
     exists blanks' text,
       rest = blanks' ++ text /\ blanks' <> [] /\
       Forall (fun c => isspace c = true) blanks' /\
       Forall (fun c => c <> NEWLINE) text) /\
    (tail = [] \/ tail = [NEWLINE]).

(** [s] is, from its first to its last character, blanks, a text that
    the expression [r] matches, blanks, an optional comment led by a
    semicolon, and an optional final newline. *)
Definition anchored (r : re) (s : str) : Prop :=
  exists blanks body blanks' comment tail c c',
    s = blanks ++ body ++ blanks' ++ comment ++ tail /\
    Forall (fun c => isspace c = true) blanks /\
    Matches true r (length blanks) body (blanks' ++ comment ++ tail) c c' /\
    Forall (fun c => isspace c = true) blanks' /\
    (comment = [] \/
     exists text, comment = $";" ++ text /\
                  Forall (fun c => c <> NEWLINE) text) /\
    (tail = [] \/ tail = [NEWLINE]).

(** The end of a line behind what a pattern matched: blanks, an
    optional comment led by a semicolon, an optional final newline. *)
Definition line_end (s : str) : Prop :=
  exists blanks comment tail,
    s = blanks ++ comment ++ tail /\
    Forall (fun c => isspace c = true) blanks /\
    (comment = [] \/
     exists text, comment = $";" ++ text /\
                  Forall (fun c => c <> NEWLINE) text) /\
    (tail = [] \/ tail = [NEWLINE]).

(** [r] matches a piece of [s]; with [start] only blanks come before
    the piece, with [stop] only the end of the line follows it. *)
Definition matches_in (r : re) (s : str) (start stop : bool) : Prop :=
  exists before body after c c',
    s = before ++ body ++ after /\
    (start = true -> Forall (fun c => isspace c = true) before) /\
    Matches true r (length before) body after c c' /\
    (stop = true -> line_end after).

(** What a match of the compiled pattern says for a text of
    alternatives: the head binds the first alternative only, the tail
    the last one only, and an alternative between them is bound by
    neither. *)
Fixpoint alternatives_match (start : bool) (alternatives : list re)
  (s : str) : Prop :=
  match alternatives with
  | [] => matches_in Eps s start true
  | [a] => matches_in a s start true
  | a :: rest =>
      matches_in a s start false \/ alternatives_match false rest s
  end.


(** ** Annotations

    The shape that [OUR_COMMENT] recognises: a bracket, one or more
    digits, dots, blanks and slashes, a bracket. *)
Definition ann_char (a : ascii) : bool :=
  chr_match false false ANNOTATION_SET a.

Definition is_annotation (text : str) : Prop :=
  exists body, text = $"[" ++ body ++ $"]" /\ body <> [] /\
               Forall (fun a => ann_char a = true) body.

(** [text] occurs in [s]. *)
Definition occurs (text s : str) : Prop :=
  exists before after, s = before ++ text ++ after.

(** An annotation occurs in [s] from the index [n] on. *)
Definition annotation_at (s : str) (n : nat) : Prop :=
  exists text after, drop n s = text ++ after /\ is_annotation text.

(** What [format_line] puts between the brackets, and the comment it
    builds. *)
Definition annotation_body (entry : Entry) (total total_cond : Z)
  (subt : bool) : str :=
  cycles entry ++
  (if subt then
     if total_cond =? 0 then $" .. " ++ str_of_int total
     else $" .. " ++ str_of_int total_cond ++ $"/" ++ str_of_int total
   else []).

Definition annotation_text (entry : Entry) (total total_cond : Z)
  (subt debug : bool) : str :=
  $"; [" ++ annotation_body entry total total_cond subt ++ $"]" ++
  (if debug then $" case{" ++ case_ entry ++ $"}" else []).

(** What [format_line] keeps of an old trailing comment when it
    updates: the comment without the text of its first annotation. *)
Definition strip_annotation (comment : str) : str :=
  match re_search OUR_COMMENT comment with
  | Some m => replace (group0 m) [] comment
  | None => comment
  end.

(** Tests on results, for the examples. *)
Definition is_ok {A} (r : result A) : bool :=
  match r with
  | Ok _ => true
  | Raise _ => false
  end.

Definition found {A B} (r : result (A * option B)) : bool :=
  match r with
  | Ok (_, Some _) => true
  | _ => false
  end.

(** ** A small table

    Four records in the format of the table file, for the examples: a
    catch-all shape of [LD] listed before a more specific one of lower
    weight, a conditional [DJNZ] and a plain [NOP]. *)

Definition word (s : str) : re := foldr (fun c r => Seq (Lit c) r) Eps s.

Definition REG8 : re := Chr false (map CLit $"abcdehl").

(** "ld\s+[abcdehl]\s*,\s*" and the text of the second operand *)
Definition LD_REG8 (operand : re) : re :=
  Seq (word $"ld") (Seq (Plus WS) (Seq REG8 (Seq (Star WS)
    (Seq (Lit ",") (Seq (Star WS) operand))))).

Definition LD_R_N : Entry :=
  json_entry $"LD r,n" (Alts [LD_REG8 (Plus (Chr false [CWord]))]) $"7" 2.

Definition LD_R_R : Entry :=
  json_entry $"LD r,r" (Alts [LD_REG8 REG8]) $"4" 1.

Definition NOP : Entry := json_entry $"NOP" (Alts [word $"nop"]) $"4" 1.

Definition DJNZ : Entry :=
  json_entry $"DJNZ n"
    (Alts [Seq (word $"djnz") (Seq (Plus WS) (Plus (Chr false [CWord])))])
    $"13/8" 1.

Definition SAMPLE_JSON : list Entry := [LD_R_N; NOP; DJNZ; LD_R_R].

Definition SAMPLE : Parser.state :=
  match Parser.load_table SAMPLE_JSON with
  | Ok t => t
  | Raise _ => ∅
  end.

(** A table with a record whose pattern text is the alternation of two
    words. *)
Definition NOP_HALT : Entry :=
  json_entry $"NOP" (Alts [word $"nop"; word $"halt"]) $"4" 1.

Definition ALTERNATION : Parser.state :=
  match Parser.load_table [NOP_HALT] with
  | Ok t => t
  | Raise _ => ∅
  end.

(** A table with a record whose cost label is not a number. *)
Definition HALT : Entry :=
  json_entry $"HALT" (Alts [word $"halt"]) $"four" 1.

Definition HALT_JSON : list Entry := [HALT].

Definition UNCHECKED : Parser.state :=
  match Parser.load_table HALT_JSON with
  | Ok t => t
  | Raise _ => ∅
  end.

(** * Properties *)

(** ** Examples *)

Example line_length_tabs :
  line_length [TAB; "a"%char; TAB] 8 = Ok 16.
Proof. reflexivity. Qed.

Example comment_alignment_nop :
  comment_alignment $"  NOP" 14 false 8 = Ok $"        ".
Proof. reflexivity. Qed.

Example our_comment_found :
  group0 <$> re_search OUR_COMMENT $" old [13/8 .. 113/108] text"
  = Some $"[13/8 .. 113/108]".
Proof. reflexivity. Qed.

Example our_comment_other_shape :
  re_search OUR_COMMENT $" see [HL] and [] and [4" = None.
Proof. reflexivity. Qed.

(** [int] skips the blanks of C around a number and no other
    character, a separator of [str.isspace] included. *)
Example int_blanks :
  int ([TAB] ++ $" +1_0 " ++ [NEWLINE]) = Ok 10 ∧
  int [chr 28; "4"%char] = Raise ValueError ∧
  int $"- 4" = Raise ValueError ∧ int $"4_" = Raise ValueError.
Proof. repeat split; vm_compute; reflexivity. Qed.

(** A pattern text that does not compile stops [_init_entry] before
    the cost label is read. *)
Example init_entry_malformed :
  Parser.init_entry (json_entry $"NOP" Malformed $"four" 1) = Raise ReError.
Proof. reflexivity. Qed.

(** ** Alignment *)

Lemma floordiv_ok a b : b ≠ 0 → floordiv a b = Ok (a / b).
Proof. intros H. unfold floordiv. by destruct (Z.eqb_spec b 0). Qed.

Lemma pymod_ok a b : b ≠ 0 → pymod a b = Ok (a mod b).
Proof. intros H. unfold pymod. by destruct (Z.eqb_spec b 0). Qed.

Lemma str_mul_char c n : str_mul [c] n = replicate (Z.to_nat n) c.
Proof.
  unfold str_mul. induction (Z.to_nat n) as [|k IH]; simpl; [done|].
  by rewrite IH.
Qed.

(** The code's way to the next tab stop is the next multiple. *)
Lemma next_multiple_code pos tab_width :
  tab_width ≠ 0 →
  (pos + tab_width) / tab_width * tab_width = next_multiple pos tab_width.
Proof.
  intros H. unfold next_multiple.
  replace (pos + tab_width) with (pos + 1 * tab_width) by lia.
  by rewrite Z.div_add.
Qed.

(** For a positive width, [next_multiple] is the least multiple of the
    width above the position. *)
Lemma next_multiple_least pos tab_width :
  0 < tab_width →
  let n := next_multiple pos tab_width in
  (tab_width | n) ∧ pos < n ≤ pos + tab_width ∧
  ∀ m, (tab_width | m) → pos < m → n ≤ m.
Proof.
  intros H n. subst n. unfold next_multiple.
  pose proof (Z.div_mod pos tab_width ltac:(lia)) as E.
  pose proof (Z.mod_pos_bound pos tab_width H) as B.
  split; [by apply Z.divide_factor_r|]. split; [nia|].
  intros m [q ->] Hm.
  assert (pos / tab_width < q) by nia. nia.
Qed.

Lemma line_length_loop_spec line tab_width length :
  tab_width ≠ 0 →
  line_length_loop length line tab_width
  = Ok (fold_left
          (fun pos c =>
             if eqc c TAB then next_multiple pos tab_width else pos + 1)
          line length).
Proof.
  intros H. revert length.
  induction line as [|i rest IH]; intros length; simpl; [done|].
  destruct (eqc i TAB).
  - rewrite floordiv_ok by done. simpl.
    by rewrite IH, next_multiple_code.
  - apply IH.
Qed.

Lemma line_length_spec line tab_width :
  tab_width ≠ 0 →
  line_length line tab_width = Ok (tab_aware_length line tab_width).
Proof. intros H. by apply line_length_loop_spec. Qed.

(** Without a tab in the text the width is never used. *)
Lemma line_length_no_tab line tab_width :
  Forall (fun c => c ≠ TAB) line →
  line_length line tab_width = Ok (Z.of_nat (length line)).
Proof.
  unfold line_length. intros H.
  enough (G : ∀ n, line_length_loop n line tab_width
                   = Ok (n + Z.of_nat (length line)))
    by (rewrite G; f_equal).
  induction H as [|c l Hc _ IH]; intros n; simpl.
  - f_equal. lia.
  - unfold eqc. rewrite bool_decide_false by done.
    rewrite IH. f_equal. lia.
Qed.

(** What [comment_alignment] returns for a tab width that is not 0,
    case by case, in terms of the tab-aware length of the code
    text. *)
Lemma comment_alignment_nonzero (line : str) (column : Z) (use_tabs : bool)
  (tab_width : Z) :
  tab_width ≠ 0 →
  let length := tab_aware_length line tab_width in
  let expected := column - 1 in
  let tab_stop := expected / tab_width * tab_width + 1 in
  let aligned := comment_alignment line column use_tabs tab_width in
  (length >= expected → aligned = Ok [SPACE]) ∧
  (length < expected → use_tabs = false →
     aligned = Ok (spaces (expected - length))) ∧
  (length < expected → use_tabs = true → tab_stop > length →
     aligned
     = Ok (tabs ((tab_stop - length) / tab_width
                 + (if length mod tab_width >? 1 then 1 else 0))
           ++ spaces (expected - tab_stop))) ∧
  (length < expected → use_tabs = true → tab_stop <= length →
     aligned = Ok (spaces (expected - length))).
Proof.
  intros Htw length expected tab_stop aligned.
  subst aligned. unfold comment_alignment.
  rewrite line_length_spec by done. simpl.
  fold length expected.
  repeat split.
  - intros H. destruct (Z.geb_spec length expected); [done|lia].
  - intros H ->. destruct (Z.geb_spec length expected); [lia|].
    simpl. by rewrite !str_mul_char.
  - intros H -> Hs. destruct (Z.geb_spec length expected); [lia|].
    rewrite floordiv_ok by done. simpl. fold tab_stop.
    destruct (Z.gtb_spec tab_stop length); [|lia].
    rewrite floordiv_ok, pymod_ok by done. simpl.
    rewrite !str_mul_char. unfold tabs, spaces.
    destruct (length mod tab_width >? 1); [done|].
    by rewrite Z.add_0_r.
  - intros H -> Hs. destruct (Z.geb_spec length expected); [lia|].
    rewrite floordiv_ok by done. simpl. fold tab_stop.
    destruct (Z.gtb_spec tab_stop length); [lia|].
    simpl. by rewrite !str_mul_char.
Qed.

(** C10: with tabs, a code text whose tab-aware length is 48 gets no
    padding at all for column 50 and tab width 8, although it is one
    short of the column: the annotation then follows the code
    directly, as on the line of 45 spaces and [NOP]. *)
Theorem comment_alignment_empty (code_text : str) :
  line_length code_text 8 = Ok 48 →
  comment_alignment code_text 50 true 8 = Ok []
  ∧ snd <$> z80count (replicate 45 SPACE ++ $"NOP") SAMPLE 0
              false false 50 true 8 false
    = Ok (replicate 45 SPACE ++ $"NOP; [4]" ++ [NEWLINE], 4).
Proof.
  intros H. split.
  - unfold comment_alignment. rewrite H. reflexivity.
  - vm_compute. reflexivity.
Qed.

Lemma comment_alignment_empty_witness :
  comment_alignment (replicate 48 "a"%char) 50 true 8 = Ok [].
Proof.
  apply (comment_alignment_empty (replicate 48 "a"%char)).
  vm_compute. reflexivity.
Defined.

(** ** Accumulator *)

Lemma update_counters_fields entry total M N :
  t_states_met entry = Some M →
  t_states_or_not_met entry = Some N →
  update_counters entry total
  = Ok (total + N, if M =? 0 then 0 else total + M).
Proof.
  intros HM HN. unfold update_counters. rewrite HM, HN. simpl.
  by destruct (M =? 0).
Qed.

Lemma init_entry_fields raw entry :
  Parser.init_entry raw = Ok entry →
  case_ entry = case_ raw ∧ regex entry = regex raw ∧
  cycles entry = cycles raw ∧ w entry = w raw ∧
  (∃ cre, compile_cregex (regex raw) = Ok cre ∧ cregex entry = Some cre) ∧
  initialized entry = Some true ∧
  match cost_of_label (cycles raw) with
  | Some (Conditional M N) =>
      t_states_met entry = Some M ∧ t_states_or_not_met entry = Some N
  | Some (Fixed C) =>
      t_states_met entry = Some 0 ∧ t_states_or_not_met entry = Some C
  | None => False
  end.
Proof.
  unfold Parser.init_entry, cost_of_label.
  destruct (compile_cregex (regex raw)) as [cre|]; simpl; [|done].
  destruct (contains "/" (cycles raw)).
  - destruct (split "/" (cycles raw)) as [|m [|n rest]]; simpl; try done.
    unfold item; simpl.
    destruct (int n) as [N|]; simpl; [|by destruct (int m)].
    destruct (int m) as [M|]; simpl; [|done].
    intros [= <-]. simpl. eauto 10.
  - destruct (int (cycles raw)) as [C|]; simpl; [|done].
    intros [= <-]. simpl. eauto 10.
Qed.

(** C1: the two totals that [update_counters] returns for a record
    initialised from its label: with a conditional cost [M/N] the new
    total is [total + N] and the conditional total is [total + M], or
    0 when [M] is 0; with a plain cost [C] the new total is
    [total + C] and the conditional total is 0. *)
Theorem update_counters_spec (raw entry : Entry) (total : Z) :
  Parser.init_entry raw = Ok entry →
  match cost_of_label (cycles raw) with
  | Some (Conditional M N) =>
      update_counters entry total
      = Ok (total + N, if M =? 0 then 0 else total + M)
  | Some (Fixed C) => update_counters entry total = Ok (total + C, 0)
  | None => False
  end.
Proof.
  intros H. apply init_entry_fields in H as (_ & _ & _ & _ & _ & _ & H).
  destruct (cost_of_label (cycles raw)) as [[C|M N]|]; [| |done].
  - destruct H as [HM HN].
    by rewrite (update_counters_fields _ _ _ _ HM HN).
  - destruct H as [HM HN].
    by rewrite (update_counters_fields _ _ _ _ HM HN).
Qed.

Lemma update_counters_spec_witness :
  ∃ entry, Parser.init_entry DJNZ = Ok entry ∧
           update_counters entry 100 = Ok (108, 113).
Proof.
  eexists. split; [reflexivity|].
  exact (update_counters_spec DJNZ _ 100 eq_refl).
Defined.

Lemma update_counters_step entry total :
  nonneg_cost entry →
  ∃ new_total total_cond,
    update_counters entry total = Ok (new_total, total_cond) ∧
    new_total >= total.
Proof.
  intros [[M HM] (N & HN & Hpos)].
  rewrite (update_counters_fields _ _ _ _ HM HN).
  eexists _, _. split; [done|lia].
Qed.

(** C8: over any sequence of matched records with non-negative costs
    the running total never decreases: every update returns a new
    total that is at least the total it was given, and the successive
    totals are in ascending order. *)
Theorem totals_monotone (entries : list Entry) (total : Z) :
  Forall nonneg_cost entries →
  (∀ entry, entry ∈ entries → ∀ t, ∃ new_total total_cond,
      update_counters entry t = Ok (new_total, total_cond) ∧ new_total >= t)
  ∧ ∃ later, totals entries total = Ok later
             ∧ Sorted Z.le (total :: later).
Proof.
  intros H. split.
  - intros entry Hin t. rewrite Forall_forall in H.
    by apply update_counters_step, H.
  - revert total. induction H as [|entry rest He _ IH]; intros total.
    + exists []. split; [done|]. repeat constructor.
    + destruct (update_counters_step entry total He) as (t' & c & Hu & Hge).
      destruct (IH t') as (later & Hl & Hs).
      exists (t' :: later). simpl. rewrite Hu. simpl. rewrite Hl. simpl.
      split; [done|]. constructor; [done|]. constructor. lia.
Qed.

Lemma totals_monotone_witness :
  ∃ a b, Parser.init_entry NOP = Ok a ∧ Parser.init_entry DJNZ = Ok b ∧
         ∃ later, totals [a; b; a] 100 = Ok later
                  ∧ Sorted Z.le (100 :: later).
Proof.
  eexists _, _. split; [reflexivity|]. split; [reflexivity|].
  refine (proj2 (totals_monotone _ 100 _)).
  repeat (apply Forall_cons_2 || apply Forall_nil_2);
    (split; [eexists; reflexivity
            | eexists; split; [reflexivity | by vm_compute]]).
Defined.

(** ** The matcher is sound for [Matches] *)

Section exec_sound.
Context {A : Type} (ic : bool).

Lemma star_loop_sound body r k fuel i s c (x : A) :
  sound_body ic body r →
  star_loop body k fuel i s c = Some x →
  ∃ u rest c', s = u ++ rest ∧ Matches ic (Star r) i u rest c c' ∧
               k (i + length u)%nat rest c' = Some x.
Proof.
  intros Hb. revert i s c.
  induction fuel as [|fuel IH]; intros i s c; simpl.
  - intros H. exists [], s, c. rewrite Nat.add_0_r.
    split; [done|]. split; [constructor|done].
  - destruct (body i s c _) as [y|] eqn:E.
    + intros [= ->]. apply Hb in E as (u & rest & c1 & -> & Hu & E).
      destruct (Nat.ltb_spec i (i + length u)) as [Hlt|]; [|done].
      apply IH in E as (v & rest' & c2 & -> & Hv & E).
      exists (u ++ v), rest', c2. rewrite <- app_assoc.
      split; [done|]. split.
      * apply M_StarS with c1; [|done|done].
        intros ->. simpl in Hlt. lia.
      * by rewrite length_app, Nat.add_assoc.
    + intros H. exists [], s, c. rewrite Nat.add_0_r.
      split; [done|]. split; [constructor|done].
Qed.

Lemma exec_sound r :
  sound_body (A := A) ic (fun i s c k => exec ic r i s c k) r.
Proof.
  induction r as [|negate items| | | |r1 IH1 r2 IH2|r1 IH1 r2 IH2|r1 IH1
                 |g r1 IH1]; intros k i s c x; simpl.
  - intros H. exists [], s, c. rewrite Nat.add_0_r.
    split; [done|]. split; [constructor|done].
  - destruct s as [|a s']; [done|].
    destruct (chr_match ic negate items a) eqn:E; [|done].
    intros H. exists [a], s', c. split; [done|].
    split; [by constructor|]. by rewrite Nat.add_1_r.
  - destruct s as [|a s']; [done|].
    unfold eqc. case_bool_decide; [done|].
    intros Hk. exists [a], s', c. split; [done|].
    split; [by constructor|]. by rewrite Nat.add_1_r.
  - destruct (Nat.eqb_spec i 0) as [->|]; [|done].
    intros H. exists [], s, c. split; [done|]. split; [constructor|done].
  - intros Hk. exists [], s, c. rewrite Nat.add_0_r. split; [done|].
    destruct s as [|a [|b s']]; [| |done].
    + split; [constructor; by left|done].
    + unfold eqc in Hk. case_bool_decide; [subst a|done].
      split; [constructor; by right|done].
  - intros H. apply IH1 in H as (u & rest & c1 & -> & Hu & H).
    apply IH2 in H as (v & rest' & c2 & -> & Hv & H).
    exists (u ++ v), rest', c2. rewrite <- app_assoc.
    split; [done|]. split; [by apply M_Seq with c1|].
    by rewrite length_app, Nat.add_assoc.
  - destruct (exec ic r1 i s c k) as [y|] eqn:E.
    + intros [= ->]. apply IH1 in E as (u & rest & c1 & -> & Hu & E).
      exists u, rest, c1. split; [done|]. split; [by apply M_AltL|done].
    + intros H. apply IH2 in H as (u & rest & c1 & -> & Hu & E').
      exists u, rest, c1. split; [done|]. split; [by apply M_AltR|done].
  - intros H. by apply star_loop_sound with (r := r1) in H.
  - intros H. apply IH1 in H as (u & rest & c1 & -> & Hu & H).
    exists u, rest, ((g, (i, (i + length u)%nat)) :: c1).
    split; [done|]. split; [by constructor|done].
Qed.
End exec_sound.

Lemma try_at_sound p whole i s m :
  try_at p whole i s = Some m →
  ∃ u rest, s = u ++ rest ∧
            Matches (pat_ignorecase p) (pat_re p) i u rest [] (m_caps m) ∧
            m_string m = whole ∧ m_start m = i ∧
            m_end m = (i + length u)%nat.
Proof.
  unfold try_at. intros H.
  apply exec_sound in H as (u & rest & c' & -> & Hu & [= <-]).
  by exists u, rest.
Qed.

Lemma re_match_sound p s m :
  re_match p s = Some m →
  ∃ u rest, s = u ++ rest ∧
            Matches (pat_ignorecase p) (pat_re p) 0 u rest [] (m_caps m) ∧
            m_string m = s ∧ m_start m = 0%nat ∧ m_end m = length u.
Proof. apply try_at_sound. Qed.

Lemma search_from_sound p whole i s m :
  search_from p whole i s = Some m →
  ∃ pre u rest, s = pre ++ u ++ rest ∧
     Matches (pat_ignorecase p) (pat_re p) (i + length pre) u rest []
       (m_caps m) ∧
     m_string m = whole ∧ m_start m = (i + length pre)%nat ∧
     m_end m = (i + length pre + length u)%nat.
Proof.
  revert i. induction s as [|a s IH]; intros i; simpl.
  - destruct (try_at p whole i []) as [m'|] eqn:E; [|done].
    intros [= ->]. apply try_at_sound in E as (u & rest & E & H).
    exists [], u, rest. simpl. by rewrite Nat.add_0_r.
  - destruct (try_at p whole i (a :: s)) as [m'|] eqn:E.
    + intros [= ->]. apply try_at_sound in E as (u & rest & E & H).
      exists [], u, rest. simpl. by rewrite Nat.add_0_r.
    + intros H. apply IH in H as (pre & u & rest & -> & H).
      exists (a :: pre), u, rest. simpl.
      by replace (i + S (length pre))%nat with (S i + length pre)%nat by lia.
Qed.

Lemma re_search_sound p s m :
  re_search p s = Some m →
  ∃ pre u rest, s = pre ++ u ++ rest ∧
     Matches (pat_ignorecase p) (pat_re p) (length pre) u rest []
       (m_caps m) ∧
     m_string m = s ∧ m_start m = length pre ∧
     m_end m = (length pre + length u)%nat.
Proof. apply search_from_sound. Qed.

(** ** Records and their initialisation *)

Lemma init_entry_erase raw entry :
  Parser.init_entry raw = Ok entry → erase entry = erase raw.
Proof.
  intros H. apply init_entry_fields in H as (H1 & H2 & H3 & H4 & _).
  unfold erase. by rewrite H1, H2, H3, H4.
Qed.

Lemma init_entry_of_erase raw :
  Parser.init_entry (erase raw) = Parser.init_entry raw.
Proof. reflexivity. Qed.

Lemma init_step_erase entry entry' :
  init_step entry entry' → erase entry' = erase entry.
Proof. intros [->|[_ H]]; [done|by apply init_entry_erase]. Qed.

Lemma init_step_wf entry entry' :
  entry_wf entry → init_step entry entry' → entry_wf entry'.
Proof.
  intros Hwf [->|[Hi H]]; [done|]. right.
  rewrite (init_entry_erase _ _ H). by rewrite init_entry_of_erase.
Qed.

Lemma entry_wf_cregex entry cre :
  entry_wf entry → cregex entry = Some cre →
  compile_cregex (regex entry) = Ok cre ∧ initialized entry = Some true.
Proof.
  intros [E|E] H.
  - rewrite E in H. done.
  - apply init_entry_fields in E as (_ & E2 & _ & _ & (c & E5 & E5') & E6 & _).
    simpl in *. rewrite E5' in H. by injection H as <-.
Qed.

Lemma init_step_refl l : Forall2 init_step l l.
Proof.
  apply Forall2_same_length_lookup_2; [done|].
  intros i x y Hx Hy. left. congruence.
Qed.

Lemma split_nonempty sep s : split sep s ≠ [].
Proof.
  destruct s as [|c t]; simpl; [done|].
  destruct (eqc c sep); [done|]. by destruct (split sep t).
Qed.

Lemma split_contains sep s :
  contains sep s = true → ∃ a b rest, split sep s = a :: b :: rest.
Proof.
  unfold contains. induction s as [|c t IH]; simpl; [done|].
  destruct (decide (c = sep)) as [->|Hne].
  - assert (eqc sep sep = true) as -> by (by apply bool_decide_eq_true_2).
    intros _. pose proof (split_nonempty sep t).
    destruct (split sep t) as [|b rest]; [done|]. by exists [], b, rest.
  - assert (eqc c sep = false) as -> by (by apply bool_decide_eq_false_2).
    assert (eqc sep c = false) as ->
      by (apply bool_decide_eq_false_2; congruence).
    intros (a & b & rest & ->)%IH. by exists (c :: a), b, rest.
Qed.

Lemma int_raises s e : int s = Raise e → e = ValueError.
Proof.
  unfold int.
  destruct (match skip_blanks_end (skip_blanks s) with
            | [] => None | _ => _ end); [|by intros [= <-]].
  destruct (_ <? _); [by intros [= <-]|done].
Qed.

(** [_init_entry] raises [re.error] on a pattern text that does not
    compile and, when the pattern compiles, [ValueError] on a cost
    label that is not numeric; it raises nothing else. *)
Lemma init_entry_cases entry :
  (pattern_ok entry ∧ label_ok entry ∧
   ∃ entry', Parser.init_entry entry = Ok entry') ∨
  (¬ pattern_ok entry ∧ Parser.init_entry entry = Raise ReError) ∨
  (pattern_ok entry ∧ ¬ label_ok entry ∧
   Parser.init_entry entry = Raise ValueError).
Proof.
  unfold pattern_ok, label_ok, Parser.init_entry, cost_of_label.
  destruct (regex entry) as [alts|]; cbn [compile_cregex mbind result_bind].
  2: { right. left. split; [by intros [? ?]|done]. }
  assert (Hp : ∃ cre, Ok (cregex_of alts) = Ok cre) by eauto.
  destruct (contains "/" (cycles entry)) eqn:Ec.
  - destruct (split_contains _ _ Ec) as (a & b & rest & ->).
    unfold item. cbn [lookup list_lookup mbind result_bind].
    destruct (int b) as [N|e] eqn:Eb; cbn [mbind result_bind].
    + destruct (int a) as [M|e] eqn:Ea; cbn [mbind result_bind].
      * left. eauto.
      * right. right. apply int_raises in Ea as ->.
        split; [done|]. split; [by intros [? ?]|done].
    + right. right. apply int_raises in Eb as ->.
      split; [done|]. split; [|done]. destruct (int a); by intros [? ?].
  - destruct (int (cycles entry)) as [C|e] eqn:E; cbn [mbind result_bind].
    + left. eauto.
    + right. right. apply int_raises in E as ->.
      split; [done|]. split; [by intros [? ?]|done].
Qed.

(** An initialised record has a pattern that compiles and a numeric
    cost label. *)
Lemma entry_wf_initialized entry :
  entry_wf entry → initialized entry ≠ None →
  pattern_ok entry ∧ label_ok entry.
Proof.
  intros [E|E] Hi; [by rewrite E in Hi|].
  destruct (init_entry_cases (erase entry))
    as [(H1 & H2 & _)|[[_ H]|(_ & _ & H)]]; [done|congruence..].
Qed.

Lemma init_if_needed entry :
  entry_wf entry → pattern_ok entry → label_ok entry →
  ∃ entry' cre,
    match initialized entry with
    | Some _ => Ok entry
    | None => Parser.init_entry entry
    end = Ok entry' ∧
    init_step entry entry' ∧
    compile_cregex (regex entry) = Ok cre ∧ cregex entry' = Some cre.
Proof.
  intros [He|He] Hp Hl.
  - assert (Hi : initialized entry = None) by (by rewrite He).
    rewrite Hi.
    destruct (init_entry_cases entry)
      as [(_ & _ & e' & Ei)|[[? _]|(_ & ? & _)]]; [|done..].
    pose proof Ei as (_ & _ & _ & _ & (cre & Hc & Hc') & _)%init_entry_fields.
    exists e', cre. split; [done|]. split; [by right|done].
  - pose proof He as Hf.
    apply init_entry_fields in Hf as (_ & _ & _ & _ & (cre & Hc & Hc') & -> & _).
    exists entry, cre. split; [done|]. split; [by left|done].
Qed.

(** ** The loop of [lookup] *)

Lemma lookup_loop_spec entries line entries' found :
  Parser.lookup_loop entries line = Ok (entries', found) →
  Forall2 init_step entries entries' ∧
  match found with
  | Some entry =>
      ∃ pre pre' entry0 post,
        entries = pre ++ entry0 :: post ∧
        entries' = pre' ++ entry :: post ∧
        Forall2 init_step pre pre' ∧ init_step entry0 entry ∧
        Forall (rejects line) pre' ∧
        ∃ cre, cregex entry = Some cre ∧ is_Some (re_search cre line)
  | None => Forall (rejects line) entries'
  end.
Proof.
  revert entries' found.
  induction entries as [|e rest IH]; intros entries' found; simpl.
  - intros [= <- <-]. split; constructor.
  - destruct (match initialized e with
              | Some _ => Ok e | None => Parser.init_entry e end)
      as [e'|] eqn:Ei; simpl; [|done].
    assert (Hstep : init_step e e').
    { destruct (initialized e) eqn:E; [left; congruence|by right]. }
    destruct (cregex e') as [cre|] eqn:Ec; simpl; [|done].
    destruct (re_search cre line) as [m|] eqn:Es.
    + intros [= <- <-]. split.
      { constructor; [done|apply init_step_refl]. }
      exists [], [], e, rest. split; [done|]. split; [done|].
      split; [constructor|]. split; [done|]. split; [constructor|].
      exists cre. split; [done|]. by rewrite Es.
    + destruct (Parser.lookup_loop rest line) as [[rest' f]|] eqn:El;
        simpl; [|done].
      intros [= <- <-]. destruct (IH _ _ eq_refl) as [H2 Hf].
      split; [by constructor|].
      destruct f as [entry|].
      * destruct Hf as (pre & pre' & entry0 & post & -> & -> & Hp & Hs & Hr
                        & Hc).
        exists (e :: pre), (e' :: pre'), entry0, post.
        repeat split; try done; [by constructor|].
        constructor; [by exists cre|done].
      * constructor; [by exists cre|done].
Qed.

(** The loop does not raise when the patterns of the records compile
    and their labels parse. *)
Lemma lookup_loop_ok entries line :
  Forall entry_wf entries →
  Forall pattern_ok entries →
  Forall label_ok entries →
  ∃ entries' found, Parser.lookup_loop entries line = Ok (entries', found).
Proof.
  intros Hwf Hp Hl. induction Hwf as [|e rest He _ IH]; simpl; [eauto|].
  apply Forall_cons in Hl as [Hle Hl]. apply Forall_cons in Hp as [Hpe Hp].
  destruct (IH Hp Hl) as (r' & f & E).
  destruct (init_if_needed e He Hpe Hle) as (e' & cre & -> & _ & _ & Hc).
  simpl. rewrite Hc. simpl.
  destruct (re_search cre line); [eauto|]. rewrite E. simpl. eauto.
Qed.

(** ** [lookup] *)

Lemma lookup_spec p line p' found :
  Parser.lookup p line = Ok (p', found) →
  (found = None ∧ p' = p ∧
   (Parser.extract_mnemonic line = None ∨
    ∃ mnemo, Parser.extract_mnemonic line = Some mnemo ∧ p !! mnemo = None))
  ∨ ∃ mnemo stripped entries entries',
      Parser.extract_mnemonic line = Some mnemo ∧
      Parser.remove_label line = Some stripped ∧
      p !! mnemo = Some entries ∧
      Parser.lookup_loop entries stripped = Ok (entries', found) ∧
      p' = <[mnemo := entries']> p.
Proof.
  unfold Parser.lookup.
  destruct (Parser.extract_mnemonic line) as [mnemo|] eqn:Em.
  - destruct (Parser.remove_label line) as [stripped|] eqn:Er.
    + destruct (p !! mnemo) as [entries|] eqn:Ep.
      * destruct (Parser.lookup_loop entries stripped) as [[entries' f]|]
          eqn:El; simpl; [|done].
        intros [= <- <-]. right. by exists mnemo, stripped, entries, entries'.
      * intros [= <- <-]. left. split; [done|]. split; [done|].
        right. by exists mnemo.
    + intros [= <- <-]. left.
      revert Em Er. unfold Parser.extract_mnemonic, Parser.remove_label.
      destruct (re_match Parser.LINE_RE line); [|done].
      by destruct (group m Parser.OPERATOR).
  - intros [= <- <-]. left. split; [done|]. split; [done|]. by left.
Qed.

(** Every bucket is changed by [init_step]s only. *)
Lemma lookup_frame p line p' found :
  Parser.lookup p line = Ok (p', found) →
  ∀ mnemo, option_Forall2 (Forall2 init_step) (p !! mnemo) (p' !! mnemo).
Proof.
  pose proof init_step_refl as Hrefl.
  intros H mnemo.
  apply lookup_spec in H
    as [(_ & -> & _)|(m & stripped & entries & entries' & _ & _ & Hp & Hl
                      & ->)].
  - destruct (p !! mnemo); constructor. apply Hrefl.
  - destruct (decide (m = mnemo)) as [->|Hne].
    + rewrite lookup_insert_eq, Hp. constructor.
      by apply lookup_loop_spec in Hl as [Hl _].
    + rewrite lookup_insert_ne by done.
      destruct (p !! mnemo); constructor. apply Hrefl.
Qed.

(** ** The table under [lookup] *)

(** The first lookup of [NOP] in the sample table changes the record
    of [NOP]: the claim that lookup leaves every record as it was
    built fails there. *)
Lemma lookup_mutates_record :
  ∃ p' entry entry',
    fst <$> Parser.lookup SAMPLE $"NOP" = Ok p' ∧
    SAMPLE !! $"NOP" = Some [entry] ∧
    p' !! $"NOP" = Some [entry'] ∧
    initialized entry = None ∧ initialized entry' = Some true ∧
    entry' ≠ entry.
Proof.
  destruct (Parser.lookup SAMPLE $"NOP") as [[p' found]|] eqn:E.
  2: { apply (f_equal is_ok) in E. vm_compute in E. discriminate E. }
  apply lookup_spec in E
    as [(_ & _ & [E|(mnemo & Em & E)])
       |(mnemo & stripped & entries & entries' & Em & Er & Hp & Hl & ->)].
  - vm_compute in E. discriminate E.
  - assert (H : SAMPLE !! $"NOP" = Some [NOP]) by (vm_compute; reflexivity).
    vm_compute in Em. injection Em as <-.
    change (SAMPLE !! $"NOP" = None) in E. rewrite H in E. discriminate E.
  - vm_compute in Em. injection Em as <-.
    vm_compute in Er. injection Er as <-.
    assert (H : SAMPLE !! $"NOP" = Some [NOP]) by (vm_compute; reflexivity).
    change (SAMPLE !! $"NOP" = Some entries) in Hp.
    rewrite H in Hp. injection Hp as <-.
    vm_compute in Hl. injection Hl as <- _.
    eexists _, NOP, _. split; [reflexivity|]. split; [exact H|].
    split; [apply lookup_insert_eq|].
    split; [reflexivity|]. split; [reflexivity|]. discriminate.
Qed.

(** C9, amended: [lookup] changes a table only by initialising records
    it had not initialised yet. The mnemonics, the number and order of
    the records of each mnemonic and the fields loaded from the table
    file stay as they were built, and a record that is initialised is
    never changed again. *)
Theorem lookup_keeps_loaded_fields (p p' : Parser.state) (line : str)
  (found : option Entry) :
  Parser.lookup p line = Ok (p', found) →
  (∀ mnemo, option_Forall2 (Forall2 init_step) (p !! mnemo) (p' !! mnemo)) ∧
  dom p' = dom p ∧
  (∀ mnemo, map erase <$> p' !! mnemo = map erase <$> p !! mnemo) ∧
  (∀ mnemo entries entries' i entry,
     p !! mnemo = Some entries → p' !! mnemo = Some entries' →
     entries !! i = Some entry → initialized entry ≠ None →
     entries' !! i = Some entry).
Proof.
  intros H. pose proof (lookup_frame _ _ _ _ H) as Hf.
  split; [done|]. split; [|split].
  - apply set_eq. intros mnemo. rewrite !elem_of_dom.
    specialize (Hf mnemo).
    destruct Hf; split; intros [? ?]; eauto; done.
  - intros mnemo. specialize (Hf mnemo).
    destruct Hf as [l l' Hl|]; simpl; [|done]. f_equal.
    induction Hl as [|x y l l' Hxy _ IH]; simpl; [done|].
    f_equal; [|done]. unfold erase in *.
    pose proof (init_step_erase _ _ Hxy) as E. done.
  - intros mnemo entries entries' i entry Hp Hp' Hi Hinit.
    specialize (Hf mnemo). rewrite Hp, Hp' in Hf.
    inversion Hf as [? ? Hl|]; subst.
    destruct (Forall2_lookup_l _ _ _ _ _ Hl Hi) as (y & Hy & [->|[Hn _]]);
      [done|congruence].
Qed.

Lemma lookup_keeps_loaded_fields_witness :
  ∃ p' found,
    Parser.lookup SAMPLE $"loop: DJNZ loop" = Ok (p', found) ∧
    dom p' = dom SAMPLE ∧
    map erase <$> p' !! $"DJNZ" = map erase <$> SAMPLE !! $"DJNZ".
Proof.
  destruct (Parser.lookup SAMPLE $"loop: DJNZ loop") as [[p' found]|] eqn:E.
  2: { apply (f_equal is_ok) in E. vm_compute in E. discriminate E. }
  exists p', found. split; [reflexivity|].
  pose proof (lookup_keeps_loaded_fields _ _ _ _ E) as (_ & Hd & He & _).
  split; [exact Hd|exact (He _)].
Defined.

(** ** The per-line function *)

Lemma rsplit1_cases sep s :
  (rsplit1 sep s = [s] ∧ Forall (fun c => c ≠ sep) s) ∨
  ∃ a b, rsplit1 sep s = [a; b] ∧ s = a ++ sep :: b ∧
         Forall (fun c => c ≠ sep) b.
Proof.
  unfold rsplit1.
  induction s as [|c t IH]; simpl; [left; by split|].
  destruct (rpartition sep t) as [[a b]|].
  - right. destruct IH as [[? _]|(a' & b' & [= <- <-] & -> & Hb)]; [done|].
    by exists (c :: a), b.
  - destruct IH as [[_ Ht]|(? & ? & ? & _)]; [|done].
    unfold eqc. case_bool_decide as Hc.
    + subst c. right. by exists [], t.
    + left. split; [done|]. by constructor.
Qed.

Lemma comment_alignment_ok line column use_tabs tab_width :
  tab_width ≠ 0 →
  ∃ spacing, comment_alignment line column use_tabs tab_width = Ok spacing.
Proof.
  intros H. unfold comment_alignment.
  rewrite line_length_spec by done. simpl.
  destruct (_ >=? _); [eauto|].
  destruct use_tabs; simpl; [|eauto].
  rewrite floordiv_ok by done. simpl.
  destruct (_ >? _); simpl; [|eauto].
  rewrite floordiv_ok, pymod_ok by done. simpl. eauto.
Qed.

Lemma format_line_ok line entry total total_cond subt update column debug
  use_tabs tab_width :
  tab_width ≠ 0 →
  ∃ out, format_line line entry total total_cond subt update column debug
           use_tabs tab_width = Ok out.
Proof.
  intros H. unfold format_line.
  destruct (rsplit1_cases ";" (rstrip line)) as [[-> _]|(a & b & -> & _)];
    simpl.
  - destruct (comment_alignment_ok (rstrip line) column use_tabs tab_width H)
      as [sp ->]. simpl. eauto.
  - eauto.
Qed.

Lemma init_steps_wf l l' :
  Forall2 init_step l l' → Forall entry_wf l → Forall entry_wf l'.
Proof.
  induction 1 as [|x y l l' Hxy _ IH]; [done|].
  intros [Hx Hl]%Forall_cons.
  constructor; [by eapply init_step_wf|by apply IH].
Qed.

Lemma init_steps_label_ok l l' :
  Forall2 init_step l l' → Forall label_ok l → Forall label_ok l'.
Proof.
  induction 1 as [|x y l l' Hxy _ IH]; [done|].
  intros [Hx Hl]%Forall_cons. constructor; [|by apply IH].
  unfold label_ok in *. apply init_step_erase in Hxy.
  by injection Hxy as _ _ -> _.
Qed.

Lemma init_steps_pattern_ok l l' :
  Forall2 init_step l l' → Forall pattern_ok l → Forall pattern_ok l'.
Proof.
  induction 1 as [|x y l l' Hxy _ IH]; [done|].
  intros [Hx Hl]%Forall_cons. constructor; [|by apply IH].
  unfold pattern_ok in *. apply init_step_erase in Hxy.
  by injection Hxy as _ -> _ _.
Qed.

Lemma table_ok_lookup p line :
  table_ok p →
  ∃ p' found, Parser.lookup p line = Ok (p', found) ∧ table_ok p' ∧
    ∀ entry, found = Some entry →
      is_Some (t_states_met entry) ∧ is_Some (t_states_or_not_met entry).
Proof.
  intros Hok. unfold Parser.lookup.
  destruct (Parser.extract_mnemonic line) as [mnemo|]; [|by exists p, None].
  destruct (Parser.remove_label line) as [stripped|]; [|by exists p, None].
  destruct (p !! mnemo) as [entries|] eqn:Ep; [|by exists p, None].
  destruct (Hok _ _ Ep) as (Hwf & Hp & Hl).
  destruct (lookup_loop_ok entries stripped Hwf Hp Hl)
    as (entries' & found & E).
  rewrite E. simpl. exists (<[mnemo := entries']> p), found.
  split; [done|].
  apply lookup_loop_spec in E as [H2 Hf].
  pose proof (init_steps_wf _ _ H2 Hwf) as Hwf'.
  split.
  - apply map_Forall_insert_2; [|exact Hok].
    split; [done|]. split; [by eapply init_steps_pattern_ok|].
    by eapply init_steps_label_ok.
  - intros entry ->.
    destruct Hf as (pre & pre' & e0 & post & _ & -> & _ & _ & _ & cre & Hc
                    & _).
    apply Forall_app in Hwf' as [_ Hwf']. apply Forall_cons in Hwf' as [He _].
    destruct He as [He|He]; [rewrite He in Hc; done|].
    apply init_entry_fields in He as (_ & _ & _ & _ & _ & _ & He).
    destruct (cost_of_label _) as [[?|? ?]|]; [| |done];
      destruct He as [-> ->]; eauto.
Qed.

(** With a tab width of 0 the function raises on a matched line that
    holds a tab: the claim that it never raises fails there. *)
Lemma z80count_raises :
  SAMPLE !! $"NOP" ≠ None ∧
  z80count ([TAB] ++ $"NOP") SAMPLE 0 false false 50 false 0 false
  = Raise ZeroDivisionError.
Proof. split; [by vm_compute|]. vm_compute. reflexivity. Qed.

(** ** Loading the table *)

Lemma insert_by_w_perm x l : Parser.insert_by_w x l ≡ₚ x :: l.
Proof.
  induction l as [|y l IH]; simpl; [done|].
  destruct (w x <=? w y); [done|]. rewrite IH. apply Permutation_swap.
Qed.

Lemma sort_by_w_perm l : Parser.sort_by_w l ≡ₚ l.
Proof.
  induction l as [|x l IH]; simpl; [done|].
  by rewrite insert_by_w_perm, IH.
Qed.

Lemma insert_by_w_sorted x l :
  StronglySorted by_weight l → StronglySorted by_weight (Parser.insert_by_w x l).
Proof.
  induction 1 as [|y l Hs IH Hy]; simpl.
  - repeat constructor.
  - destruct (Z.leb_spec (w x) (w y)) as [Hle|Hgt].
    + constructor; [by constructor|]. constructor; [done|].
      eapply Forall_impl; [exact Hy|]. unfold by_weight. intros z Hz. lia.
    + constructor; [done|]. rewrite insert_by_w_perm.
      constructor; [unfold by_weight; lia|done].
Qed.

Lemma sort_by_w_sorted l : StronglySorted by_weight (Parser.sort_by_w l).
Proof.
  induction l as [|x l IH]; simpl; [constructor|].
  by apply insert_by_w_sorted.
Qed.

Lemma Forall_filter_sub {A} (Q P : A → Prop) `{∀ x, Decision (P x)} l :
  Forall Q l → Forall Q (filter P l).
Proof.
  induction 1 as [|x l Hx _ IH]; [constructor|].
  rewrite filter_cons. destruct (decide (P x)); [by constructor|done].
Qed.

Lemma filter_sorted {A} (R : A → A → Prop) (P : A → Prop)
  `{∀ x, Decision (P x)} l :
  StronglySorted R l → StronglySorted R (filter P l).
Proof.
  induction 1 as [|x l Hs IH Hx]; [constructor|].
  rewrite filter_cons. destruct (decide (P x)); [|done].
  constructor; [done|]. by apply Forall_filter_sub.
Qed.

Lemma bucket_sorted json mnemo : StronglySorted by_weight (bucket json mnemo).
Proof. apply filter_sorted, sort_by_w_sorted. Qed.

Lemma bucket_perm json mnemo :
  bucket json mnemo ≡ₚ filter (has_mnemonic mnemo) json.
Proof. unfold bucket. by rewrite sort_by_w_perm. Qed.

(** What [group_loop] adds to each bucket. *)
Lemma group_loop_lookup table res p mnemo :
  Parser.group_loop res table = Ok p →
  p !! mnemo
  = match res !! mnemo, filter (has_mnemonic mnemo) table with
    | None, [] => None
    | o, f => Some (default [] o ++ f)
    end.
Proof.
  revert res. induction table as [|i rest IH]; intros res; simpl.
  - intros [= <-]. destruct (res !! mnemo); [|done].
    by rewrite app_nil_r.
  - destruct (Parser.extract_mnemonic (case_ i)) as [mi|] eqn:Ei; [|done].
    intros H. rewrite (IH _ H). clear IH H.
    rewrite filter_cons. unfold has_mnemonic at 1.
    destruct (decide (mi = mnemo)) as [->|Hne].
    + rewrite decide_True by done. rewrite lookup_insert_eq.
      destruct (res !! mnemo) as [l|] eqn:Er.
      * rewrite Er. simpl. by rewrite <- app_assoc.
      * rewrite lookup_insert_eq. done.
    + rewrite decide_False by congruence.
      rewrite lookup_insert_ne by done.
      destruct (res !! mi); [done|]. by rewrite lookup_insert_ne.
Qed.

Lemma fresh_map_erase l : Forall fresh l → map erase l = l.
Proof.
  induction 1 as [|x l Hx _ IH]; simpl; [done|]. by rewrite IH, <- Hx.
Qed.

Lemma load_table_inv json p :
  Forall fresh json → Parser.load_table json = Ok p → table_inv json p.
Proof.
  intros Hf H mnemo. unfold Parser.load_table in H.
  rewrite (group_loop_lookup _ _ _ mnemo H), lookup_empty. fold (bucket json mnemo).
  assert (Hb : Forall fresh (bucket json mnemo)).
  { apply Forall_filter_sub. by rewrite sort_by_w_perm. }
  destruct (bucket json mnemo) as [|x l] eqn:E; [done|]. simpl.
  split; [|by apply (fresh_map_erase (x :: l))].
  eapply Forall_impl; [exact Hb|]. intros e He. by left.
Qed.

Lemma lookup_table_inv json p line p' found :
  table_inv json p → Parser.lookup p line = Ok (p', found) →
  table_inv json p'.
Proof.
  intros Hinv H mnemo. specialize (Hinv mnemo).
  pose proof (lookup_frame _ _ _ _ H mnemo) as Hf.
  destruct Hf as [l l' Hl|]; [|done].
  destruct Hinv as [Hwf He]. split; [by eapply init_steps_wf|].
  rewrite <- He. clear He Hwf.
  induction Hl as [|x y l l' Hxy _ IH]; simpl; [done|].
  by rewrite IH, (init_step_erase _ _ Hxy).
Qed.

Lemma reaches_table_inv json p p' :
  reaches p p' → table_inv json p → table_inv json p'.
Proof.
  induction 1 as [|p line p' found p'' H _ IH]; [done|].
  intros Hinv. by eapply IH, lookup_table_inv.
Qed.

Lemma table_inv_ok json p :
  Forall pattern_ok json → Forall label_ok json → table_inv json p →
  table_ok p.
Proof.
  intros Hc Hl Hinv mnemo entries Hp. specialize (Hinv mnemo).
  rewrite Hp in Hinv. destruct Hinv as [Hwf He]. split; [done|].
  assert (Hb : Forall (fun e => pattern_ok e ∧ label_ok e)
                 (bucket json mnemo)).
  { apply Forall_filter_sub. rewrite sort_by_w_perm.
    apply Forall_and. by split. }
  rewrite <- He in Hb. rewrite List.Forall_map in Hb.
  apply Forall_and in Hb as [Hb1 Hb2].
  split.
  - eapply Forall_impl; [exact Hb1|]. by intros e.
  - eapply Forall_impl; [exact Hb2|]. by intros e.
Qed.

Lemma table_inv_sorted json p mnemo entries :
  table_inv json p → p !! mnemo = Some entries →
  StronglySorted by_weight entries.
Proof.
  intros Hinv Hp. specialize (Hinv mnemo). rewrite Hp in Hinv.
  destruct Hinv as [_ He].
  pose proof (bucket_sorted json mnemo) as Hs. rewrite <- He in Hs.
  clear He Hp. induction entries as [|x l IH]; [constructor|].
  simpl in Hs. apply StronglySorted_inv in Hs as [Hs Hx].
  constructor; [by apply IH|]. rewrite List.Forall_map in Hx.
  eapply Forall_impl; [exact Hx|]. by intros e.
Qed.

(** ** Priority among the records of a mnemonic *)

Lemma accepts_erase x y s : erase x = erase y → accepts x s → accepts y s.
Proof. unfold accepts. by intros [= _ -> _ _]. Qed.

Lemma accepts_pattern_ok x s : accepts x s → pattern_ok x.
Proof. intros (cre & Hc & _). by exists cre. Qed.

Lemma rejects_not_accepts x s : entry_wf x → rejects s x → ¬ accepts x s.
Proof.
  intros Hwf (cre & Hc & Hs) (cre' & Hc' & [m Hm]).
  apply (entry_wf_cregex _ _ Hwf) in Hc as [Hc _]. congruence.
Qed.

Lemma init_steps_reject pre pre' s :
  Forall2 init_step pre pre' → Forall entry_wf pre →
  Forall (rejects s) pre' → Forall (fun x => ¬ accepts x s) pre.
Proof.
  induction 1 as [|x y l l' Hxy _ IH]; [done|].
  intros [Hx Hl]%Forall_cons [Hy Hl']%Forall_cons.
  constructor; [|by apply IH].
  intros Ha. apply (rejects_not_accepts y s); [by eapply init_step_wf|done|].
  eapply accepts_erase; [|exact Ha]. symmetry. by apply init_step_erase.
Qed.

(** The record that [lookup] returns is the first of its bucket that
    accepts the line. *)
Lemma lookup_first_match p line p' entry :
  table_wf p → Parser.lookup p line = Ok (p', Some entry) →
  ∃ mnemo stripped pre entry0 post,
    Parser.extract_mnemonic line = Some mnemo ∧
    Parser.remove_label line = Some stripped ∧
    p !! mnemo = Some (pre ++ entry0 :: post) ∧
    init_step entry0 entry ∧ entry_wf entry ∧
    (∃ cre, compile_cregex (regex entry) = Ok cre ∧
            cregex entry = Some cre) ∧
    accepts entry stripped ∧
    Forall (fun x => ¬ accepts x stripped) pre.
Proof.
  intros Hwf H.
  apply lookup_spec in H
    as [([=] & _)|(mnemo & stripped & entries & entries' & Em & Er & Hp & Hl
                   & ->)].
  apply lookup_loop_spec in Hl
    as [_ (pre & pre' & e0 & post & -> & -> & H2 & Hs & Hr & cre & Hc & Hm)].
  pose proof (Hwf _ _ Hp) as Hw. simpl in Hw.
  apply Forall_app in Hw as [Hpre [He0 _]%Forall_cons].
  pose proof (init_step_wf _ _ He0 Hs) as He.
  destruct (entry_wf_cregex _ _ He Hc) as [Hc' _].
  exists mnemo, stripped, pre, e0, post.
  split; [done|]. split; [done|]. split; [done|]. split; [done|].
  split; [done|]. split; [by exists cre|]. split; [by exists cre|].
  by eapply init_steps_reject.
Qed.

Lemma table_inv_wf json p : table_inv json p → table_wf p.
Proof.
  intros Hinv mnemo entries Hp. specialize (Hinv mnemo).
  rewrite Hp in Hinv. by destruct Hinv.
Qed.

Lemma lookup_loop_head entry rest s :
  entry_wf entry → label_ok entry → accepts entry s →
  ∃ entry', init_step entry entry' ∧
            Parser.lookup_loop (entry :: rest) s
            = Ok (entry' :: rest, Some entry').
Proof.
  intros Hwf Hl Ha. pose proof Ha as (cre0 & Hc0 & [m Hm]).
  destruct (init_if_needed entry Hwf (accepts_pattern_ok _ _ Ha) Hl)
    as (entry' & cre & Hi & Hs & Hcre & Hc).
  exists entry'. split; [done|]. simpl. rewrite Hi. simpl.
  rewrite Hc. simpl. assert (cre = cre0) as -> by congruence.
  by rewrite Hm.
Qed.

(** A record that compiles, has a numeric label and does not accept
    the line is stepped over. *)
Lemma lookup_loop_skip entry rest s :
  entry_wf entry → pattern_ok entry → label_ok entry → ¬ accepts entry s →
  ∃ entry', init_step entry entry' ∧
            Parser.lookup_loop (entry :: rest) s
            = '(rest', found) ← Parser.lookup_loop rest s;
              Ok (entry' :: rest', found).
Proof.
  intros Hwf Hp Hl Hn.
  destruct (init_if_needed entry Hwf Hp Hl)
    as (entry' & cre & Hi & Hs & Hcre & Hc).
  exists entry'. split; [done|]. simpl. rewrite Hi. simpl.
  rewrite Hc. simpl.
  destruct (re_search cre s) as [m|] eqn:Es; [|done].
  destruct Hn. exists cre. split; [done|]. by rewrite Es.
Qed.

(** The loop returns the first record that accepts the line, wherever
    it stands in the list. *)
Lemma lookup_loop_first pre entry0 post s :
  Forall entry_wf (pre ++ entry0 :: post) →
  Forall (fun x => pattern_ok x ∧ label_ok x ∧ ¬ accepts x s) pre →
  label_ok entry0 → accepts entry0 s →
  ∃ pre' entry,
    Forall2 init_step pre pre' ∧ init_step entry0 entry ∧
    Parser.lookup_loop (pre ++ entry0 :: post) s
    = Ok (pre' ++ entry :: post, Some entry).
Proof.
  intros Hwf Hpre Hl Ha. induction Hpre as [|x pre (Hp & Hx & Hn) _ IH].
  - apply Forall_cons in Hwf as [Hw _].
    destruct (lookup_loop_head entry0 post s Hw Hl Ha) as (entry & Hs & H).
    exists [], entry. split; [constructor|]. by split.
  - apply Forall_cons in Hwf as [Hw Hwf].
    destruct (IH Hwf) as (pre' & entry & H2 & Hs & H).
    destruct (lookup_loop_skip x (pre ++ entry0 :: post) s Hw Hp Hx Hn)
      as (x' & Hsx & Hloop).
    exists (x' :: pre'), entry. split; [by constructor|]. split; [done|].
    cbn [app]. rewrite Hloop, H. reflexivity.
Qed.

(** The loop returns no record when no record accepts the line. *)
Lemma lookup_loop_none entries s :
  Forall entry_wf entries →
  Forall (fun x => pattern_ok x ∧ label_ok x ∧ ¬ accepts x s) entries →
  ∃ entries', Forall2 init_step entries entries' ∧
              Parser.lookup_loop entries s = Ok (entries', None).
Proof.
  intros Hwf Hall. induction Hall as [|x l (Hp & Hx & Hn) _ IH].
  - exists []. by split; [constructor|].
  - apply Forall_cons in Hwf as [Hw Hwf].
    destruct (IH Hwf) as (l' & H2 & H).
    destruct (lookup_loop_skip x l s Hw Hp Hx Hn) as (x' & Hsx & Hloop).
    exists (x' :: l'). split; [by constructor|]. rewrite Hloop, H.
    reflexivity.
Qed.

Lemma sorted_app_r {A} (R : A → A → Prop) l1 l2 :
  StronglySorted R (l1 ++ l2) → StronglySorted R l2.
Proof.
  induction l1 as [|x l1 IH]; simpl; [done|].
  intros [Hs _]%StronglySorted_inv. by apply IH.
Qed.

Lemma sorted_pair e1 e2 l :
  l ≡ₚ [e1; e2] → StronglySorted by_weight l → w e1 < w e2 → l = [e1; e2].
Proof.
  intros Hp Hs Hw.
  pose proof (Permutation_length Hp) as Hlen.
  destruct l as [|a [|b [|? ?]]]; try done.
  apply Permutation_length_2 in Hp as [[-> ->]|[-> ->]]; [done|].
  apply StronglySorted_inv in Hs as [_ [Hs _]%Forall_cons].
  unfold by_weight in Hs. lia.
Qed.

(** C4: in every state of a table built by [_load_table], the records
    of a mnemonic are stored by ascending weight, and [lookup] tests
    them in that order and returns the first whose pattern matches:
    a record that is returned is preceded by records that do not match
    and followed by records that weigh at least as much; wherever the
    first matching record stands among the records of the mnemonic, it
    is the one returned, provided the records before it can be
    initialised; and no record is returned when none matches. In
    particular, when the records of the mnemonic are two, with weights
    1 and 2 in any order of the file, and the label-stripped line
    matches both patterns, the record of weight 1 is returned. *)
Theorem lookup_lowest_weight_first (json : list Entry) (p0 p : Parser.state)
  (line : str) :
  Forall fresh json →
  Parser.load_table json = Ok p0 →
  reaches p0 p →
  (∀ mnemo entries, p !! mnemo = Some entries →
     StronglySorted by_weight entries ∧
     map erase entries ≡ₚ filter (has_mnemonic mnemo) json) ∧
  (∀ p' entry, Parser.lookup p line = Ok (p', Some entry) →
     ∃ mnemo stripped pre entry0 post,
       Parser.extract_mnemonic line = Some mnemo ∧
       Parser.remove_label line = Some stripped ∧
       p !! mnemo = Some (pre ++ entry0 :: post) ∧
       erase entry = erase entry0 ∧
       accepts entry stripped ∧
       Forall (fun x => ¬ accepts x stripped) pre ∧
       Forall (fun x => w entry <= w x) post) ∧
  (∀ mnemo stripped pre entry0 post,
     Parser.extract_mnemonic line = Some mnemo →
     Parser.remove_label line = Some stripped →
     p !! mnemo = Some (pre ++ entry0 :: post) →
     Forall (fun x => pattern_ok x ∧ label_ok x ∧ ¬ accepts x stripped) pre →
     label_ok entry0 → accepts entry0 stripped →
     ∃ p' entry, Parser.lookup p line = Ok (p', Some entry) ∧
                 erase entry = erase entry0) ∧
  (∀ mnemo stripped entries,
     Parser.extract_mnemonic line = Some mnemo →
     Parser.remove_label line = Some stripped →
     p !! mnemo = Some entries →
     Forall (fun x => pattern_ok x ∧ label_ok x ∧ ¬ accepts x stripped)
       entries →
     ∃ p', Parser.lookup p line = Ok (p', None)) ∧
  (∀ mnemo stripped e1 e2,
     Parser.extract_mnemonic line = Some mnemo →
     Parser.remove_label line = Some stripped →
     filter (has_mnemonic mnemo) json ≡ₚ [e1; e2] →
     w e1 = 1 → w e2 = 2 →
     accepts e1 stripped → accepts e2 stripped → label_ok e1 →
     ∃ p' entry, Parser.lookup p line = Ok (p', Some entry) ∧
                 erase entry = e1).
Proof.
  intros Hfresh Hload Hreach.
  pose proof (reaches_table_inv json _ _ Hreach
                (load_table_inv _ _ Hfresh Hload)) as Hinv.
  pose proof (table_inv_wf _ _ Hinv) as Hwf.
  split; [|split; [|split; [|split]]].
  - intros mnemo entries Hp. split; [by eapply table_inv_sorted|].
    specialize (Hinv mnemo). rewrite Hp in Hinv. destruct Hinv as [_ ->].
    apply bucket_perm.
  - intros p' entry H.
    destruct (lookup_first_match _ _ _ _ Hwf H)
      as (mnemo & stripped & pre & e0 & post & Em & Er & Hp & Hs & _ & _
          & Ha & Hpre).
    exists mnemo, stripped, pre, e0, post.
    pose proof (init_step_erase _ _ Hs) as He.
    repeat split; try done.
    pose proof (table_inv_sorted _ _ _ _ Hinv Hp) as Hsort.
    apply sorted_app_r in Hsort.
    apply StronglySorted_inv in Hsort as [_ Hpost].
    eapply Forall_impl; [exact Hpost|]. unfold by_weight.
    intros x Hx. by injection He as _ _ _ ->.
  - intros mnemo stripped pre e0 post Em Er Hp Hpre Hl Ha.
    destruct (lookup_loop_first pre e0 post stripped (Hwf _ _ Hp) Hpre Hl Ha)
      as (pre' & entry & _ & Hs & Hloop).
    exists (<[mnemo := pre' ++ entry :: post]> p), entry.
    unfold Parser.lookup. rewrite Em, Er, Hp, Hloop. simpl.
    split; [done|]. by apply init_step_erase.
  - intros mnemo stripped entries Em Er Hp Hall.
    destruct (lookup_loop_none entries stripped (Hwf _ _ Hp) Hall)
      as (entries' & _ & Hloop).
    exists (<[mnemo := entries']> p).
    unfold Parser.lookup. by rewrite Em, Er, Hp, Hloop.
  - intros mnemo stripped e1 e2 Em Er Hperm Hw1 Hw2 Ha1 Ha2 Hl.
    assert (Hb : bucket json mnemo = [e1; e2]).
    { apply sorted_pair; [|apply bucket_sorted|lia].
      by rewrite bucket_perm. }
    pose proof (Hinv mnemo) as Hm. rewrite Hb in Hm.
    destruct (p !! mnemo) as [entries|] eqn:Hp; [|done].
    destruct Hm as [Hwfe He].
    destruct entries as [|x1 rest]; [done|].
    injection He as He1 Hrest.
    apply Forall_cons in Hwfe as [Hwf1 _].
    destruct (lookup_loop_head x1 rest stripped Hwf1) as (x1' & Hs & Hloop).
    { unfold label_ok in *. by rewrite <- He1 in Hl. }
    { eapply accepts_erase; [|exact Ha1]. by rewrite <- He1. }
    exists (<[mnemo := x1' :: rest]> p), x1'.
    unfold Parser.lookup. rewrite Em, Er, Hp, Hloop. simpl.
    split; [done|]. by rewrite (init_step_erase _ _ Hs).
Qed.

Lemma sample_loaded : Parser.load_table SAMPLE_JSON = Ok SAMPLE.
Proof.
  unfold SAMPLE.
  destruct (Parser.load_table SAMPLE_JSON) eqn:E; [reflexivity|].
  apply (f_equal is_ok) in E. vm_compute in E. discriminate E.
Qed.

Lemma sample_fresh : Forall fresh SAMPLE_JSON.
Proof.
  repeat (apply Forall_cons_2 || apply Forall_nil_2); reflexivity.
Qed.

(** The line is not matched by the lighter record of [LD], which comes
    first, and is matched by the heavier one behind it. *)
Lemma lookup_lowest_weight_first_witness :
  ∃ p' entry,
    Parser.lookup SAMPLE $" ld a, 12 ; load" = Ok (p', Some entry) ∧
    erase entry = erase LD_R_N.
Proof.
  pose proof (lookup_lowest_weight_first SAMPLE_JSON SAMPLE SAMPLE
                $" ld a, 12 ; load" sample_fresh sample_loaded
                (reaches_refl _)) as (_ & _ & H & _).
  apply (H $"LD" $"ld a, 12 ; load" [LD_R_R] LD_R_N []).
  - vm_compute; reflexivity.
  - vm_compute; reflexivity.
  - vm_compute; reflexivity.
  - apply Forall_cons_2; [|apply Forall_nil_2].
    split; [by eexists|]. split; [vm_compute; by eexists|].
    intros (cre & [= <-] & Hs). vm_compute in Hs. by destruct Hs.
  - vm_compute. by eexists.
  - eexists. split; [reflexivity|]. vm_compute. by eexists.
Defined.

(** ** Reading a match *)

Lemma Matches_Eps_inv ic i u rest c c' :
  Matches ic Eps i u rest c c' → u = [] ∧ c' = c.
Proof. by inversion 1. Qed.

Lemma Matches_Bol_inv ic i u rest c c' :
  Matches ic Bol i u rest c c' → i = 0%nat ∧ u = [] ∧ c' = c.
Proof. by inversion 1. Qed.

Lemma Matches_Eol_inv ic i u rest c c' :
  Matches ic Eol i u rest c c' →
  u = [] ∧ c' = c ∧ (rest = [] ∨ rest = [NEWLINE]).
Proof. by inversion 1. Qed.

Lemma Matches_Chr_inv ic negate items i u rest c c' :
  Matches ic (Chr negate items) i u rest c c' →
  ∃ a, u = [a] ∧ chr_match ic negate items a = true ∧ c' = c.
Proof. inversion 1; subst. by eexists. Qed.

Lemma Matches_Seq_inv ic r1 r2 i w rest c c2 :
  Matches ic (Seq r1 r2) i w rest c c2 →
  ∃ u v c1, w = u ++ v ∧ Matches ic r1 i u (v ++ rest) c c1 ∧
            Matches ic r2 (i + length u) v rest c1 c2.
Proof. inversion 1; subst. by eexists _, _, _. Qed.

Lemma Matches_Alt_inv ic r1 r2 i u rest c c' :
  Matches ic (Alt r1 r2) i u rest c c' →
  Matches ic r1 i u rest c c' ∨ Matches ic r2 i u rest c c'.
Proof. inversion 1; subst; eauto. Qed.

Lemma Matches_Grp_inv ic g r i u rest c c' :
  Matches ic (Grp g r) i u rest c c' →
  ∃ c1, Matches ic r i u rest c c1 ∧
        c' = (g, (i, (i + length u)%nat)) :: c1.
Proof. inversion 1; subst. by eexists. Qed.

Lemma Matches_Star_Chr ic negate items i u rest c c' :
  Matches ic (Star (Chr negate items)) i u rest c c' →
  Forall (fun a => chr_match ic negate items a = true) u ∧ c' = c.
Proof.
  remember (Star (Chr negate items)) as r eqn:Er.
  induction 1 as [| | | | | | | | |r0 i u v rest c c1 c2 Hu Hr _ _ IH|];
    try discriminate.
  - by split.
  - injection Er as ->.
    apply Matches_Chr_inv in Hr as (a & -> & Ha & ->).
    destruct (IH eq_refl) as [Hv ->]. split; [|done]. by constructor.
Qed.

Lemma Matches_Star_Any ic i u rest c c' :
  Matches ic (Star Any) i u rest c c' →
  Forall (fun a => a ≠ NEWLINE) u ∧ c' = c.
Proof.
  remember (Star Any) as r eqn:Er.
  induction 1 as [| | | | | | | | |r0 i u v rest c c1 c2 Hu Hr _ _ IH|];
    try discriminate.
  - by split.
  - injection Er as ->. inversion Hr; subst.
    destruct (IH eq_refl) as [Hv ->]. split; [|done]. by constructor.
Qed.

Lemma Matches_Plus_Chr ic negate items i u rest c c' :
  Matches ic (Plus (Chr negate items)) i u rest c c' →
  u ≠ [] ∧ Forall (fun a => chr_match ic negate items a = true) u ∧ c' = c.
Proof.
  intros (u1 & u2 & c1 & -> & H1 & H2)%Matches_Seq_inv.
  apply Matches_Chr_inv in H1 as (a & -> & Ha & ->).
  apply Matches_Star_Chr in H2 as [H2 ->].
  split; [done|]. split; [|done]. by constructor.
Qed.

(** The sets of the program, read as classes. *)
Lemma chr_match_space a : chr_match false false [CSpace] a = isspace a.
Proof. unfold chr_match. simpl. by rewrite orb_false_r. Qed.

Lemma chr_match_word a : chr_match false false [CWord] a = isword a.
Proof. unfold chr_match. simpl. by rewrite orb_false_r. Qed.

Lemma chr_match_label a :
  chr_match false false [CLit "$"; CLit "."; CWord]%char a = label_char a.
Proof.
  unfold chr_match, label_char. simpl.
  by rewrite orb_false_r, orb_assoc.
Qed.

Lemma chr_match_colon a : chr_match false false [CLit ":"%char] a = true → a = ":"%char.
Proof.
  unfold chr_match, eqc. simpl. rewrite orb_false_r.
  by intros ?%bool_decide_eq_true.
Qed.

Lemma chr_match_space_ic a : chr_match true false [CSpace] a = isspace a.
Proof. by destruct a as [[] [] [] [] [] [] [] []]. Qed.

Lemma chr_match_semicolon_ic a :
  chr_match true false [CLit ";"%char] a = true → a = ";"%char.
Proof. by destruct a as [[] [] [] [] [] [] [] []]. Qed.

Lemma substring_middle (a b c : str) i j :
  i = length a → j = (length a + length b)%nat →
  substring (a ++ b ++ c) i j = b.
Proof.
  intros -> ->. unfold substring.
  rewrite drop_app_length.
  replace (length a + length b - length a)%nat with (length b) by lia.
  by rewrite take_app_length.
Qed.

(** ** The shape that [_LINE_RE] recognises *)

Lemma line_re_shape line m :
  re_match Parser.LINE_RE line = Some m →
  ∃ operator rest,
    line_shape line operator rest ∧
    group m Parser.OPERATOR = Some operator ∧
    default [] (group m Parser.REST) = rest.
Proof.
  intros (u & tail & -> & H & Hs & _ & _)%re_match_sound.
  unfold group. rewrite Hs. clear Hs. simpl in H.
  apply Matches_Seq_inv in H as (u0 & u1 & c0 & -> & H0 & H).
  apply Matches_Bol_inv in H0 as (_ & -> & ->).
  apply Matches_Seq_inv in H as (label & u2 & c1 & -> & Hlabel & H).
  apply Matches_Seq_inv in H as (blanks & u3 & c2 & -> & Hblanks & H).
  apply Matches_Seq_inv in H as (operator & u4 & c3 & -> & Hop & H).
  apply Matches_Seq_inv in H as (rest & u5 & c4 & -> & Hrest & H).
  apply Matches_Eol_inv in H as (-> & -> & Htail).
  apply Matches_Star_Chr in Hblanks as [Hblanks ->].
  apply Matches_Grp_inv in Hop as (c5 & Hop & ->).
  apply Matches_Plus_Chr in Hop as (Hop0 & Hop & ->).
  simpl. rewrite ?app_nil_r, <- ?app_assoc.
  assert (Hlab : is_label label ∧ find_cap Parser.OPERATOR c1 = None
                 ∧ find_cap Parser.REST c1 = None).
  { apply Matches_Alt_inv in Hlabel as [Hl|Hl].
    - apply Matches_Grp_inv in Hl as (c6 & Hl & ->).
      apply Matches_Seq_inv in Hl as (name & colon & c7 & -> & Hn & Hc).
      apply Matches_Plus_Chr in Hn as (Hn0 & Hn & ->).
      apply Matches_Chr_inv in Hc as (a & -> & ->%chr_match_colon & ->).
      split; [|done]. right. exists name. split; [done|]. split; [|done].
      eapply Forall_impl; [exact Hn|]. intros a; cbv beta. by rewrite chr_match_label.
    - apply Matches_Eps_inv in Hl as [-> ->]. split; [by left|done]. }
  destruct Hlab as (Hlab & Hc1 & Hc1').
  assert (Hrst :
    (rest = [] ∨
     ∃ blanks' text,
       rest = blanks' ++ text ∧ blanks' ≠ [] ∧
       Forall (fun c => isspace c = true) blanks' ∧
       Forall (fun c => c ≠ NEWLINE) text) ∧
    default [] (match find_cap Parser.REST c4 with
                | Some (i, j) =>
                    Some (substring
                            (label ++ blanks ++ operator ++ rest ++ tail) i j)
                | None => None
                end) = rest ∧
    find_cap Parser.OPERATOR c4
    = Some (length label + length blanks,
            length label + length blanks + length operator)%nat).
  { apply Matches_Alt_inv in Hrest as [Hr|Hr].
    - apply Matches_Grp_inv in Hr as (c6 & Hr & ->).
      apply Matches_Seq_inv in Hr as (blanks' & text & c7 & -> & Hb & Ht).
      apply Matches_Plus_Chr in Hb as (Hb0 & Hb & ->).
      apply Matches_Star_Any in Ht as [Ht ->].
      split; [|split].
      + right. exists blanks', text. repeat split; try done.
        eapply Forall_impl; [exact Hb|]. intros a; cbv beta. by rewrite chr_match_space.
      + simpl.
        rewrite (app_assoc label blanks), (app_assoc _ operator).
        apply substring_middle; rewrite !length_app; simpl; lia.
      + simpl. do 2 f_equal; simpl; lia.
    - apply Matches_Eps_inv in Hr as [-> ->].
      split; [by left|]. simpl. rewrite Hc1'. split; [done|].
      do 2 f_equal; simpl; lia. }
  destruct Hrst as (Hrst & Hg3 & Hg2).
  exists operator, rest. split; [|split].
  - exists label, blanks, tail. repeat split; try done.
    + eapply Forall_impl; [exact Hblanks|]. intros a; cbv beta.
      by rewrite chr_match_space.
    + eapply Forall_impl; [exact Hop|]. intros a; cbv beta. by rewrite chr_match_word.
  - rewrite Hg2. f_equal. rewrite (app_assoc label blanks).
    apply substring_middle; rewrite ?length_app; lia.
  - exact Hg3.
Qed.

Lemma mnemonic_shape line mnemo stripped :
  Parser.extract_mnemonic line = Some mnemo →
  Parser.remove_label line = Some stripped →
  ∃ operator rest,
    line_shape line operator rest ∧ mnemo = upper operator ∧
    stripped = operator ++ rest.
Proof.
  unfold Parser.extract_mnemonic, Parser.remove_label.
  destruct (re_match Parser.LINE_RE line) as [m|] eqn:E; [|done].
  apply line_re_shape in E as (operator & rest & Hs & -> & ->).
  intros [= <-] [= <-]. by exists operator, rest.
Qed.


(** ** The pattern of a record is anchored *)

Lemma cregex_head_shape i u rest c c' :
  Matches true CREGEX_HEAD i u rest c c' →
  i = 0%nat ∧ Forall (fun a => isspace a = true) u ∧ c' = c.
Proof.
  intros (u0 & blanks & c0 & -> & Hbol & Hblanks)%Matches_Seq_inv.
  apply Matches_Bol_inv in Hbol as (-> & -> & ->).
  apply Matches_Star_Chr in Hblanks as [Hblanks ->].
  split; [done|]. split; [|done].
  eapply Forall_impl; [exact Hblanks|]. intros a; cbv beta.
  by rewrite chr_match_space_ic.
Qed.

Lemma cregex_tail_shape g i u rest c c' :
  Matches true (CREGEX_TAIL g) i u rest c c' → line_end (u ++ rest).
Proof.
  intros (blanks & u3 & c3 & -> & Hblanks & H)%Matches_Seq_inv.
  apply Matches_Star_Chr in Hblanks as [Hblanks ->].
  apply Matches_Seq_inv in H as (comment & u4 & c4 & -> & Hcomment & H).
  apply Matches_Eol_inv in H as (-> & _ & Htail).
  exists blanks, comment, rest.
  split; [by rewrite app_nil_r, <- !app_assoc|].
  split. { eapply Forall_impl; [exact Hblanks|]. intros a; cbv beta.
           by rewrite chr_match_space_ic. }
  split; [|done].
  apply Matches_Alt_inv in Hcomment as [Hc|Hc].
  - apply Matches_Grp_inv in Hc as (c5 & Hc & _).
    apply Matches_Seq_inv in Hc as (semi & text & c6 & -> & Hsemi & Htext).
    apply Matches_Chr_inv in Hsemi as (a & -> & ->%chr_match_semicolon_ic & _).
    apply Matches_Star_Any in Htext as [Htext _].
    right. by exists text.
  - apply Matches_Eps_inv in Hc as [-> _]. by left.
Qed.

Lemma splice_tail_shape g alts pre u rest c c' :
  alts ≠ [] →
  Matches true (splice_tail alts (CREGEX_TAIL g)) (length pre) u rest c c' →
  alternatives_match false alts (pre ++ u ++ rest).
Proof.
  induction alts as [|a [|b l] IH]; [done| |]; intros _ H.
  - cbn [splice_tail] in H.
    apply Matches_Seq_inv in H as (body & v & c1 & -> & Hbody & Htail).
    apply cregex_tail_shape in Htail.
    exists pre, body, (v ++ rest), c, c1.
    split; [by rewrite <- app_assoc|]. split; [done|]. by split.
  - change (splice_tail (a :: b :: l) (CREGEX_TAIL g))
      with (Alt a (splice_tail (b :: l) (CREGEX_TAIL g))) in H.
    change (alternatives_match false (a :: b :: l) (pre ++ u ++ rest))
      with (matches_in a (pre ++ u ++ rest) false false
            ∨ alternatives_match false (b :: l) (pre ++ u ++ rest)).
    apply Matches_Alt_inv in H as [H|H].
    + left. exists pre, u, rest, c, c'. by repeat split.
    + right. eapply IH; [done|exact H].
Qed.

(** The line that a compiled pattern matches, alternative by
    alternative. *)
Lemma cregex_alternatives alts s :
  is_Some (re_search (cregex_of alts) s) → alternatives_match true alts s.
Proof.
  intros [m (pre & u & rest & -> & H & _)%re_search_sound].
  cbn [pat_re pat_ignorecase cregex_of] in H.
  set (g := S (list_sum (map count_groups alts))) in H. clearbody g.
  destruct alts as [|a [|b l]].
  - cbn [splice] in H.
    apply Matches_Seq_inv in H as (blanks & v & c1 & -> & Hhead & Htail).
    apply cregex_head_shape in Hhead as (Hpre & Hblanks & ->).
    apply length_zero_iff_nil in Hpre as ->.
    apply cregex_tail_shape in Htail.
    exists blanks, [], (v ++ rest), [], [].
    split; [by rewrite <- app_assoc|]. split; [done|].
    split; [constructor|done].
  - cbn [splice] in H.
    apply Matches_Seq_inv in H as (blanks & v & c1 & -> & Hhead & H).
    apply cregex_head_shape in Hhead as (Hpre & Hblanks & ->).
    apply length_zero_iff_nil in Hpre as ->.
    apply Matches_Seq_inv in H as (body & t & c2 & -> & Hbody & Htail).
    apply cregex_tail_shape in Htail.
    exists blanks, body, (t ++ rest), [], c2.
    split; [by rewrite <- !app_assoc|]. split; [done|].
    split; [exact Hbody|done].
  - change (splice CREGEX_HEAD (a :: b :: l) (CREGEX_TAIL g))
      with (Alt (Seq CREGEX_HEAD a) (splice_tail (b :: l) (CREGEX_TAIL g)))
      in H.
    change (alternatives_match true (a :: b :: l) (pre ++ u ++ rest))
      with (matches_in a (pre ++ u ++ rest) true false
            ∨ alternatives_match false (b :: l) (pre ++ u ++ rest)).
    apply Matches_Alt_inv in H as [H|H].
    + left.
      apply Matches_Seq_inv in H as (blanks & body & c1 & -> & Hhead & H).
      apply cregex_head_shape in Hhead as (Hpre & Hblanks & ->).
      apply length_zero_iff_nil in Hpre as ->.
      exists blanks, body, rest, [], (m_caps m).
      split; [by rewrite <- app_assoc|]. by repeat split.
    + right. eapply (splice_tail_shape g); [done|exact H].
Qed.

Lemma matches_in_anchored r s : matches_in r s true true → anchored r s.
Proof.
  intros (blanks & body & after & c & c' & -> & Hb & H & Hend).
  destruct (Hend eq_refl) as (blanks' & comment & tail & -> & Hb' & Hc & Ht).
  exists blanks, body, blanks', comment, tail, c, c'.
  split; [done|]. split; [by apply Hb|]. by repeat split.
Qed.

Lemma cregex_anchored r s :
  is_Some (re_search (cregex_of [r]) s) → anchored r s.
Proof. intros H. by apply matches_in_anchored, (cregex_alternatives [r]). Qed.


Lemma sample_inv : table_inv SAMPLE_JSON SAMPLE.
Proof. apply load_table_inv; [apply sample_fresh|apply sample_loaded]. Qed.

Lemma sample_ok : table_ok SAMPLE.
Proof.
  apply (table_inv_ok SAMPLE_JSON); [| |apply sample_inv].
  - repeat (apply Forall_cons_2 || apply Forall_nil_2);
      eexists; reflexivity.
  - repeat (apply Forall_cons_2 || apply Forall_nil_2);
      vm_compute; eexists; reflexivity.
Qed.

Lemma alternation_loaded : Parser.load_table [NOP_HALT] = Ok ALTERNATION.
Proof.
  unfold ALTERNATION.
  destruct (Parser.load_table [NOP_HALT]) eqn:E; [reflexivity|].
  apply (f_equal is_ok) in E. vm_compute in E. discriminate E.
Qed.





(** ** Finding an annotation *)

(** A greedy run over a set: when what follows the repetition cannot
    start with a member of the set, only the longest run goes on. *)
Lemma star_loop_run {A} ic negate items (k : nat → str → caps → option A)
  run rest fuel i c :
  Forall (fun a => chr_match ic negate items a = true) run →
  match rest with
  | a :: _ => chr_match ic negate items a = false
  | [] => True
  end →
  (∀ j a s' c', chr_match ic negate items a = true → k j (a :: s') c' = None) →
  (length run ≤ fuel)%nat →
  star_loop (fun i' s' c' k' => exec ic (Chr negate items) i' s' c' k') k
    fuel i (run ++ rest) c
  = k (i + length run)%nat rest c.
Proof.
  intros Hrun Hrest Hk. revert fuel i.
  induction Hrun as [|a run Ha _ IH]; intros fuel i Hfuel; simpl.
  - rewrite Nat.add_0_r. destruct fuel as [|fuel]; simpl; [done|].
    destruct rest as [|b rest]; [done|]. by rewrite Hrest.
  - destruct fuel as [|fuel]; simpl in *; [lia|].
    rewrite Ha. destruct (Nat.ltb_spec i (S i)) as [_|]; [|lia].
    rewrite IH by lia.
    replace (S i + length run)%nat with (i + S (length run))%nat by lia.
    destruct (k _ rest c) as [x|]; [done|]. by apply Hk.
Qed.

Lemma exec_star_run {A} ic negate items (k : nat → str → caps → option A)
  run rest i c :
  Forall (fun a => chr_match ic negate items a = true) run →
  match rest with
  | a :: _ => chr_match ic negate items a = false
  | [] => True
  end →
  (∀ j a s' c', chr_match ic negate items a = true → k j (a :: s') c' = None) →
  exec ic (Star (Chr negate items)) i (run ++ rest) c k
  = k (i + length run)%nat rest c.
Proof.
  intros Hrun Hrest Hk. cbn [exec].
  apply (star_loop_run ic negate items k run rest); try done.
  rewrite length_app. lia.
Qed.

Lemma ann_char_bracket a : ann_char a = true → a ≠ "]"%char ∧ a ≠ "["%char
                                              ∧ a ≠ ";"%char.
Proof. by destruct a as [[] [] [] [] [] [] [] []]. Qed.

Lemma try_at_annotation whole i body after :
  body ≠ [] → Forall (fun a => ann_char a = true) body →
  try_at OUR_COMMENT whole i ($"[" ++ body ++ $"]" ++ after)
  = Some {| m_string := whole; m_start := i;
            m_end := (i + length ($"[" ++ body ++ $"]"))%nat;
            m_caps := [(1%nat, (i, (i + length ($"[" ++ body ++ $"]"))%nat))]
         |}.
Proof.
  intros Hne Hbody. destruct body as [|b body]; [done|].
  apply Forall_cons in Hbody as [Hb Hbody].
  unfold try_at, OUR_COMMENT, Lit, Plus.
  remember (Star (Chr false ANNOTATION_SET)) as star eqn:Estar.
  cbn [pat_re pat_ignorecase exec app list_ascii_of_string].
  change (chr_match false false [CLit "["%char] "["%char) with true.
  cbn iota. unfold ann_char in Hb. rewrite Hb. subst star.
  rewrite (exec_star_run false false ANNOTATION_SET _ body
             ("]"%char :: after)); try done.
  - change (chr_match false false [CLit "]"%char] "]"%char) with true.
    cbn iota.
    assert (E : (i + length ("["%char :: b :: body ++ ["]"%char]))%nat
                = S (S (S i) + length body))
      by (simpl; rewrite length_app; simpl; lia).
    by rewrite E.
  - intros j a s' c' Ha.
    destruct (ann_char_bracket a Ha) as [Hn _].
    assert (chr_match false false [CLit "]"%char] a = false) as ->; [|done].
    unfold chr_match. cbn [existsb in_item xorb]. unfold eqc.
    by rewrite orb_false_r, bool_decide_false.
Qed.

Lemma try_at_our_comment_sound whole i s m :
  try_at OUR_COMMENT whole i s = Some m →
  ∃ text after, s = text ++ after ∧ is_annotation text ∧
    m_string m = whole ∧ m_start m = i ∧ m_end m = (i + length text)%nat.
Proof.
  intros (u & rest & -> & H & Hw & Hs & He)%try_at_sound. simpl in H.
  exists u, rest. repeat split; try done.
  apply Matches_Grp_inv in H as (c1 & H & _).
  apply Matches_Seq_inv in H as (open & u1 & c2 & -> & Hopen & H).
  apply Matches_Seq_inv in H as (body & close & c3 & -> & Hbody & Hclose).
  apply Matches_Plus_Chr in Hbody as (Hne & Hbody & _).
  apply Matches_Chr_inv in Hopen as (a & -> & Ha & _).
  apply Matches_Chr_inv in Hclose as (b & -> & Hb & _).
  unfold chr_match, eqc in Ha, Hb. simpl in Ha, Hb.
  rewrite orb_false_r in Ha, Hb.
  apply bool_decide_eq_true in Ha as ->, Hb as ->.
  by exists body.
Qed.

Lemma annotation_body_unique b1 a1 b2 a2 :
  Forall (fun a => ann_char a = true) b1 →
  Forall (fun a => ann_char a = true) b2 →
  b1 ++ "]"%char :: a1 = b2 ++ "]"%char :: a2 → b1 = b2.
Proof.
  intros H1. revert b2. induction H1 as [|x b1 Hx _ IH]; intros b2 H2 E.
  - destruct H2 as [|y b2 Hy _]; simpl in E; [done|].
    injection E as <- _. by destruct (ann_char_bracket _ Hy) as [? _].
  - destruct H2 as [|y b2 Hy H2]; simpl in E.
    + injection E as -> _. by destruct (ann_char_bracket _ Hx) as [? _].
    + injection E as <- E. f_equal. by apply IH.
Qed.

(** The annotation that starts a text is unique. *)
Lemma annotation_prefix_unique t1 a1 t2 a2 :
  is_annotation t1 → is_annotation t2 → t1 ++ a1 = t2 ++ a2 → t1 = t2.
Proof.
  intros (b1 & -> & _ & H1) (b2 & -> & _ & H2) E.
  simpl in E. injection E as E. rewrite <- !app_assoc in E. simpl in E.
  by rewrite (annotation_body_unique _ _ _ _ H1 H2 E).
Qed.

Lemma annotation_at_0 s :
  annotation_at s 0 ↔ ∃ text after, s = text ++ after ∧ is_annotation text.
Proof. done. Qed.

Lemma try_at_our_comment_none whole i s :
  try_at OUR_COMMENT whole i s = None ↔ ¬ annotation_at s 0.
Proof.
  split.
  - intros H (text & after & Hs & (body & -> & Hne & Hb)).
    rewrite drop_0 in Hs. subst s.
    rewrite <- !app_assoc in H. by rewrite try_at_annotation in H.
  - intros H. destruct (try_at OUR_COMMENT whole i s) as [m|] eqn:E; [|done].
    apply try_at_our_comment_sound in E as (text & after & -> & Ha & _).
    destruct H. by exists text, after.
Qed.

Lemma search_from_unfold p whole i s :
  search_from p whole i s
  = match try_at p whole i s with
    | Some m => Some m
    | None =>
        match s with
        | [] => None
        | _ :: s' => search_from p whole (S i) s'
        end
    end.
Proof. by destruct s. Qed.

(** [search] stops at the first index where an annotation starts. *)
Lemma search_from_our_comment whole i before text after :
  is_annotation text →
  (∀ n, (n < length before)%nat →
        ¬ annotation_at (before ++ text ++ after) n) →
  ∃ m, search_from OUR_COMMENT whole i (before ++ text ++ after) = Some m ∧
       m_string m = whole ∧ m_start m = (i + length before)%nat ∧
       m_end m = (i + length before + length text)%nat.
Proof.
  intros Ha. revert i.
  induction before as [|b before IH]; intros i Hfirst.
  - destruct Ha as (body & -> & Hne & Hb).
    rewrite search_from_unfold. cbn [app]. rewrite <- !app_assoc.
    rewrite (try_at_annotation whole i body after Hne Hb).
    eexists. split; [done|]. cbn [m_string m_start m_end length].
    rewrite !length_app. repeat split; simpl; lia.
  - assert (E : try_at OUR_COMMENT whole i ((b :: before) ++ text ++ after)
                = None).
    { apply try_at_our_comment_none. apply (Hfirst 0%nat). simpl. lia. }
    rewrite search_from_unfold, E. cbn [app].
    destruct (IH (S i)) as (m & Hm & Hw & Hs & He).
    { intros n Hn. specialize (Hfirst (S n)). simpl in Hfirst.
      apply Hfirst. lia. }
    exists m. split; [done|]. simpl. repeat split; [done|lia|lia].
Qed.

Lemma search_from_our_comment_none whole i s :
  search_from OUR_COMMENT whole i s = None ↔ ∀ n, ¬ annotation_at s n.
Proof.
  revert i. induction s as [|a s IH]; intros i; simpl.
  - destruct (try_at OUR_COMMENT whole i []) as [m|] eqn:E.
    + apply try_at_our_comment_sound in E
        as (text & after & E' & (body & -> & _) & _). done.
    + split; [|done]. intros _ n (text & after & E' & (body & -> & _)).
      by rewrite drop_nil in E'.
  - destruct (try_at OUR_COMMENT whole i (a :: s)) as [m|] eqn:E.
    + split; [done|]. intros H. exfalso. apply (H 0%nat).
      apply try_at_our_comment_sound in E as (text & after & E' & Ha & _).
      by exists text, after.
    + rewrite IH. apply try_at_our_comment_none in E. split.
      * intros H [|n]; [done|]. apply (H n).
      * intros H n. apply (H (S n)).
Qed.

Lemma annotation_at_occurs s n :
  annotation_at s n → ∃ text, is_annotation text ∧ occurs text s.
Proof.
  intros (text & after & E & Ha). exists text. split; [done|].
  exists (take n s), after. by rewrite <- E, take_drop.
Qed.

Lemma occurs_annotation_at text s :
  is_annotation text → occurs text s → ∃ n, annotation_at s n.
Proof.
  intros Ha (before & after & ->). exists (length before).
  exists text, after. by rewrite drop_app_length.
Qed.

(** What [OUR_COMMENT.search] answers, in terms of the text. *)
Lemma re_search_our_comment_first before text after :
  is_annotation text →
  (∀ n, (n < length before)%nat →
        ¬ annotation_at (before ++ text ++ after) n) →
  ∃ m, re_search OUR_COMMENT (before ++ text ++ after) = Some m ∧
       group0 m = text.
Proof.
  intros Ha Hfirst.
  destruct (search_from_our_comment (before ++ text ++ after) 0 before text
              after Ha Hfirst) as (m & Hm & Hw & Hs & He).
  exists m. split; [done|]. unfold group0. rewrite Hw, Hs, He.
  by apply substring_middle.
Qed.

Lemma search_from_our_comment_sound whole i s m :
  search_from OUR_COMMENT whole i s = Some m →
  ∃ before text after,
    s = before ++ text ++ after ∧ is_annotation text ∧
    (∀ n, (n < length before)%nat → ¬ annotation_at s n) ∧
    m_string m = whole ∧ m_start m = (i + length before)%nat ∧
    m_end m = (i + length before + length text)%nat.
Proof.
  revert i. induction s as [|a s IH]; intros i; simpl.
  - destruct (try_at OUR_COMMENT whole i []) as [m'|] eqn:E; [|done].
    apply try_at_our_comment_sound in E
      as (text & after & E' & (body & -> & _) & _). done.
  - destruct (try_at OUR_COMMENT whole i (a :: s)) as [m'|] eqn:E.
    + intros [= ->].
      apply try_at_our_comment_sound in E
        as (text & after & E' & Ha & Hw & Hs & He).
      exists [], text, after. simpl. rewrite Nat.add_0_r.
      repeat split; try done. intros n Hn. lia.
    + apply try_at_our_comment_none in E. intros H.
      apply IH in H as (before & text & after & -> & Ha & Hf & Hw & Hs & He).
      exists (a :: before), text, after. simpl.
      repeat split; try done; try lia.
      intros [|n] Hn; [done|]. apply Hf. lia.
Qed.

Lemma re_search_our_comment_sound s m :
  re_search OUR_COMMENT s = Some m →
  ∃ before after,
    s = before ++ group0 m ++ after ∧ is_annotation (group0 m) ∧
    ∀ n, (n < length before)%nat → ¬ annotation_at s n.
Proof.
  intros (before & text & after & E & Ha & Hf & Hw & Hs & He)
           %search_from_our_comment_sound.
  assert (Hg : group0 m = text).
  { unfold group0. rewrite Hw, Hs, He, E. by apply substring_middle. }
  rewrite Hg. by exists before, after.
Qed.

Lemma re_search_our_comment_none s :
  re_search OUR_COMMENT s = None ↔
  ∀ text, is_annotation text → ¬ occurs text s.
Proof.
  unfold re_search. rewrite search_from_our_comment_none. split.
  - intros H text Ha Ho.
    destruct (occurs_annotation_at _ _ Ha Ho) as [n Hn]. by apply (H n).
  - intros H n Hn.
    destruct (annotation_at_occurs _ _ Hn) as (text & Ha & Ho).
    by apply (H text).
Qed.

(** ** Stripping and splitting *)

Lemma rstrip_blank s : rstrip s = [] ↔ Forall (fun c => isspace c = true) s.
Proof.
  induction s as [|c s IH]; simpl; [done|].
  destruct (rstrip s) as [|x t] eqn:E.
  - destruct (isspace c) eqn:Ec.
    + split; [|done]. intros _. constructor; [done|]. by apply IH.
    + split; [done|]. intros [H _]%Forall_cons. congruence.
  - split; [done|]. intros [_ H]%Forall_cons. by apply IH in H.
Qed.

Lemma rstrip_app_blank a b : rstrip b = [] → rstrip (a ++ b) = rstrip a.
Proof.
  intros Hb. induction a as [|x a IH]; simpl; [done|]. by rewrite IH.
Qed.

Lemma rstrip_app_nonblank a b :
  rstrip b ≠ [] → rstrip (a ++ b) = a ++ rstrip b.
Proof.
  intros Hb. induction a as [|x a IH]; simpl; [done|]. rewrite IH.
  destruct (a ++ rstrip b) as [|y t] eqn:E; [|done].
  by apply app_eq_nil in E as [_ ?].
Qed.

Lemma rstrip_end a c : isspace c = false → rstrip (a ++ [c]) = a ++ [c].
Proof.
  intros Hc. rewrite rstrip_app_nonblank; simpl; by rewrite Hc.
Qed.

(** Behind a text that ends with a visible character, [rstrip] only
    trims what follows. *)
Lemma rstrip_after_end a c b :
  isspace c = false → rstrip (a ++ [c] ++ b) = a ++ [c] ++ rstrip b.
Proof.
  intros Hc. destruct (rstrip b) as [|x t] eqn:E.
  - rewrite app_assoc, rstrip_app_blank by done.
    by rewrite rstrip_end, app_nil_r.
  - rewrite app_assoc, rstrip_app_nonblank by (by rewrite E).
    by rewrite E, <- app_assoc.
Qed.

Lemma rstrip_split s :
  ∃ blanks, s = rstrip s ++ blanks ∧ Forall (fun c => isspace c = true) blanks.
Proof.
  induction s as [|c s (blanks & E & Hb)]; simpl; [by exists []|].
  destruct (rstrip s) as [|x t] eqn:Er.
  - destruct (isspace c) eqn:Ec.
    + exists (c :: blanks). simpl in E. subst s.
      split; [done|]. by constructor.
    + exists blanks. simpl in *. by subst s.
  - exists blanks. simpl in *. split; [by f_equal|done].
Qed.

Lemma rstrip_idem s : rstrip (rstrip s) = rstrip s.
Proof.
  induction s as [|c s IH]; simpl; [done|].
  destruct (rstrip s) as [|x t] eqn:E.
  - destruct (isspace c) eqn:Ec; simpl; [done|]. by rewrite Ec.
  - simpl in *. by rewrite IH.
Qed.

Lemma lstrip_blanks blanks s :
  Forall (fun c => isspace c = true) blanks →
  lstrip (blanks ++ s) = lstrip s.
Proof. induction 1 as [|c l Hc _ IH]; simpl; [done|]. by rewrite Hc. Qed.

Lemma lstrip_idem s : lstrip (lstrip s) = lstrip s.
Proof.
  induction s as [|c s IH]; simpl; [done|].
  destruct (isspace c) eqn:Ec; [done|]. simpl. by rewrite Ec.
Qed.

Lemma lstrip_split s :
  ∃ blanks, s = blanks ++ lstrip s ∧ Forall (fun c => isspace c = true) blanks.
Proof.
  induction s as [|c s (blanks & E & Hb)]; simpl; [by exists []|].
  destruct (isspace c) eqn:Ec; [|by exists []].
  exists (c :: blanks). simpl. rewrite <- E. split; [done|]. by constructor.
Qed.

Lemma eqc_true a b : eqc a b = true ↔ a = b.
Proof. unfold eqc. apply bool_decide_eq_true. Qed.

Lemma eqc_false a b : eqc a b = false ↔ a ≠ b.
Proof. unfold eqc. apply bool_decide_eq_false. Qed.

Lemma rpartition_none sep s :
  rpartition sep s = None ↔ Forall (fun c => c ≠ sep) s.
Proof.
  induction s as [|c s IH]; simpl; [done|].
  destruct (rpartition sep s) as [[a b]|].
  - split; [done|]. intros [_ H]%Forall_cons. by apply IH in H.
  - destruct (eqc c sep) eqn:E.
    + apply eqc_true in E. split; [done|]. by intros [H _]%Forall_cons.
    + apply eqc_false in E. split; [|done]. intros _.
      constructor; [done|]. by apply IH.
Qed.

Lemma rpartition_last sep a b :
  Forall (fun c => c ≠ sep) b → rpartition sep (a ++ sep :: b) = Some (a, b).
Proof.
  intros Hb. induction a as [|x a IH]; simpl.
  - apply rpartition_none in Hb as ->. unfold eqc.
    by rewrite bool_decide_true.
  - by rewrite IH.
Qed.

Lemma rsplit1_last sep a b :
  Forall (fun c => c ≠ sep) b → rsplit1 sep (a ++ sep :: b) = [a; b].
Proof. intros H. unfold rsplit1. by rewrite rpartition_last. Qed.

Lemma rsplit1_none sep s :
  Forall (fun c => c ≠ sep) s → rsplit1 sep s = [s].
Proof. intros H. unfold rsplit1. by apply rpartition_none in H as ->. Qed.

(** ** Replacing *)

Lemma startswith_spec p s : startswith p s = true ↔ ∃ z, s = p ++ z.
Proof.
  revert s. induction p as [|a p IH]; intros s; simpl.
  - split; [|done]. intros _. by exists s.
  - destruct s as [|b s]; [split; [done|by intros [? ?]]|].
    rewrite andb_true_iff, eqc_true, IH. split.
    + intros [-> [z ->]]. by exists z.
    + intros [z [= -> ->]]. split; [done|by exists z].
Qed.

Lemma replace_from_skip old new u s :
  replace_from old new (length u) (u ++ s) = replace_from old new 0 s.
Proof.
  induction u as [|c u IH]; simpl; [|done].
  by destruct s.
Qed.

Lemma replace_from_here old new s :
  old ≠ [] →
  replace_from old new 0 (old ++ s) = new ++ replace_from old new 0 s.
Proof.
  intros Hne. destruct old as [|c old]; [done|].
  change (replace_from (c :: old) new 0 ((c :: old) ++ s))
    with (if startswith (c :: old) ((c :: old) ++ s)
          then new ++ replace_from (c :: old) new (length old) (old ++ s)
          else c :: replace_from (c :: old) new 0 (old ++ s)).
  assert (startswith (c :: old) ((c :: old) ++ s) = true) as ->
    by (apply startswith_spec; by exists s).
  by rewrite replace_from_skip.
Qed.

Lemma replace_from_before old new before s :
  (∀ n, (n < length before)%nat →
        startswith old (drop n (before ++ s)) = false) →
  replace_from old new 0 (before ++ s)
  = before ++ replace_from old new 0 s.
Proof.
  induction before as [|c before IH]; intros H; [done|].
  pose proof (H 0%nat ltac:(simpl; lia)) as H0. rewrite drop_0 in H0.
  simpl in *. destruct old as [|o old]; [done|].
  simpl in H0. simpl. rewrite H0. f_equal. apply IH.
  intros n Hn. apply (H (S n)). lia.
Qed.

Lemma replace_from_absent old new s :
  old ≠ [] → ¬ occurs old s → replace_from old new 0 s = s.
Proof.
  intros Hne Ho. rewrite <- (app_nil_r s) at 1.
  rewrite replace_from_before; [by rewrite app_nil_r|].
  intros n Hn. rewrite app_nil_r.
  destruct (startswith old (drop n s)) eqn:E; [|done].
  apply startswith_spec in E as [z E]. destruct Ho.
  exists (take n s), z. by rewrite <- E, take_drop.
Qed.

(** With the first annotation of a text at hand, [replace] removes it
    and goes on behind it. *)
Lemma replace_annotation before text after :
  is_annotation text →
  (∀ n, (n < length before)%nat →
        ¬ annotation_at (before ++ text ++ after) n) →
  replace text [] (before ++ text ++ after)
  = before ++ replace text [] after.
Proof.
  intros Ha Hfirst.
  assert (Hne : text ≠ []) by (by destruct Ha as (body & -> & _)).
  unfold replace. destruct text as [|c text]; [done|].
  rewrite replace_from_before.
  - by rewrite replace_from_here.
  - intros n Hn.
    destruct (startswith (c :: text) (drop n _)) eqn:E; [|done].
    apply startswith_spec in E as [z E]. destruct (Hfirst n Hn).
    by exists (c :: text), z.
Qed.

Lemma replace_absent text s :
  text ≠ [] → ¬ occurs text s → replace text [] s = s.
Proof.
  intros Hne Ho. unfold replace. destruct text as [|c text]; [done|].
  by apply replace_from_absent.
Qed.

Lemma strip_annotation_first before text after :
  is_annotation text →
  (∀ n, (n < length before)%nat →
        ¬ annotation_at (before ++ text ++ after) n) →
  strip_annotation (before ++ text ++ after)
  = before ++ replace text [] after.
Proof.
  intros Ha Hfirst. unfold strip_annotation.
  destruct (re_search_our_comment_first before text after Ha Hfirst)
    as (m & -> & ->).
  by apply replace_annotation.
Qed.

Lemma strip_annotation_none s :
  (∀ text, is_annotation text → ¬ occurs text s) → strip_annotation s = s.
Proof.
  intros H. unfold strip_annotation.
  by apply re_search_our_comment_none in H as ->.
Qed.

(** ** The two forms of the output of [format_line] *)

Lemma format_line_comment_text (entry : Entry) (total total_cond : Z)
  (subt debug : bool) :
  (let comment := $"; [" ++ cycles entry in
   let comment :=
     if subt then
       if total_cond =? 0
       then comment ++ $" .. " ++ str_of_int total ++ $"]"
       else comment ++ $" .. " ++ str_of_int total_cond ++ $"/"
                    ++ str_of_int total ++ $"]"
     else comment ++ $"]" in
   if debug then comment ++ $" case{" ++ case_ entry ++ $"}" else comment)
  = annotation_text entry total total_cond subt debug.
Proof.
  unfold annotation_text, annotation_body.
  destruct subt, (total_cond =? 0), debug; simpl;
    repeat (progress (rewrite <- ?app_assoc; simpl));
    rewrite ?app_nil_r; done.
Qed.

Lemma format_line_plain line entry total total_cond subt update column debug
  use_tabs tab_width :
  Forall (fun c => c ≠ ";"%char) (rstrip line) →
  format_line line entry total total_cond subt update column debug use_tabs
    tab_width
  = spacing ← comment_alignment (rstrip line) column use_tabs tab_width;
    Ok (rstrip line ++ spacing
        ++ annotation_text entry total total_cond subt debug ++ [NEWLINE]).
Proof.
  intros H. unfold format_line. rewrite (rsplit1_none _ _ H).
  cbn [length Nat.eqb Nat.ltb Nat.leb item lookup list_lookup].
  rewrite format_line_comment_text. cbn [mbind result_bind].
  destruct (comment_alignment _ _ _ _) as [spacing|]; [|reflexivity].
  cbn [mbind result_bind]. rewrite <- !app_assoc. reflexivity.
Qed.

Lemma format_line_trailing line code comment entry total total_cond subt
  update column debug use_tabs tab_width :
  rstrip line = code ++ ";"%char :: comment →
  Forall (fun c => c ≠ ";"%char) comment →
  format_line line entry total total_cond subt update column debug use_tabs
    tab_width
  = Ok (code ++ annotation_text entry total total_cond subt debug ++ $" "
        ++ lstrip (if update then strip_annotation comment else comment)
        ++ [NEWLINE]).
Proof.
  intros E H. unfold format_line. rewrite E, (rsplit1_last _ _ _ H).
  cbn [length Nat.eqb Nat.ltb Nat.leb item lookup list_lookup].
  rewrite format_line_comment_text. cbn [mbind result_bind].
  unfold strip_annotation.
  destruct update; rewrite <- !app_assoc; reflexivity.
Qed.

(** ** Updating an annotated line *)

(** C3: the code at two lines whose trailing comment holds the text of
    the old annotation a second time. The search matches the first
    [[7]] only, from index 1 to 4, and [format_line] removes the later
    [[7]] all the same, also where it stands inside a bracket of
    another shape, [[x[7]]], which becomes [[x]]: the text that the
    claim says is preserved verbatim is not. *)
Theorem format_line_removes_repeats :
  (fun m => (m_start m, m_end m, group0 m))
    <$> re_search OUR_COMMENT $" [7] keep [7]"
  = Some (1%nat, 4%nat, $"[7]") ∧
  format_line $"NOP ; [7] keep [7]" NOP 4 0 false true 50 false false 8
  = Ok ($"NOP ; [4] keep " ++ [NEWLINE]) ∧
  (fun m => (m_start m, m_end m, group0 m))
    <$> re_search OUR_COMMENT $" [7] see [x[7]]"
  = Some (1%nat, 4%nat, $"[7]") ∧
  format_line $"NOP ; [7] see [x[7]]" NOP 4 0 false true 50 false false 8
  = Ok ($"NOP ; [4] see [x]" ++ [NEWLINE]) ∧
  snd <$> z80count $"NOP ; [7] keep [7]" SAMPLE 0 false false 50 false 8
            false
  = Ok ($"NOP ; [4] keep " ++ [NEWLINE], 4).
Proof.
  split; [vm_compute; reflexivity|].
  split; [vm_compute; reflexivity|].
  split; [vm_compute; reflexivity|].
  split; [vm_compute; reflexivity|].
  vm_compute. reflexivity.
Qed.

(** What update does to a trailing comment: the text that the search
    matched is replaced by nothing wherever it occurs, the leading
    blanks of what is left are dropped, and the rest follows the new
    annotation after one space; a comment with no text of the
    annotation shape is kept. *)
Lemma format_line_update_removes (line code comment : str) (entry : Entry)
  (total total_cond : Z) (subt : bool) (column : Z) (debug use_tabs : bool)
  (tab_width : Z) :
  rstrip line = code ++ ";"%char :: comment →
  Forall (fun c => c ≠ ";"%char) comment →
  let out := format_line line entry total total_cond subt true column debug
               use_tabs tab_width in
  let ann := annotation_text entry total total_cond subt debug in
  (∀ before text after,
     comment = before ++ text ++ after → is_annotation text →
     (∀ n, (n < length before)%nat → ¬ annotation_at comment n) →
     out = Ok (code ++ ann ++ $" "
               ++ lstrip (before ++ replace text [] after) ++ [NEWLINE]) ∧
     (¬ occurs text after → replace text [] after = after)) ∧
  ((∀ text, is_annotation text → ¬ occurs text comment) →
     out = Ok (code ++ ann ++ $" " ++ lstrip comment ++ [NEWLINE])).
Proof.
  intros E H out ann. subst out ann.
  rewrite (format_line_trailing _ _ _ _ _ _ _ _ _ _ _ _ E H).
  split.
  - intros before text after -> Ha Hfirst. split.
    + by rewrite (strip_annotation_first _ _ _ Ha Hfirst).
    + intros Ho. apply replace_absent; [|done].
      by destruct Ha as (body & -> & _).
  - intros Hn. by rewrite (strip_annotation_none _ Hn).
Qed.

Lemma format_line_update_removes_example :
  format_line $"DJNZ loop ; old [13/8 .. 113/108] text [HL]  " DJNZ 108 113
    true true 50 false false 8
  = Ok ($"DJNZ loop ; [13/8 .. 113/108] old  text [HL]" ++ [NEWLINE]).
Proof.
  pose proof (format_line_update_removes
                $"DJNZ loop ; old [13/8 .. 113/108] text [HL]  "
                $"DJNZ loop " $" old [13/8 .. 113/108] text [HL]"
                DJNZ 108 113 true 50 false false 8 eq_refl) as H.
  destruct H as [H _].
  { repeat (apply Forall_cons_2 || apply Forall_nil_2); discriminate. }
  destruct (H $" old " $"[13/8 .. 113/108]" $" text [HL]" eq_refl)
    as [-> _]; [| |reflexivity].
  - exists $"13/8 .. 113/108". split; [reflexivity|]. split; [discriminate|].
    repeat (apply Forall_cons_2 || apply Forall_nil_2); reflexivity.
  - intros n Hn (text & after & E & (body & -> & _)).
    simpl in Hn.
    do 5 (destruct n as [|n]; [discriminate E|]). lia.
Defined.

(** ** A second pass over an annotated line *)

Lemma Forall_lstrip (P : ascii → Prop) s : Forall P s → Forall P (lstrip s).
Proof.
  induction 1 as [|c s Hc Hs IH]; simpl; [done|].
  destruct (isspace c); [done|by constructor].
Qed.

Lemma Forall_rstrip (P : ascii → Prop) s : Forall P s → Forall P (rstrip s).
Proof.
  intros H. destruct (rstrip_split s) as (blanks & E & _).
  rewrite E in H. by apply Forall_app in H as [? _].
Qed.

Lemma Forall_replace_from (P : ascii → Prop) old skip s :
  Forall P s → Forall P (replace_from old [] skip s).
Proof.
  intros H. revert skip. induction H as [|c s Hc Hs IH]; intros skip; [done|].
  cbn [replace_from]. destruct skip; [|apply IH].
  destruct (startswith old (c :: s)); cbn [app]; [apply IH|].
  constructor; [done|apply IH].
Qed.

Lemma replace_nil_nil s : replace [] [] s = s.
Proof.
  unfold replace. simpl. induction s as [|c s IH]; simpl; [done|].
  by rewrite IH.
Qed.

Lemma Forall_strip_annotation (P : ascii → Prop) s :
  Forall P s → Forall P (strip_annotation s).
Proof.
  intros H. unfold strip_annotation.
  destruct (re_search OUR_COMMENT s) as [m|]; [|done].
  destruct (group0 m) as [|c old]; [by rewrite replace_nil_nil|].
  by apply Forall_replace_from.
Qed.

Lemma occurs_rstrip text s : occurs text (rstrip s) → occurs text s.
Proof.
  intros (before & after & E). destruct (rstrip_split s) as (blanks & Es & _).
  exists before, (after ++ blanks). by rewrite Es, E, <- !app_assoc.
Qed.

Lemma occurs_app_l text a b : occurs text a → occurs text (a ++ b).
Proof.
  intros (before & after & ->). exists before, (after ++ b).
  by rewrite <- !app_assoc.
Qed.

Lemma rstrip_head c s :
  isspace c = false → rstrip (c :: s) = c :: rstrip s.
Proof. intros Hc. simpl. destruct (rstrip s); [by rewrite Hc|done]. Qed.

(** What is kept behind the annotation is empty, or a space and a text
    without leading blanks: trimming it on both sides and putting the
    space back gives what [rstrip] leaves of it. *)
Lemma rstrip_kept kept :
  kept = [] ∨ (∃ d, kept = SPACE :: d ∧ lstrip d = d) →
  rstrip ($" " ++ lstrip (rstrip kept)) = rstrip kept.
Proof.
  intros [->|(d & -> & Hd)]; [done|].
  destruct d as [|x d].
  - reflexivity.
  - assert (Hx : isspace x = false).
    { simpl in Hd. destruct (isspace x) eqn:Ex; [|done].
      destruct (lstrip_split d) as (blanks & E & _).
      apply (f_equal length) in Hd, E. rewrite length_app in E. simpl in Hd.
      lia. }
    change (SPACE :: x :: d) with ([SPACE] ++ x :: d).
    rewrite (rstrip_app_nonblank [SPACE] (x :: d))
      by (by rewrite rstrip_head).
    rewrite (lstrip_blanks [SPACE]) by (by repeat constructor).
    rewrite rstrip_head by done. cbn [lstrip]. rewrite Hx.
    rewrite <- rstrip_head by done.
    rewrite (rstrip_app_nonblank $" " (rstrip (x :: d)))
      by (by rewrite rstrip_idem, rstrip_head).
    by rewrite rstrip_idem.
Qed.

(** The first pass leaves the new annotation followed by what it kept
    of the old comment. *)
Lemma format_line_form line entry total total_cond subt column debug
  use_tabs tab_width out :
  format_line line entry total total_cond subt true column debug use_tabs
    tab_width = Ok out →
  ∃ code kept,
    out = code ++ annotation_text entry total total_cond subt debug ++ kept
          ++ [NEWLINE] ∧
    Forall (fun c => c ≠ ";"%char) kept ∧
    (kept = [] ∨ ∃ d, kept = SPACE :: d ∧ lstrip d = d).
Proof.
  intros H.
  destruct (rsplit1_cases ";" (rstrip line))
    as [[_ Hn]|(code & comment & _ & E & Hc)].
  - rewrite (format_line_plain _ _ _ _ _ _ _ _ _ _ Hn) in H.
    destruct (comment_alignment _ _ _ _) as [spacing|]; [|done].
    cbn [mbind result_bind] in H.
    assert (out = rstrip line ++ spacing
                  ++ annotation_text entry total total_cond subt debug
                  ++ [NEWLINE]) as -> by congruence.
    exists (rstrip line ++ spacing), [].
    split; [by rewrite <- !app_assoc|]. split; [constructor|by left].
  - rewrite (format_line_trailing _ _ _ _ _ _ _ _ _ _ _ _ E Hc) in H.
    assert (out = code ++ annotation_text entry total total_cond subt debug
                  ++ $" " ++ lstrip (strip_annotation comment) ++ [NEWLINE])
      as -> by congruence.
    exists code, ($" " ++ lstrip (strip_annotation comment)).
    split; [by rewrite <- !app_assoc|]. split.
    + constructor; [done|]. by apply Forall_lstrip, Forall_strip_annotation.
    + right. eexists. split; [reflexivity|]. apply lstrip_idem.
Qed.

(** The second pass over such an output. *)
Lemma format_line_again code kept body entry total total_cond subt column
  use_tabs tab_width :
  annotation_body entry total total_cond subt = body →
  is_annotation ($"[" ++ body ++ $"]") →
  Forall (fun c => c ≠ ";"%char) kept →
  ¬ occurs ($"[" ++ body ++ $"]") kept →
  format_line
    (code ++ annotation_text entry total total_cond subt false ++ kept
     ++ [NEWLINE])
    entry total total_cond subt true column false use_tabs tab_width
  = Ok (code ++ annotation_text entry total total_cond subt false
        ++ $" " ++ lstrip (rstrip kept) ++ [NEWLINE]).
Proof.
  intros Hbody Ha Hkept Hocc.
  pose proof Ha as (body' & Eb & Hne & Hchars).
  assert (body' = body) as ->.
  { simpl in Eb. injection Eb as Eb. by apply app_inv_tail in Eb. }
  set (text := $"[" ++ body ++ $"]") in *.
  assert (Eann : annotation_text entry total total_cond subt false
                 = $"; " ++ text).
  { unfold annotation_text, text. rewrite Hbody, app_nil_r. reflexivity. }
  assert (Er : rstrip (code ++ annotation_text entry total total_cond subt
                         false ++ kept ++ [NEWLINE])
               = code ++ ";"%char :: " "%char :: text ++ rstrip kept).
  { rewrite Eann. unfold text.
    replace (code ++ ($"; " ++ $"[" ++ body ++ $"]") ++ kept ++ [NEWLINE])
      with ((code ++ $"; [" ++ body) ++ ["]"%char] ++ (kept ++ [NEWLINE]))
      by (by rewrite <- !app_assoc).
    rewrite rstrip_after_end by done.
    rewrite (rstrip_app_blank kept [NEWLINE]) by done.
    by rewrite <- !app_assoc. }
  rewrite (format_line_trailing _ code (" "%char :: text ++ rstrip kept)).
  - do 4 f_equal.
    change (" "%char :: text ++ rstrip kept)
      with ($" " ++ text ++ rstrip kept).
    rewrite strip_annotation_first; [|done|].
    + rewrite replace_absent;
        [|by destruct Ha as (? & -> & _)|by intros ?%occurs_rstrip].
      by rewrite (lstrip_blanks $" ") by (by repeat constructor).
    + intros n Hn (t & after & E & (b & -> & _)). simpl in Hn.
      destruct n as [|n]; [discriminate E|lia].
  - exact Er.
  - constructor; [done|]. apply Forall_app. split.
    + unfold text. apply Forall_app. split; [by repeat constructor|].
      apply Forall_app. split; [|by repeat constructor].
      eapply Forall_impl; [exact Hchars|]. intros a Hc.
      by destruct (ann_char_bracket a Hc) as (_ & _ & ?).
    + by apply Forall_rstrip.
Qed.

Lemma kept_cases kept :
  kept = [] ∨ (∃ d, kept = SPACE :: d ∧ lstrip d = d) →
  (rstrip kept = [] ∧ lstrip (rstrip kept) = []) ∨
  $" " ++ lstrip (rstrip kept) = rstrip kept.
Proof.
  intros [->|(d & -> & Hd)]; [by left|].
  destruct (rstrip d) as [|y t] eqn:Er.
  - left. change (SPACE :: d) with ([SPACE] ++ d).
    by rewrite rstrip_app_blank.
  - right. change (SPACE :: d) with ([SPACE] ++ d).
    rewrite rstrip_app_nonblank by (by rewrite Er).
    rewrite (lstrip_blanks [SPACE]) by (by repeat constructor).
    f_equal. destruct d as [|x d]; [done|].
    assert (Hx : isspace x = false).
    { simpl in Hd. destruct (isspace x) eqn:Ex; [|done].
      destruct (lstrip_split d) as (blanks & E & _).
      apply (f_equal length) in Hd, E. rewrite length_app in E. simpl in Hd.
      lia. }
    rewrite rstrip_head by done. simpl. by rewrite Hx.
Qed.

(** A text that holds a character which [s] holds once occurs at most
    once in [s]. *)
Lemma once_by_count (c : ascii) (text s : list ascii) :
  c ∈ text → length (filter (fun x => x = c) s) = 1%nat →
  ∀ before after, s = before ++ text ++ after → ¬ occurs text after.
Proof.
  intros Hc Hs before after -> (b2 & a2 & ->).
  assert (Ht : (1 ≤ length (filter (fun x => x = c) text))%nat).
  { apply list_elem_of_split in Hc as (l1 & l2 & ->).
    rewrite filter_app, filter_cons_True, length_app by done. simpl. lia. }
  rewrite !filter_app, !length_app in Hs. lia.
Qed.

(** Lines on which a second pass does not reproduce the first: for
    [NOP] without comment the second output has a space before the
    newline; with debug on the text [case{NOP}] is taken for comment
    text and repeated; a line that ends in two newlines is not
    matched, while its trimmed form is; with a negative total the
    annotation holds a minus sign, is not recognised and is stacked;
    and a comment that holds the text of the new annotation loses it
    in the second pass. The claim that the second pass always returns
    the output of the first fails there. *)
Lemma z80count_second_pass_differs :
  let twice line total subt debug :=
    '(p1, (out1, total1)) ←
      z80count line SAMPLE total subt false 20 false 8 debug;
    '(_, (out2, total2)) ←
      z80count out1 p1 total subt false 20 false 8 debug;
    Ok (out1, total1, out2, total2) in
  twice $"NOP" 0 false false
  = Ok ($"NOP" ++ replicate 16 SPACE ++ $"; [4]" ++ [NEWLINE], 4,
        $"NOP" ++ replicate 16 SPACE ++ $"; [4] " ++ [NEWLINE], 4) ∧
  twice $"NOP" 0 false true
  = Ok ($"NOP" ++ replicate 16 SPACE ++ $"; [4] case{NOP}" ++ [NEWLINE], 4,
        $"NOP" ++ replicate 16 SPACE ++ $"; [4] case{NOP} case{NOP}"
        ++ [NEWLINE], 4) ∧
  twice ($"ld a, b" ++ [NEWLINE; NEWLINE]) 0 false false
  = Ok ($"ld a, b" ++ [NEWLINE], 0,
        $"ld a, b" ++ replicate 12 SPACE ++ $"; [4]" ++ [NEWLINE], 4) ∧
  twice $"NOP" (-10) true false
  = Ok ($"NOP" ++ replicate 16 SPACE ++ $"; [4 .. -6]" ++ [NEWLINE], -6,
        $"NOP" ++ replicate 16 SPACE ++ $"; [4 .. -6] [4 .. -6]"
        ++ [NEWLINE], -6) ∧
  twice $"NOP ; [5] was [4]" 0 false false
  = Ok ($"NOP ; [4] was [4]" ++ [NEWLINE], 4,
        $"NOP ; [4] was " ++ [NEWLINE], 4).
Proof. intros twice. repeat split; vm_compute; reflexivity. Qed.

Lemma rstrip_newline s : rstrip (rstrip s ++ [NEWLINE]) = rstrip s.
Proof. by rewrite rstrip_app_blank, rstrip_idem. Qed.

(** C2, amended: with update enabled, a line for which [lookup]
    returns no record, and none for its trimmed form either, is
    returned by the second pass as by the first. When a line is
    matched, its annotated form is matched again by the same record,
    debug is off, and the new annotation has the recognised shape and
    occurs only once in the first output, the second pass returns the
    same total and the code, the annotation, a space and the comment
    text that the first pass kept, trimmed on both sides: that is the
    first output itself when comment text without blanks at its end
    was kept, the first output without the blanks before its newline
    when the kept text ends in blanks, and the first output with one
    space put before the newline when nothing was kept. *)
Theorem z80count_second_pass (line : str) (p p1 p2 : Parser.state)
  (total : Z) (subt : bool) (column : Z) (use_tabs : bool) (tab_width : Z) :
  (∀ debug,
     Parser.lookup p line = Ok (p1, None) →
     let out1 := rstrip line ++ [NEWLINE] in
     z80count line p total subt false column use_tabs tab_width debug
     = Ok (p1, (out1, total)) ∧
     (Parser.lookup p1 out1 = Ok (p2, None) →
      z80count out1 p1 total subt false column use_tabs tab_width debug
      = Ok (p2, (out1, total)))) ∧
  (∀ entry out1 total1 total_cond,
     let text :=
       $"[" ++ annotation_body entry total1 total_cond subt ++ $"]" in
     let annotation := annotation_text entry total1 total_cond subt false in
     Parser.lookup p line = Ok (p1, Some entry) →
     update_counters entry total = Ok (total1, total_cond) →
     format_line line entry total1 total_cond subt true column false use_tabs
       tab_width = Ok out1 →
     Parser.lookup p1 out1 = Ok (p2, Some entry) →
     is_annotation text →
     (∀ before after,
        out1 = before ++ text ++ after → ¬ occurs text after) →
     z80count line p total subt false column use_tabs tab_width false
     = Ok (p1, (out1, total1)) ∧
     ∃ code kept out2,
       out1 = code ++ annotation ++ kept ++ [NEWLINE] ∧
       (kept = [] ∨ ∃ d, kept = SPACE :: d ∧ lstrip d = d) ∧
       out2 = code ++ annotation ++ $" " ++ lstrip (rstrip kept)
              ++ [NEWLINE] ∧
       z80count out1 p1 total subt false column use_tabs tab_width false
       = Ok (p2, (out2, total1)) ∧
       (kept ≠ [] → rstrip kept = kept → out2 = out1) ∧
       (rstrip kept ≠ [] → out2 = rstrip out1 ++ [NEWLINE]) ∧
       (rstrip kept = [] → out2 = rstrip out1 ++ $" " ++ [NEWLINE]) ∧
       (kept = [] → out2 ≠ out1)).
Proof.
  split.
  { intros debug Hl out1. unfold z80count. rewrite Hl.
    split; [done|]. intros ->. cbn [mbind result_bind].
    subst out1. by rewrite rstrip_newline. }
  intros entry out1 total1 total_cond text annotation Hl Hu Hf Hl2 Ha Honce.
  split. { unfold z80count. rewrite Hl. cbn [mbind result_bind negb].
           rewrite Hu. cbn [mbind result_bind negb]. by rewrite Hf. }
  destruct (format_line_form _ _ _ _ _ _ _ _ _ _ Hf)
    as (code & kept & -> & Hkept & Hform).
  fold annotation in Hl2, Honce, Hf |- *.
  set (body := annotation_body entry total1 total_cond subt) in *.
  assert (Eann : annotation = $"; " ++ text).
  { unfold annotation, annotation_text. fold body. by rewrite app_nil_r. }
  assert (Hocc : ¬ occurs text kept).
  { intros Ho. apply (Honce (code ++ $"; ") (kept ++ [NEWLINE])).
    - rewrite Eann. by rewrite <- !app_assoc.
    - by apply occurs_app_l. }
  assert (Er : rstrip (code ++ annotation ++ kept ++ [NEWLINE])
               = code ++ annotation ++ rstrip kept).
  { rewrite Eann. unfold text.
    replace (code ++ ($"; " ++ $"[" ++ body ++ $"]") ++ kept ++ [NEWLINE])
      with ((code ++ $"; [" ++ body) ++ ["]"%char] ++ (kept ++ [NEWLINE]))
      by (by rewrite <- !app_assoc).
    rewrite rstrip_after_end by done.
    rewrite (rstrip_app_blank kept [NEWLINE]) by done.
    by rewrite <- !app_assoc. }
  exists code, kept, (code ++ annotation ++ $" " ++ lstrip (rstrip kept)
                      ++ [NEWLINE]).
  split; [done|]. split; [done|]. split; [done|].
  split; [|split; [|split; [|split]]].
  - unfold z80count. rewrite Hl2. cbn [mbind result_bind negb].
    rewrite Hu. cbn [mbind result_bind negb]. unfold annotation.
    by rewrite (format_line_again code kept body _ _ _ _ _ _ _ eq_refl Ha
                  Hkept Hocc).
  - intros Hne Hr. destruct Hform as [->|(d & -> & Hd)]; [done|].
    rewrite Hr. change (SPACE :: d) with ([SPACE] ++ d).
    rewrite (lstrip_blanks [SPACE]) by (by repeat constructor).
    by rewrite Hd.
  - intros Hne. rewrite Er.
    destruct (kept_cases kept Hform) as [[? _]|E]; [done|].
    rewrite <- !app_assoc. do 2 f_equal. by rewrite (app_assoc $" "), E.
  - intros Hr. rewrite Er, Hr. cbn [lstrip].
    by rewrite !app_nil_r, <- !app_assoc.
  - intros -> E. apply app_inv_head in E. apply app_inv_head in E.
    discriminate E.
Qed.

Lemma z80count_second_pass_witness :
  let line := $"loop: DJNZ loop ; again" in
  let out1 := $"loop: DJNZ loop ; [13/8 .. 113/108] again" ++ [NEWLINE] in
  ∃ p1 p2 code kept out2,
    z80count line SAMPLE 100 true false 50 false 8 false
    = Ok (p1, (out1, 108)) ∧
    out1 = code ++ $"; [13/8 .. 113/108]" ++ kept ++ [NEWLINE] ∧
    z80count out1 p1 100 true false 50 false 8 false
    = Ok (p2, (out2, 108)) ∧
    (kept ≠ [] → rstrip kept = kept → out2 = out1).
Proof.
  intros line out1.
  assert (C : (r ← Parser.lookup SAMPLE line;
               r' ← Parser.lookup r.1 out1; Ok (r.2, r'.2))
              = (e ← Parser.init_entry DJNZ; Ok (Some e, Some e)))
    by (vm_compute; reflexivity).
  destruct (Parser.init_entry DJNZ) as [entry|] eqn:Ei; [|discriminate Ei].
  destruct (Parser.lookup SAMPLE line) as [[p1 found1]|] eqn:E1;
    [|discriminate C].
  cbn [mbind result_bind fst snd] in C.
  destruct (Parser.lookup p1 out1) as [[p2 found2]|] eqn:E2;
    [|discriminate C].
  cbn [mbind result_bind fst snd] in C.
  assert (found1 = Some entry) as -> by congruence.
  assert (found2 = Some entry) as -> by congruence.
  vm_compute in Ei. injection Ei as <-.
  exists p1, p2.
  destruct (proj2 (z80count_second_pass line SAMPLE p1 p2 100 true 50 false
                     8) _ out1 108 113 E1)
    as (H1 & code & kept & out2 & Eo & _ & _ & H2 & Hsame & _);
    [| |exact E2| | |].
  - vm_compute. reflexivity.
  - vm_compute. reflexivity.
  - exists $"13/8 .. 113/108". split; [reflexivity|]. split; [discriminate|].
    repeat (apply Forall_cons_2 || apply Forall_nil_2); reflexivity.
  - apply (once_by_count "["%char); [|vm_compute; reflexivity].
    apply list_elem_of_here.
  - exists code, kept, out2. exact (conj H1 (conj Eo (conj H2 Hsame))).
Defined.

(** * Further properties

    ** The length of a line *)

Lemma tab_aware_length_app a b tab_width :
  tab_aware_length (a ++ b) tab_width
  = fold_left (tab_step tab_width) b (tab_aware_length a tab_width).
Proof. unfold tab_aware_length. by rewrite fold_left_app. Qed.

Lemma tab_steps_no_tab tab_width l pos :
  TAB ∉ l →
  fold_left (tab_step tab_width) l pos = pos + Z.of_nat (length l).
Proof.
  revert pos. induction l as [|c l IH]; intros pos H; simpl; [lia|].
  apply not_elem_of_cons in H as [Hc Hl].
  rewrite IH by done. unfold tab_step, eqc.
  rewrite bool_decide_false by done. lia.
Qed.

Lemma tab_steps_tabs tab_width k pos :
  tab_width ≠ 0 →
  fold_left (tab_step tab_width) (replicate (S k) TAB) pos
  = (pos / tab_width + Z.of_nat (S k)) * tab_width.
Proof.
  intros Htw. revert pos. induction k as [|k IH]; intros pos.
  - simpl. unfold tab_step, eqc, next_multiple.
    by rewrite bool_decide_true.
  - change (replicate (S (S k)) TAB) with (TAB :: replicate (S k) TAB).
    cbn [fold_left]. rewrite IH. unfold tab_step at 1, eqc, next_multiple.
    rewrite bool_decide_true by done.
    rewrite Z.div_mul by done. lia.
Qed.

Lemma tab_steps_bounds tab_width l pos :
  0 < tab_width → 0 <= pos →
  pos + Z.of_nat (length l) <= fold_left (tab_step tab_width) l pos
  ∧ fold_left (tab_step tab_width) l pos
    <= pos + tab_width * Z.of_nat (length l).
Proof.
  intros Htw. revert pos. induction l as [|c l IH]; intros pos Hpos.
  - simpl. lia.
  - cbn [fold_left length].
    assert (H : pos + 1 <= tab_step tab_width pos c
                ∧ tab_step tab_width pos c <= pos + tab_width).
    { unfold tab_step. destruct (eqc c TAB); [|lia].
      pose proof (next_multiple_least pos tab_width Htw) as (_ & ? & _).
      lia. }
    destruct (IH (tab_step tab_width pos c) ltac:(lia)) as [H1 H2].
    lia.
Qed.

Lemma line_length_loop_zero line n :
  line_length_loop n line 0
  = if bool_decide (TAB ∈ line) then Raise ZeroDivisionError
    else Ok (n + Z.of_nat (length line)).
Proof.
  revert n. induction line as [|c line IH]; intros n.
  - case_bool_decide as H; [by apply elem_of_nil in H|].
    simpl. f_equal. lia.
  - cbn [line_length_loop]. destruct (eqc c TAB) eqn:Hc.
    + apply eqc_true in Hc as ->.
      by rewrite bool_decide_true by apply list_elem_of_here.
    + apply eqc_false in Hc. rewrite IH.
      case_bool_decide as Hl.
      * by rewrite bool_decide_true by (by apply list_elem_of_further).
      * rewrite bool_decide_false by (by intros [?|?]%elem_of_cons).
        f_equal. cbn [length]. lia.
Qed.

(** X1: [line_length] raises only [ZeroDivisionError], and exactly
    when the tab width is 0 and the line holds a tab; a line without a
    tab has its number of characters as length, whatever the tab
    width. *)
Theorem line_length_raises_iff (line : str) (tab_width : Z) :
  (∀ e, line_length line tab_width = Raise e ↔
        e = ZeroDivisionError ∧ tab_width = 0 ∧ TAB ∈ line) ∧
  (TAB ∉ line →
   line_length line tab_width = Ok (Z.of_nat (length line))).
Proof.
  split.
  - intros e. destruct (decide (tab_width = 0)) as [->|Htw].
    + unfold line_length. rewrite line_length_loop_zero.
      case_bool_decide; split; try done.
      * by intros [= <-].
      * by intros (-> & _ & _).
      * by intros (_ & _ & ?).
    + rewrite line_length_spec by done. split; [done|]. by intros (_ & ? & _).
  - intros H. destruct (decide (tab_width = 0)) as [->|Htw].
    + unfold line_length. rewrite line_length_loop_zero.
      by rewrite bool_decide_false.
    + rewrite line_length_spec by done. f_equal. unfold tab_aware_length.
      fold (tab_step tab_width). rewrite tab_steps_no_tab by done. lia.
Qed.

(** X2: for a positive tab width the length of a line is at least its
    number of characters and at most that number times the width;
    text without a tab appended to the line adds its number of
    characters, and a tab appended to the line leads to the least
    multiple of the width above the length. *)
Theorem line_length_append (line : str) (tab_width : Z) :
  0 < tab_width →
  ∃ length_,
    line_length line tab_width = Ok length_ ∧
    Z.of_nat (length line) <= length_ <= tab_width * Z.of_nat (length line) ∧
    (∀ suffix, TAB ∉ suffix →
       line_length (line ++ suffix) tab_width
       = Ok (length_ + Z.of_nat (length suffix))) ∧
    ∃ stop, line_length (line ++ [TAB]) tab_width = Ok stop ∧
            (tab_width | stop) ∧ length_ < stop <= length_ + tab_width ∧
            ∀ m, (tab_width | m) → length_ < m → stop <= m.
Proof.
  intros Htw. exists (tab_aware_length line tab_width).
  split; [apply line_length_spec; lia|]. split; [|split].
  - unfold tab_aware_length. fold (tab_step tab_width).
    pose proof (tab_steps_bounds tab_width line 0 Htw ltac:(lia)). lia.
  - intros suffix H. rewrite line_length_spec by lia.
    by rewrite tab_aware_length_app, tab_steps_no_tab.
  - exists (next_multiple (tab_aware_length line tab_width) tab_width).
    split.
    + rewrite line_length_spec by lia. rewrite tab_aware_length_app.
      simpl. unfold tab_step, eqc. by rewrite bool_decide_true.
    + apply (next_multiple_least _ _ Htw).
Qed.

Lemma line_length_append_witness :
  ∃ length_,
    line_length ($"ab" ++ [TAB] ++ $"c") 8 = Ok length_ ∧
    line_length (($"ab" ++ [TAB] ++ $"c") ++ $"de") 8 = Ok (length_ + 2).
Proof.
  destruct (line_length_append ($"ab" ++ [TAB] ++ $"c") 8 ltac:(lia))
    as (length_ & H & _ & Hs & _).
  exists length_. split; [exact H|].
  apply (Hs $"de"). intros Hin. by repeat apply elem_of_cons in Hin as [?|Hin];
    try apply elem_of_nil in Hin.
Defined.

(** ** The padding *)

Lemma tab_aware_length_nonneg line tab_width :
  0 < tab_width → 0 <= tab_aware_length line tab_width.
Proof.
  intros H. unfold tab_aware_length. fold (tab_step tab_width).
  pose proof (tab_steps_bounds tab_width line 0 H ltac:(lia)). lia.
Qed.

Lemma spaces_no_tab n : TAB ∉ spaces n.
Proof.
  unfold spaces. intros H%elem_of_replicate. by destruct H as [H _].
Qed.

Lemma tab_aware_length_spaces line n tab_width :
  tab_aware_length (line ++ spaces n) tab_width
  = tab_aware_length line tab_width + Z.max 0 n.
Proof.
  rewrite tab_aware_length_app, tab_steps_no_tab by apply spaces_no_tab.
  unfold spaces. rewrite length_replicate. lia.
Qed.

Lemma comment_alignment_no_tabs line column tab_width :
  tab_width ≠ 0 →
  comment_alignment line column false tab_width
  = Ok (spaces (Z.max 1 (column - 1 - tab_aware_length line tab_width))).
Proof.
  intros Htw. unfold comment_alignment. rewrite line_length_spec by done.
  cbn [mbind result_bind].
  destruct (Z.geb_spec (tab_aware_length line tab_width) (column - 1)).
  - by rewrite Z.max_l by lia.
  - cbn [mbind result_bind]. rewrite !str_mul_char, Z.max_r by lia. done.
Qed.

Lemma spaces_padding line n tab_width :
  tab_width ≠ 0 → 1 <= n →
  spaces n ≠ [] ∧ Forall (fun c => c = SPACE) (spaces n) ∧
  line_length (line ++ spaces n) tab_width
  = Ok (tab_aware_length line tab_width + n).
Proof.
  intros Htw Hn. split; [|split].
  - unfold spaces. destruct (Z.to_nat n) eqn:E; [lia|done].
  - unfold spaces. by apply Forall_replicate.
  - rewrite line_length_spec by done. f_equal.
    rewrite tab_aware_length_spaces. lia.
Qed.

(** X3: without tabs, and for a tab width that is not 0, the padding
    is one or more spaces and nothing else, and the code followed by
    the padding ends right before the column, or one space behind the
    code when the code already reaches the column. *)
Theorem comment_alignment_spaces (line : str) (column tab_width : Z) :
  tab_width ≠ 0 →
  ∃ length_ padding,
    line_length line tab_width = Ok length_ ∧
    comment_alignment line column false tab_width = Ok padding ∧
    padding ≠ [] ∧ Forall (fun c => c = SPACE) padding ∧
    line_length (line ++ padding) tab_width
    = Ok (Z.max (length_ + 1) (column - 1)).
Proof.
  intros Htw. eexists _, _.
  split; [by apply line_length_spec|].
  split; [by apply comment_alignment_no_tabs|].
  destruct (spaces_padding line
              (Z.max 1 (column - 1 - tab_aware_length line tab_width))
              tab_width Htw ltac:(lia)) as (H1 & H2 & ->).
  split; [done|]. split; [done|]. f_equal. lia.
Qed.

Lemma comment_alignment_spaces_witness :
  ∃ padding,
    comment_alignment ([TAB] ++ $"NOP") 20 false 8 = Ok padding ∧
    line_length (([TAB] ++ $"NOP") ++ padding) 8 = Ok 19.
Proof.
  destruct (comment_alignment_spaces ([TAB] ++ $"NOP") 20 8 ltac:(lia))
    as (length_ & padding & Hl & Hp & _ & _ & H).
  exists padding. split; [exact Hp|]. rewrite H.
  vm_compute in Hl. injection Hl as <-. reflexivity.
Defined.

(** [comment_alignment] raises only [ZeroDivisionError], and exactly
    when the tab width is 0 and either the code holds a tab or tabs
    are asked for and the code is shorter than the column. *)
Lemma comment_alignment_raises (line : str) (column : Z)
  (use_tabs : bool) (tab_width : Z) (e : exn) :
  comment_alignment line column use_tabs tab_width = Raise e ↔
  e = ZeroDivisionError ∧ tab_width = 0 ∧
  (TAB ∈ line ∨
   (use_tabs = true ∧ Z.of_nat (length line) < column - 1)).
Proof.
  destruct (decide (tab_width = 0)) as [->|Htw].
  - unfold comment_alignment, line_length. rewrite line_length_loop_zero.
    case_bool_decide as Ht; cbn [mbind result_bind].
    + split; [intros [= <-]; eauto|by intros (-> & _)].
    + rewrite Z.add_0_l.
      destruct (Z.geb_spec (Z.of_nat (length line)) (column - 1)).
      * split; [done|]. intros (_ & _ & [?|[_ ?]]); [done|lia].
      * destruct use_tabs; cbn [mbind result_bind floordiv Z.eqb].
        -- split; [intros [= <-]; split; [done|]; split; [done|];
                   right; split; [done|lia]
                  |by intros (-> & _)].
        -- split; [done|]. by intros (_ & _ & [?|[? _]]).
  - destruct (comment_alignment_ok line column use_tabs tab_width Htw)
      as [padding ->].
    split; [done|]. by intros (_ & ? & _).
Qed.

(** With a tab width of 0 the function raises when tabs are asked for
    and when the text holds a tab: the claim that it returns a padding
    for every tab width fails there. *)
Lemma comment_alignment_zero_width :
  comment_alignment $"NOP" 50 true 0 = Raise ZeroDivisionError ∧
  comment_alignment ([TAB] ++ $"NOP") 50 false 0 = Raise ZeroDivisionError.
Proof. split; reflexivity. Qed.

(** C6, amended: [comment_alignment] raises only [ZeroDivisionError],
    and exactly when the tab width is 0 and the text holds a tab or
    tabs are asked for and the text is shorter than the column. In
    every other case, a tab width of 0 included, it returns, in terms
    of the tab-aware length of the code text: one space when the text
    reaches the column; otherwise spaces up to the column when tabs
    are not used; otherwise tabs up to the last tab stop before the
    column and spaces from there, or spaces only when the text is
    already past that tab stop. *)
Theorem comment_alignment_cases (line : str) (column : Z) (use_tabs : bool)
  (tab_width : Z) :
  let length := tab_aware_length line tab_width in
  let expected := column - 1 in
  let tab_stop := expected / tab_width * tab_width + 1 in
  let aligned := comment_alignment line column use_tabs tab_width in
  let undefined :=
    tab_width = 0 ∧
    (TAB ∈ line ∨ (use_tabs = true ∧ length < expected)) in
  (∀ e, aligned = Raise e ↔ e = ZeroDivisionError ∧ undefined) ∧
  (¬ undefined →
   (length >= expected → aligned = Ok [SPACE]) ∧
   (length < expected → use_tabs = false →
      aligned = Ok (spaces (expected - length))) ∧
   (length < expected → use_tabs = true → tab_stop > length →
      aligned
      = Ok (tabs ((tab_stop - length) / tab_width
                  + (if length mod tab_width >? 1 then 1 else 0))
            ++ spaces (expected - tab_stop))) ∧
   (length < expected → use_tabs = true → tab_stop <= length →
      aligned = Ok (spaces (expected - length)))).
Proof.
  intros len expected tab_stop aligned undefined.
  assert (Hlen : TAB ∉ line → len = Z.of_nat (length line)).
  { intros Hnt. subst len. unfold tab_aware_length.
    fold (tab_step tab_width). by rewrite tab_steps_no_tab. }
  split.
  - intros e. subst aligned undefined.
    rewrite comment_alignment_raises. fold expected.
    destruct (decide (TAB ∈ line)) as [Ht|Ht]; [tauto|].
    rewrite (Hlen Ht). tauto.
  - intros Hun. destruct (decide (tab_width = 0)) as [Htw|Htw].
    2: { by apply comment_alignment_nonzero. }
    assert (Hnt : TAB ∉ line).
    { intros Ht. apply Hun. split; [done|by left]. }
    assert (Hal : aligned
                  = if len >=? expected then Ok [SPACE]
                    else if use_tabs then Raise ZeroDivisionError
                         else Ok (spaces (expected - len))).
    { subst aligned. rewrite Htw. unfold comment_alignment, line_length.
      rewrite line_length_loop_zero, bool_decide_false by done.
      cbn [mbind result_bind]. rewrite Z.add_0_l, <- (Hlen Hnt).
      fold expected. destruct (len >=? expected); [done|].
      destruct use_tabs; [done|]. cbn [mbind result_bind].
      by rewrite !str_mul_char. }
    rewrite Hal. repeat split.
    + intros H. destruct (Z.geb_spec len expected); [done|lia].
    + intros H ->. destruct (Z.geb_spec len expected); [lia|done].
    + intros H Hu. destruct Hun. split; [done|]. right. by split.
    + intros H Hu. destruct Hun. split; [done|]. right. by split.
Qed.

Lemma comment_alignment_cases_witness :
  comment_alignment ($"ab" ++ [TAB] ++ $"c") 20 true 8 = Ok ([TAB] ++ $"  ")
  ∧ comment_alignment $"abc" 20 false 0 = Ok (spaces 16).
Proof.
  split.
  - pose proof (comment_alignment_cases ($"ab" ++ [TAB] ++ $"c") 20 true 8)
      as (_ & H).
    destruct H as (_ & _ & H & _); [by intros [? _]|].
    apply H; vm_compute; congruence.
  - pose proof (comment_alignment_cases $"abc" 20 false 0) as (_ & H).
    destruct H as (_ & H & _).
    + intros (_ & [Ht|[? _]]); [|done].
      by repeat (apply elem_of_cons in Ht as [?|Ht]; [done|]);
        apply elem_of_nil in Ht.
    + apply H; vm_compute; congruence.
Defined.

Lemma tab_count length_ tab_width q :
  2 <= tab_width → 0 <= length_ → q * tab_width + 1 > length_ →
  (q * tab_width + 1 - length_) / tab_width
  + (if length_ mod tab_width >? 1 then 1 else 0)
  = q - length_ / tab_width.
Proof.
  intros Htw Hl Hq.
  pose proof (Z.div_mod length_ tab_width ltac:(lia)) as E.
  pose proof (Z.mod_pos_bound length_ tab_width ltac:(lia)) as B.
  set (a := length_ / tab_width) in *. set (b := length_ mod tab_width) in *.
  destruct (Z.gtb_spec b 1).
  - assert ((q * tab_width + 1 - length_) / tab_width = q - a - 1); [|lia].
    symmetry. apply (Z.div_unique_pos _ _ _ (tab_width + 1 - b)); lia.
  - assert ((q * tab_width + 1 - length_) / tab_width = q - a); [|lia].
    symmetry. apply (Z.div_unique_pos _ _ _ (1 - b)); lia.
Qed.

Lemma tab_aware_length_tabs line n tab_width :
  0 < tab_width → 0 < n →
  tab_aware_length (line ++ tabs n) tab_width
  = (tab_aware_length line tab_width / tab_width + n) * tab_width.
Proof.
  intros Htw Hn. rewrite tab_aware_length_app. unfold tabs.
  destruct (Z.to_nat n) as [|k] eqn:E; [lia|].
  rewrite tab_steps_tabs by lia. f_equal. lia.
Qed.

(** X4: with tabs and a tab width of at least 2, the padding for a
    code shorter than the column is tabs followed by spaces, and the
    code followed by the padding ends right before the column or one
    position earlier. *)
Theorem comment_alignment_tabs (line : str) (column tab_width : Z) :
  2 <= tab_width →
  tab_aware_length line tab_width < column - 1 →
  ∃ n m stop,
    comment_alignment line column true tab_width = Ok (tabs n ++ spaces m) ∧
    line_length (line ++ tabs n ++ spaces m) tab_width = Ok stop ∧
    (stop = column - 1 ∨ stop = column - 2).
Proof.
  intros Htw Hshort.
  pose proof (tab_aware_length_nonneg line tab_width ltac:(lia)) as Hpos.
  set (L := tab_aware_length line tab_width) in *.
  set (E := column - 1) in *.
  pose proof (Z.div_mod E tab_width ltac:(lia)) as HE.
  pose proof (Z.mod_pos_bound E tab_width ltac:(lia)) as BE.
  pose proof (Z.div_mod L tab_width ltac:(lia)) as HL.
  pose proof (Z.mod_pos_bound L tab_width ltac:(lia)) as BL.
  unfold comment_alignment. rewrite line_length_spec by lia.
  cbn [mbind result_bind]. fold L E.
  destruct (Z.geb_spec L E); [lia|].
  rewrite floordiv_ok by lia. cbn [mbind result_bind].
  set (q := E / tab_width) in *.
  destruct (Z.gtb_spec (q * tab_width + 1) L) as [Hstop|Hstop].
  - rewrite floordiv_ok, pymod_ok by lia. cbn [mbind result_bind].
    rewrite !str_mul_char.
    assert (Hn : (if L mod tab_width >? 1
                  then (q * tab_width + 1 - L) / tab_width + 1
                  else (q * tab_width + 1 - L) / tab_width)
                 = q - L / tab_width).
    { rewrite <- (tab_count L tab_width q) by lia.
      destruct (L mod tab_width >? 1); lia. }
    rewrite Hn. exists (q - L / tab_width), (E - (q * tab_width + 1)).
    eexists. split; [reflexivity|].
    rewrite line_length_spec by lia. split; [reflexivity|].
    rewrite app_assoc, tab_aware_length_spaces.
    destruct (decide (q - L / tab_width = 0)) as [E0|E0].
    + rewrite E0. change (tabs 0) with (@nil ascii). rewrite app_nil_r.
      fold L. right. nia.
    + rewrite tab_aware_length_tabs by nia. fold L.
      destruct (decide (E mod tab_width = 0)); [left|right]; nia.
  - cbn [mbind result_bind]. rewrite !str_mul_char.
    change (replicate (Z.to_nat 0) TAB) with (tabs 0).
    fold (spaces (E - L)). exists 0, (E - L). eexists.
    split; [reflexivity|]. rewrite line_length_spec by lia.
    split; [reflexivity|]. left.
    change (tabs 0) with (@nil ascii). cbn [app].
    rewrite tab_aware_length_spaces. fold L. lia.
Qed.

Lemma comment_alignment_tabs_witness :
  ∃ n m stop,
    comment_alignment ($"ab" ++ [TAB] ++ $"c") 20 true 8
    = Ok (tabs n ++ spaces m) ∧
    line_length (($"ab" ++ [TAB] ++ $"c") ++ tabs n ++ spaces m) 8 = Ok stop ∧
    (stop = 19 ∨ stop = 18).
Proof.
  apply (comment_alignment_tabs ($"ab" ++ [TAB] ++ $"c") 20 8); by vm_compute.
Defined.

(** ** Loading: errors and buckets *)

Lemma group_loop_raises table res e :
  Parser.group_loop res table = Raise e ↔
  e = AssertionError ∧
  Exists (fun i => Parser.extract_mnemonic (case_ i) = None) table.
Proof.
  revert res. induction table as [|i rest IH]; intros res; simpl.
  - split; [done|]. intros [_ H]. by apply Exists_nil in H.
  - rewrite Exists_cons.
    destruct (Parser.extract_mnemonic (case_ i)) as [mnemo|] eqn:Ei.
    + rewrite IH. split; [intros [-> H]; eauto|].
      intros [-> [H|H]]; [done|eauto].
    + split; [intros [= <-]; eauto|]. by intros [-> _].
Qed.

(** X5: [_load_table] raises only [AssertionError], and exactly when
    the case of some record of the file has no mnemonic; the cost
    labels are not looked at. *)
Theorem load_table_raises_iff (json : list Entry) (e : exn) :
  Parser.load_table json = Raise e ↔
  e = AssertionError ∧
  ∃ i, i ∈ json ∧ Parser.extract_mnemonic (case_ i) = None.
Proof.
  unfold Parser.load_table. rewrite group_loop_raises, Exists_exists.
  split; intros [-> (i & Hi & H)]; (split; [done|]); exists i;
    (split; [|done]).
  - by rewrite <- (sort_by_w_perm json).
  - by rewrite (sort_by_w_perm json).
Qed.

Lemma filter_w_insert k x l :
  filter (fun i => w i = k) (Parser.insert_by_w x l)
  = filter (fun i => w i = k) (x :: l).
Proof.
  induction l as [|y l IH]; simpl; [done|].
  destruct (Z.leb_spec (w x) (w y)); [done|].
  rewrite (filter_cons _ y), IH, !filter_cons.
  destruct (decide (w y = k)), (decide (w x = k)); try done. lia.
Qed.

Lemma filter_w_sort k l :
  filter (fun i => w i = k) (Parser.sort_by_w l)
  = filter (fun i => w i = k) l.
Proof.
  induction l as [|x l IH]; simpl; [done|].
  by rewrite filter_w_insert, !filter_cons, IH.
Qed.

Lemma filter_comm {A} (P Q : A → Prop) `{∀ x, Decision (P x)}
  `{∀ x, Decision (Q x)} (l : list A) :
  filter P (filter Q l) = filter Q (filter P l).
Proof.
  induction l as [|x l IH]; [done|].
  rewrite !(filter_cons _ x).
  destruct (decide (Q x)), (decide (P x)); rewrite ?filter_cons;
    rewrite ?decide_True, ?decide_False by done; by rewrite IH.
Qed.

(** X6: what [_load_table] returns: the keys are the mnemonics of the
    cases of the file, no bucket is empty, every record of the file is
    in the bucket of the mnemonic of its case, and within a bucket the
    records of one weight are those of the file, in the order of the
    file. *)
Theorem load_table_buckets (json : list Entry) (p : Parser.state) :
  Parser.load_table json = Ok p →
  (∀ mnemo, is_Some (p !! mnemo) ↔ ∃ i, i ∈ json ∧ has_mnemonic mnemo i) ∧
  (∀ i, i ∈ json →
     ∃ mnemo entries, has_mnemonic mnemo i ∧ p !! mnemo = Some entries ∧
                      i ∈ entries) ∧
  (∀ mnemo entries, p !! mnemo = Some entries →
     entries ≠ [] ∧
     ∀ k, filter (fun i => w i = k) entries
          = filter (fun i => w i = k) (filter (has_mnemonic mnemo) json)).
Proof.
  intros H.
  assert (Hp : ∀ mnemo,
             p !! mnemo = match bucket json mnemo with
                          | [] => None
                          | f => Some f
                          end).
  { intros mnemo. unfold Parser.load_table in H.
    rewrite (group_loop_lookup _ _ _ mnemo H), lookup_empty.
    fold (bucket json mnemo). by destruct (bucket json mnemo). }
  assert (Hin : ∀ mnemo i, i ∈ bucket json mnemo ↔
                           i ∈ json ∧ has_mnemonic mnemo i).
  { intros mnemo i. unfold bucket.
    rewrite list_elem_of_filter, (sort_by_w_perm json). tauto. }
  split; [|split].
  - intros mnemo. rewrite Hp. split.
    + destruct (bucket json mnemo) as [|x l] eqn:E; [by intros [? ?]|].
      intros _. exists x. apply Hin. rewrite E. by left.
    + intros (i & Hi). apply Hin in Hi.
      destruct (bucket json mnemo); [by apply elem_of_nil in Hi|done].
  - intros i Hi.
    destruct (Parser.extract_mnemonic (case_ i)) as [mnemo|] eqn:Ei.
    + exists mnemo, (bucket json mnemo).
      assert (Hb : i ∈ bucket json mnemo) by (by apply Hin).
      split; [done|]. split; [|done]. rewrite Hp.
      destruct (bucket json mnemo); [by apply elem_of_nil in Hb|done].
    + assert (Parser.load_table json = Raise AssertionError); [|congruence].
      apply group_loop_raises. split; [done|]. apply Exists_exists.
      exists i. split; [by rewrite (sort_by_w_perm json)|done].
  - intros mnemo entries. rewrite Hp.
    destruct (bucket json mnemo) as [|x l] eqn:E; [done|].
    intros [= <-]. split; [done|]. intros k. rewrite <- E. unfold bucket.
    by rewrite filter_comm, filter_w_sort, filter_comm.
Qed.

Lemma load_table_buckets_witness :
  ∃ mnemo entries,
    has_mnemonic mnemo LD_R_R ∧ SAMPLE !! mnemo = Some entries ∧
    LD_R_R ∈ entries.
Proof.
  apply (proj1 (proj2 (load_table_buckets SAMPLE_JSON SAMPLE sample_loaded))).
  unfold SAMPLE_JSON. rewrite !elem_of_cons. tauto.
Defined.

(** ** Errors of [lookup] *)

Lemma bind_raises {A B} (m : result A) (f : A → B) e :
  (x ← m; Ok (f x)) = Raise e ↔ m = Raise e.
Proof. destruct m; simpl; [done|]. split; by intros [= ->]. Qed.

Lemma init_error_raises entry e :
  entry_wf entry → init_error entry e →
  initialized entry = None ∧ Parser.init_entry entry = Raise e.
Proof.
  intros Hwf He. split.
  - destruct (initialized entry) eqn:E; [|done].
    destruct (entry_wf_initialized entry Hwf) as [Hp Hl]; [congruence|].
    by destruct He as [[? _]|(_ & ? & _)].
  - destruct (init_entry_cases entry)
      as [(Hp & Hl & _)|[[Hp Hr]|(Hp & Hl & Hr)]];
      destruct He as [[? ->]|(? & ? & ->)]; done.
Qed.

Lemma lookup_loop_raises entries s e :
  Forall entry_wf entries →
  Parser.lookup_loop entries s = Raise e ↔
  ∃ pre entry post,
    entries = pre ++ entry :: post ∧
    Forall (fun x => pattern_ok x ∧ label_ok x ∧ ¬ accepts x s) pre ∧
    init_error entry e.
Proof.
  induction 1 as [|x rest Hx _ IH].
  - simpl. split; [done|]. intros (pre & ? & ? & E & _).
    by destruct pre.
  - destruct (init_entry_cases x) as [(Hp & Hl & _)|Hbad].
    + destruct (init_if_needed x Hx Hp Hl) as (x' & cre & Hi & _ & Hcre & Hc).
      cbn [Parser.lookup_loop]. rewrite Hi. cbn [mbind result_bind].
      rewrite Hc. cbn [getitem mbind result_bind].
      destruct (re_search cre s) as [m|] eqn:Es.
      * split; [done|]. intros (pre & y & post & E & Hpre & Hy).
        exfalso. destruct pre as [|x0 pre]; simplify_eq/=.
        -- by destruct Hy as [[? _]|(_ & ? & _)].
        -- apply Forall_cons in Hpre as [(_ & _ & Hn) _]. apply Hn.
           exists cre. split; [done|]. by rewrite Es.
      * assert (('(rest0, found) ← Parser.lookup_loop rest s;
                 Ok (x' :: rest0, found)) = Raise e
                ↔ Parser.lookup_loop rest s = Raise e) as ->.
        { destruct (Parser.lookup_loop rest s) as [[? ?]|]; simpl; [done|].
          split; by intros [= ->]. }
        rewrite IH. split.
        -- intros (pre & y & post & -> & Hpre & Hy).
           exists (x :: pre), y, post. split; [done|]. split; [|done].
           constructor; [|done]. split; [done|]. split; [done|].
           intros (cre' & Hc' & Ha). assert (cre' = cre) as -> by congruence.
           rewrite Es in Ha. by destruct Ha.
        -- intros (pre & y & post & E & Hpre & Hy).
           destruct pre as [|x0 pre]; simplify_eq/=.
           ++ by destruct Hy as [[? _]|(_ & ? & _)].
           ++ apply Forall_cons in Hpre as [_ Hpre]. by exists pre, y, post.
    + assert (He : ∃ e0, init_error x e0).
      { destruct Hbad as [[? _]|(? & ? & _)]; eexists;
          [by left|by right]. }
      destruct He as [e0 He].
      destruct (init_error_raises x e0 Hx He) as [Hi Hr].
      cbn [Parser.lookup_loop]. rewrite Hi, Hr. cbn [mbind result_bind].
      split.
      * intros [= <-]. by exists [], x, rest.
      * intros (pre & y & post & E & Hpre & Hy).
        destruct pre as [|x0 pre]; simplify_eq/=.
        -- f_equal. destruct He as [[? ->]|(? & ? & ->)];
             destruct Hy as [[? ->]|(? & ? & ->)]; done.
        -- apply Forall_cons in Hpre as [(? & ? & _) _].
           by destruct He as [[? _]|(_ & ? & _)].
Qed.

(** X7: on a table of records as loaded or initialised, [lookup]
    raises only [re.error] or [ValueError], and exactly when the
    records of the mnemonic of the line hold one that cannot be
    initialised, its pattern text does not compile or, when it does,
    its cost label is not numeric, and every record before it can be
    initialised and does not match the line. *)
Theorem lookup_raises_iff (p : Parser.state) (line : str) (e : exn) :
  table_wf p →
  Parser.lookup p line = Raise e ↔
  (e = ReError ∨ e = ValueError) ∧
  ∃ mnemo stripped pre entry post,
    Parser.extract_mnemonic line = Some mnemo ∧
    Parser.remove_label line = Some stripped ∧
    p !! mnemo = Some (pre ++ entry :: post) ∧
    Forall (fun x => pattern_ok x ∧ label_ok x ∧ ¬ accepts x stripped) pre ∧
    init_error entry e.
Proof.
  intros Hwf. unfold Parser.lookup.
  destruct (Parser.extract_mnemonic line) as [mnemo|] eqn:Em.
  2: { split; [done|]. by intros (_ & ? & ? & ? & ? & ? & ? & _). }
  destruct (Parser.remove_label line) as [stripped|] eqn:Er.
  2: { split; [done|]. by intros (_ & ? & ? & ? & ? & ? & _ & ? & _). }
  destruct (p !! mnemo) as [entries|] eqn:Ep.
  2: { split; [done|].
       intros (_ & ? & ? & ? & ? & ? & [= <-] & _ & ? & _). congruence. }
  assert (('(entries0, found) ← Parser.lookup_loop entries stripped;
           Ok (<[mnemo:=entries0]> p, found)) = Raise e
          ↔ Parser.lookup_loop entries stripped = Raise e) as ->.
  { destruct (Parser.lookup_loop entries stripped) as [[? ?]|]; simpl;
      [done|]. split; by intros [= ->]. }
  rewrite (lookup_loop_raises _ _ _ (Hwf _ _ Ep)). split.
  - intros (pre & y & post & -> & Hpre & Hy). split.
    + destruct Hy as [[_ ->]|(_ & _ & ->)]; eauto.
    + by exists mnemo, stripped, pre, y, post.
  - intros (_ & m & st & pre & y & post & [= <-] & [= <-] & E & Hpre & Hy).
    rewrite Ep in E. injection E as ->. by exists pre, y, post.
Qed.

Lemma unchecked_loaded : Parser.load_table HALT_JSON = Ok UNCHECKED.
Proof.
  unfold UNCHECKED.
  destruct (Parser.load_table HALT_JSON) eqn:E; [reflexivity|].
  apply (f_equal is_ok) in E. vm_compute in E. discriminate E.
Qed.

Lemma lookup_raises_iff_witness :
  Parser.lookup UNCHECKED $" halt" = Raise ValueError.
Proof.
  assert (Hwf : table_wf UNCHECKED).
  { apply (table_inv_wf HALT_JSON), load_table_inv; [|apply unchecked_loaded].
    repeat (apply Forall_cons_2 || apply Forall_nil_2); reflexivity. }
  apply (proj2 (lookup_raises_iff UNCHECKED $" halt" ValueError Hwf)).
  split; [by right|]. exists $"HALT", $"halt", [], HALT, [].
  split; [vm_compute; reflexivity|]. split; [vm_compute; reflexivity|].
  split; [vm_compute; reflexivity|]. split; [apply Forall_nil_2|].
  right. split; [eexists; reflexivity|]. split; [|reflexivity].
  vm_compute. intros [? ?]. discriminate.
Defined.

(** ** Lazy initialisation is not observable *)

Lemma init_once entry entry' :
  match initialized entry with
  | Some _ => Ok entry
  | None => Parser.init_entry entry
  end = Ok entry' →
  initialized entry' ≠ None ∧
  match initialized entry' with
  | Some _ => Ok entry'
  | None => Parser.init_entry entry'
  end = Ok entry'.
Proof.
  destruct (initialized entry) as [b|] eqn:E.
  - intros [= <-]. by rewrite E.
  - intros (_ & _ & _ & _ & _ & -> & _)%init_entry_fields. done.
Qed.

Lemma lookup_loop_again entries s entries' found :
  Parser.lookup_loop entries s = Ok (entries', found) →
  Parser.lookup_loop entries' s = Ok (entries', found) ∧
  ∀ entry, found = Some entry → entry ∈ entries' ∧ initialized entry ≠ None.
Proof.
  revert entries' found.
  induction entries as [|x rest IH]; intros entries' found;
    cbn [Parser.lookup_loop].
  - intros [= <- <-]. done.
  - destruct (match initialized x with
              | Some _ => Ok x | None => Parser.init_entry x end)
      as [x'|] eqn:Ei; cbn [mbind result_bind]; [|done].
    apply init_once in Ei as [Hi Ei].
    destruct (cregex x') as [cre|] eqn:Ec; cbn [getitem mbind result_bind];
      [|done].
    destruct (re_search cre s) as [m|] eqn:Es.
    + intros [= <- <-]. cbn [Parser.lookup_loop]. rewrite Ei.
      cbn [mbind result_bind]. rewrite Ec. cbn [getitem mbind result_bind].
      rewrite Es. split; [done|]. intros ? [= <-]. split; [by left|done].
    + destruct (Parser.lookup_loop rest s) as [[rest' f]|] eqn:El;
        cbn [mbind result_bind]; [|done].
      intros [= <- <-]. destruct (IH _ _ eq_refl) as [H1 H2].
      cbn [Parser.lookup_loop]. rewrite Ei.
      cbn [mbind result_bind]. rewrite Ec. cbn [getitem mbind result_bind].
      rewrite Es, H1. split; [done|]. intros entry Hf.
      destruct (H2 _ Hf). split; [by right|done].
Qed.

(** X8: the record that [lookup] returns is initialised and is the
    one that the table holds afterwards under the mnemonic of the
    line; looking the same line up again returns the same record and
    leaves the table as it is. *)
Theorem lookup_again (p p' : Parser.state) (line : str)
  (found : option Entry) :
  Parser.lookup p line = Ok (p', found) →
  Parser.lookup p' line = Ok (p', found) ∧
  ∀ entry, found = Some entry →
    initialized entry ≠ None ∧
    ∃ mnemo entries,
      Parser.extract_mnemonic line = Some mnemo ∧
      p' !! mnemo = Some entries ∧ entry ∈ entries.
Proof.
  intros H. pose proof H as H0.
  apply lookup_spec in H
    as [(-> & -> & _)
       |(mnemo & stripped & entries & entries' & Em & Er & Hp & Hl & ->)].
  - split; [done|]. by intros.
  - apply lookup_loop_again in Hl as [Hl Hf]. split.
    + unfold Parser.lookup. rewrite Em, Er, lookup_insert_eq, Hl.
      cbn [mbind result_bind]. by rewrite insert_insert_eq.
    + intros entry Hfound. destruct (Hf _ Hfound). split; [done|].
      exists mnemo, entries'. by rewrite lookup_insert_eq.
Qed.

Lemma lookup_again_witness :
  ∃ p' found,
    Parser.lookup SAMPLE $"loop: DJNZ loop" = Ok (p', found) ∧
    Parser.lookup p' $"loop: DJNZ loop" = Ok (p', found).
Proof.
  destruct (Parser.lookup SAMPLE $"loop: DJNZ loop") as [[p' found]|] eqn:E.
  2: { apply (f_equal is_ok) in E. vm_compute in E. discriminate E. }
  exists p', found. split; [reflexivity|].
  exact (proj1 (lookup_again _ _ _ _ E)).
Defined.

Lemma fmap_snd_bind {A B C} (m : result (A * B)) (f : A → C) :
  snd <$> ('(a, b) ← m; Ok (f a, b)) = snd <$> m.
Proof. by destruct m as [[? ?]|]. Qed.

Lemma lookup_loop_init_steps l l' s :
  Forall2 init_step l l' →
  snd <$> Parser.lookup_loop l s = snd <$> Parser.lookup_loop l' s.
Proof.
  induction 1 as [|x y l l' Hxy _ IH]; [done|].
  cbn [Parser.lookup_loop].
  assert (match initialized x with
          | Some _ => Ok x | None => Parser.init_entry x end
          = match initialized y with
            | Some _ => Ok y | None => Parser.init_entry y end) as ->.
  { destruct Hxy as [->|[Hi Hy]]; [done|]. rewrite Hi, Hy.
    by apply init_entry_fields in Hy as (_ & _ & _ & _ & _ & -> & _). }
  destruct (match initialized y with
            | Some _ => Ok y | None => Parser.init_entry y end)
    as [y'|]; cbn [mbind result_bind]; [|done].
  destruct (getitem (cregex y')) as [cre|]; cbn [mbind result_bind]; [|done].
  destruct (re_search cre s); [done|].
  by rewrite !(fmap_snd_bind _ (cons y')).
Qed.

Lemma lookup_step_same p line0 p' found0 line :
  Parser.lookup p line0 = Ok (p', found0) →
  snd <$> Parser.lookup p line = snd <$> Parser.lookup p' line.
Proof.
  intros H. unfold Parser.lookup.
  destruct (Parser.extract_mnemonic line) as [mnemo|]; [|done].
  destruct (Parser.remove_label line) as [stripped|]; [|done].
  destruct (lookup_frame _ _ _ _ H mnemo) as [l l' Hl|]; [|done].
  rewrite !(fmap_snd_bind _ (fun entries => <[mnemo:=entries]> _)).
  by apply lookup_loop_init_steps.
Qed.

(** X9: the answer of [lookup] for a line, a record, none or an
    error, does not depend on the lines that were looked up before. *)
Theorem lookup_order_independent (p p' : Parser.state) (line : str) :
  reaches p p' →
  snd <$> Parser.lookup p line = snd <$> Parser.lookup p' line.
Proof.
  induction 1 as [|p line0 p' found0 p'' H _ IH]; [done|].
  rewrite <- IH. by eapply lookup_step_same.
Qed.

Lemma lookup_order_independent_witness :
  ∃ p' found,
    Parser.lookup SAMPLE $"NOP" = Ok (p', found) ∧
    snd <$> Parser.lookup SAMPLE $" ld a, b"
    = snd <$> Parser.lookup p' $" ld a, b".
Proof.
  destruct (Parser.lookup SAMPLE $"NOP") as [[p' found]|] eqn:E.
  2: { apply (f_equal is_ok) in E. vm_compute in E. discriminate E. }
  exists p', found. split; [reflexivity|].
  apply lookup_order_independent.
  eapply reaches_step; [exact E|apply reaches_refl].
Defined.

(** ** The mnemonic of a line *)

Lemma upper_char_word c :
  isword c = true →
  isword (upper_char c) = true ∧ islower (upper_char c) = false.
Proof.
  destruct c as [[] [] [] [] [] [] [] []]; vm_compute; intros H;
    (discriminate H || done).
Qed.

Lemma upper_char_ascii c : code c < 128 → code (upper_char c) < 128.
Proof.
  destruct c as [[] [] [] [] [] [] [] []]; vm_compute; intros H;
    (discriminate H || done).
Qed.

(** X10: on a line of ASCII text, the mnemonic is the word that leads
    the line without its label, in upper case: it is ASCII text, it is
    not empty and holds letters, digits and underscores only, none of
    them a lower-case letter, and the rest of the line, if any, begins
    with a blank. *)
Theorem mnemonic_leading_word (line mnemo : str) :
  ascii_text line →
  Parser.extract_mnemonic line = Some mnemo →
  ∃ operator rest,
    Parser.remove_label line = Some (operator ++ rest) ∧
    mnemo = upper operator ∧ mnemo ≠ [] ∧ ascii_text mnemo ∧
    Forall (fun c => isword c = true) operator ∧
    Forall (fun c => isword c = true ∧ islower c = false) mnemo ∧
    (rest = [] ∨ ∃ c t, rest = c :: t ∧ isspace c = true).
Proof.
  intros Hascii Em.
  destruct (Parser.remove_label line) as [stripped|] eqn:Er.
  2: { revert Em Er. unfold Parser.extract_mnemonic, Parser.remove_label.
       destruct (re_match Parser.LINE_RE line); [|done].
       by destruct (group m Parser.OPERATOR). }
  destruct (mnemonic_shape _ _ _ Em Er)
    as (operator & rest & Hs & -> & ->).
  destruct Hs as (label & blanks & tail & -> & _ & _ & Hne & Hw & Hr & _).
  exists operator, rest. split; [done|]. split; [done|].
  split; [by destruct operator|]. split; [|split; [done|split]].
  - unfold ascii_text in *.
    apply Forall_app in Hascii as [_ Hascii].
    apply Forall_app in Hascii as [_ Hascii].
    apply Forall_app in Hascii as [Hascii _].
    unfold upper. rewrite List.Forall_map.
    eapply Forall_impl; [exact Hascii|]. intros c. apply upper_char_ascii.
  - unfold upper. rewrite List.Forall_map.
    eapply Forall_impl; [exact Hw|]. intros c. apply upper_char_word.
  - destruct Hr as [->|(b & text & -> & Hb & Hsp & _)]; [by left|].
    right. destruct b as [|c t]; [done|].
    apply Forall_cons in Hsp as [Hc _]. by exists c, (t ++ text).
Qed.

Lemma mnemonic_leading_word_witness :
  ∃ operator rest,
    Parser.remove_label $"loop: djnz loop ; again" = Some (operator ++ rest) ∧
    $"DJNZ" = upper operator.
Proof.
  destruct (mnemonic_leading_word $"loop: djnz loop ; again" $"DJNZ")
    as (operator & rest & H1 & H2 & _).
  - repeat (apply Forall_cons_2 || apply Forall_nil_2); by vm_compute.
  - vm_compute; reflexivity.
  - by exists operator, rest.
Defined.

(** ** Where the annotation goes *)

(** X11: on a line without a semicolon, and without tabs for the
    padding, the annotation follows the trimmed line and a padding of
    one or more spaces, and it begins at the column asked for, or one
    space behind a line that already reaches the column. *)
Theorem format_line_column (line : str) (entry : Entry)
  (total total_cond : Z) (subt update : bool) (column : Z) (debug : bool)
  (tab_width : Z) :
  Forall (fun c => c ≠ ";"%char) (rstrip line) →
  tab_width ≠ 0 →
  ∃ length_ padding,
    line_length (rstrip line) tab_width = Ok length_ ∧
    format_line line entry total total_cond subt update column debug false
      tab_width
    = Ok ((rstrip line ++ padding)
          ++ annotation_text entry total total_cond subt debug
          ++ [NEWLINE]) ∧
    padding ≠ [] ∧ Forall (fun c => c = SPACE) padding ∧
    line_length (rstrip line ++ padding) tab_width
    = Ok (Z.max (length_ + 1) (column - 1)).
Proof.
  intros Hn Htw. eexists _, _.
  split; [by apply line_length_spec|].
  rewrite (format_line_plain _ _ _ _ _ _ _ _ _ _ Hn).
  rewrite comment_alignment_no_tabs by done. cbn [mbind result_bind].
  split; [by rewrite <- app_assoc|].
  destruct (spaces_padding (rstrip line)
              (Z.max 1 (column - 1
                        - tab_aware_length (rstrip line) tab_width))
              tab_width Htw ltac:(lia)) as (H1 & H2 & ->).
  split; [done|]. split; [done|]. f_equal. lia.
Qed.

Lemma format_line_column_witness :
  ∃ padding,
    format_line ($"  NOP  " ++ [NEWLINE]) NOP 4 0 false true 20 false false 8
    = Ok (($"  NOP" ++ padding) ++ $"; [4]" ++ [NEWLINE]) ∧
    line_length ($"  NOP" ++ padding) 8 = Ok 19.
Proof.
  destruct (format_line_column ($"  NOP  " ++ [NEWLINE]) NOP 4 0 false true
              20 false 8)
    as (length_ & padding & Hl & Hf & _ & _ & Hp).
  { change (rstrip ($"  NOP  " ++ [NEWLINE])) with $"  NOP".
    repeat (apply Forall_cons_2 || apply Forall_nil_2); discriminate. }
  { lia. }
  exists padding. split; [exact Hf|].
  vm_compute in Hl. injection Hl as <-. exact Hp.
Defined.

(** X12: [format_line] raises only [ZeroDivisionError], and exactly
    when the tab width is 0 and the trimmed line has no semicolon and
    either holds a tab or is shorter than the column while tabs are
    asked for; a line with a trailing comment is never aligned. *)
Theorem format_line_raises_iff (line : str) (entry : Entry)
  (total total_cond : Z) (subt update : bool) (column : Z)
  (debug use_tabs : bool) (tab_width : Z) (e : exn) :
  format_line line entry total total_cond subt update column debug use_tabs
    tab_width = Raise e ↔
  e = ZeroDivisionError ∧ tab_width = 0 ∧
  Forall (fun c => c ≠ ";"%char) (rstrip line) ∧
  (TAB ∈ rstrip line ∨
   (use_tabs = true ∧ Z.of_nat (length (rstrip line)) < column - 1)).
Proof.
  destruct (rsplit1_cases ";" (rstrip line))
    as [[_ Hn]|(code & comment & _ & E & Hc)].
  - rewrite (format_line_plain _ _ _ _ _ _ _ _ _ _ Hn).
    rewrite bind_raises, comment_alignment_raises. tauto.
  - rewrite (format_line_trailing _ _ _ _ _ _ _ _ _ _ _ _ E Hc).
    split; [done|]. intros (_ & _ & H & _). rewrite E in H.
    apply Forall_app in H as [_ H]. by apply Forall_cons in H as [? _].
Qed.

(** ** The outcomes of the per-line function *)

(** A record that [lookup] returns carries its two costs. *)
Lemma found_fields p line p' entry :
  table_wf p → Parser.lookup p line = Ok (p', Some entry) →
  ∃ M N, t_states_met entry = Some M ∧ t_states_or_not_met entry = Some N.
Proof.
  intros Hwf H.
  destruct (lookup_first_match _ _ _ _ Hwf H)
    as (_ & _ & _ & _ & _ & _ & _ & _ & _ & He & (cre & _ & Hc) & _).
  destruct He as [He|He]; [by rewrite He in Hc|].
  apply init_entry_fields in He as (_ & _ & _ & _ & _ & _ & He).
  destruct (cost_of_label _) as [[?|? ?]|]; [| |done];
    destruct He as [-> ->]; eauto.
Qed.

(** C7, amended: a line for which [lookup] returns no record comes
    back with its trailing blanks trimmed and one newline appended,
    and the total as it was; whenever the function returns, it returns
    either an annotated line with the updated total or that unchanged
    line with the unchanged total; it does return when the tab width
    is not 0, the pattern texts of the table compile and its cost
    labels are numeric; and on a table of records as loaded or
    initialised it raises exactly when [lookup] raises, or when
    [lookup] returns a record, the tab width is 0 and the trimmed line
    has no semicolon and holds a tab or is shorter than the column
    while tabs are asked for, and then [ZeroDivisionError]. *)
Theorem z80count_outcomes (line : str) (parser : Parser.state) (total : Z)
  (subt no_update : bool) (column : Z) (use_tabs : bool) (tab_width : Z)
  (debug : bool) :
  let run := z80count line parser total subt no_update column use_tabs
               tab_width debug in
  (∀ parser', Parser.lookup parser line = Ok (parser', None) →
     run = Ok (parser', (rstrip line ++ [NEWLINE], total))) ∧
  (∀ parser' out total', run = Ok (parser', (out, total')) →
     (∃ entry total_cond,
        Parser.lookup parser line = Ok (parser', Some entry) ∧
        update_counters entry total = Ok (total', total_cond) ∧
        format_line line entry total' total_cond subt (negb no_update)
          column debug use_tabs tab_width = Ok out)
     ∨ (Parser.lookup parser line = Ok (parser', None) ∧
        out = rstrip line ++ [NEWLINE] ∧ total' = total)) ∧
  (table_ok parser → tab_width ≠ 0 →
     ∃ parser' out total',
       run = Ok (parser', (out, total')) ∧ table_ok parser') ∧
  (table_wf parser →
   ∀ e, run = Raise e ↔
     Parser.lookup parser line = Raise e ∨
     ((∃ parser' entry,
         Parser.lookup parser line = Ok (parser', Some entry)) ∧
      e = ZeroDivisionError ∧ tab_width = 0 ∧
      Forall (fun c => c ≠ ";"%char) (rstrip line) ∧
      (TAB ∈ rstrip line ∨
       (use_tabs = true ∧
        Z.of_nat (length (rstrip line)) < column - 1)))).
Proof.
  intros run. subst run. unfold z80count. split; [|split; [|split]].
  - intros parser' ->. reflexivity.
  - intros parser' out total'.
    destruct (Parser.lookup parser line) as [[p1 [entry|]]|]; simpl;
      [| |done].
    + destruct (update_counters entry total) as [[t tc]|] eqn:Eu; simpl;
        [|done].
      destruct (format_line _ _ _ _ _ _ _ _ _ _) as [o|] eqn:Ef; simpl;
        [|done].
      intros [= <- <- <-]. left. by exists entry, tc.
    + intros [= <- <- <-]. by right.
  - intros Hok Htw.
    destruct (table_ok_lookup parser line Hok)
      as (p1 & found & -> & Hok1 & Hf). simpl.
    destruct found as [entry|]; [|eauto].
    destruct (Hf entry eq_refl) as [[M HM] [N HN]].
    rewrite (update_counters_fields _ _ _ _ HM HN). simpl.
    destruct (format_line_ok line entry (total + N)
                (if M =? 0 then 0 else total + M) subt (negb no_update)
                column debug use_tabs tab_width Htw) as [out ->].
    simpl. eauto.
  - intros Hwf e.
    destruct (Parser.lookup parser line) as [[p1 [entry|]]|e0] eqn:El;
      cbn [mbind result_bind].
    + destruct (found_fields _ _ _ _ Hwf El) as (M & N & HM & HN).
      rewrite (update_counters_fields _ _ _ _ HM HN).
      cbn [mbind result_bind].
      rewrite (bind_raises _ (fun out => (p1, (out, total + N)))).
      assert (Hraise :
        format_line line entry (total + N) (if M =? 0 then 0 else total + M)
          subt (negb no_update) column debug use_tabs tab_width = Raise e ↔
        e = ZeroDivisionError ∧ tab_width = 0 ∧
        Forall (fun c => c ≠ ";"%char) (rstrip line) ∧
        (TAB ∈ rstrip line ∨
         (use_tabs = true ∧ Z.of_nat (length (rstrip line)) < column - 1))).
      { destruct (rsplit1_cases ";" (rstrip line))
          as [[_ Hn]|(code & comment & _ & E & Hc)].
        - rewrite (format_line_plain _ _ _ _ _ _ _ _ _ _ Hn).
          rewrite bind_raises, comment_alignment_raises. tauto.
        - rewrite (format_line_trailing _ _ _ _ _ _ _ _ _ _ _ _ E Hc).
          split; [done|]. intros (_ & _ & H & _). rewrite E in H.
          apply Forall_app in H as [_ H].
          by apply Forall_cons in H as [? _]. }
      rewrite Hraise. split.
      * intros H. right. split; [eauto|done].
      * intros [?|[_ H]]; done.
    + split; [done|]. intros [?|[(? & ? & ?) _]]; done.
    + split.
      * intros [= ->]. by left.
      * intros [[= ->]|[(? & ? & ?) _]]; done.
Qed.

(** ** The loop of [main] *)

Lemma line_cost_step p line0 p' found0 line :
  Parser.lookup p line0 = Ok (p', found0) →
  line_cost p' line = line_cost p line.
Proof.
  intros H. unfold line_cost. by rewrite (lookup_step_same _ _ _ _ line H).
Qed.

Lemma format_line_newline line entry total total_cond subt update column
  debug use_tabs tab_width out :
  format_line line entry total total_cond subt update column debug use_tabs
    tab_width = Ok out →
  ∃ body, out = body ++ [NEWLINE].
Proof.
  destruct (rsplit1_cases ";" (rstrip line))
    as [[_ Hn]|(code & comment & _ & E & Hc)].
  - rewrite (format_line_plain _ _ _ _ _ _ _ _ _ _ Hn).
    destruct (comment_alignment _ _ _ _) as [spacing|];
      cbn [mbind result_bind]; [|done].
    generalize (annotation_text entry total total_cond subt debug).
    intros ann [= <-]. exists (rstrip line ++ spacing ++ ann).
    by rewrite <- !app_assoc.
  - rewrite (format_line_trailing _ _ _ _ _ _ _ _ _ _ _ _ E Hc).
    generalize (annotation_text entry total total_cond subt debug).
    intros ann [= <-].
    exists (code ++ ann ++ $" "
            ++ lstrip (if update then strip_annotation comment else comment)).
    by rewrite <- !app_assoc.
Qed.

Lemma z80count_step line parser total subt no_update column use_tabs
  tab_width debug :
  table_ok parser → tab_width ≠ 0 →
  ∃ parser' found output,
    Parser.lookup parser line = Ok (parser', found) ∧
    table_ok parser' ∧
    z80count line parser total subt no_update column use_tabs tab_width debug
    = Ok (parser', (output, total + line_cost parser line)) ∧
    ∃ body, output = body ++ [NEWLINE] ∧
            (found = None → body = rstrip line).
Proof.
  intros Hok Htw. unfold z80count, line_cost.
  destruct (table_ok_lookup parser line Hok)
    as (p1 & found & -> & Hok1 & Hf). cbn [mbind result_bind fmap result_fmap snd].
  exists p1, found. destruct found as [entry|].
  - destruct (Hf entry eq_refl) as [[M HM] [N HN]].
    rewrite (update_counters_fields _ _ _ _ HM HN), HN.
    cbn [mbind result_bind default].
    destruct (format_line_ok line entry (total + N)
                (if M =? 0 then 0 else total + M) subt (negb no_update)
                column debug use_tabs tab_width Htw) as [out Hout].
    rewrite Hout. cbn [mbind result_bind]. exists out.
    split; [done|]. split; [done|]. split; [done|].
    apply format_line_newline in Hout as [body ->]. by exists body.
  - exists (rstrip line ++ [NEWLINE]). rewrite Z.add_0_r.
    split; [done|]. split; [done|]. split; [done|]. by eexists.
Qed.

(** X13: with a table whose pattern texts compile and whose cost
    labels are numeric, and a tab width that is not 0, the loop of
    [main] does not raise and writes one
    output per line of the input, each ending in a newline; a line for
    which the table has no record is written with its trailing blanks
    trimmed; and the final total is the initial one plus the cycles of
    every line, where the cycles of a line do not depend on the lines
    before it. *)
Theorem main_loop_total (in_f : list str) (parser : Parser.state)
  (total : Z) (subt no_update : bool) (column : Z) (use_tabs : bool)
  (tab_width : Z) (debug : bool) :
  table_ok parser → tab_width ≠ 0 →
  ∃ parser' written,
    main_loop in_f parser total subt no_update column use_tabs tab_width
      debug
    = Ok (parser', (written,
                    total + foldr (fun line acc => line_cost parser line + acc)
                              0 in_f)) ∧
    reaches parser parser' ∧
    Forall2 (fun line output =>
               ∃ body, output = body ++ [NEWLINE] ∧
                       (snd <$> Parser.lookup parser line = Ok None →
                        body = rstrip line))
      in_f written.
Proof.
  intros Hok Htw. revert parser total Hok.
  induction in_f as [|line rest IH]; intros parser total Hok.
  - exists parser, []. cbn [main_loop foldr]. rewrite Z.add_0_r.
    split; [done|]. split; [apply reaches_refl|constructor].
  - destruct (z80count_step line parser total subt no_update column use_tabs
                tab_width debug Hok Htw)
      as (p1 & found & output & Hl & Hok1 & Hz & body & -> & Hbody).
    destruct (IH p1 (total + line_cost parser line) Hok1)
      as (p2 & written & Hm & Hr & Hw).
    exists p2, ((body ++ [NEWLINE]) :: written).
    cbn [main_loop foldr]. rewrite Hz. cbn [mbind result_bind].
    rewrite Hm. cbn [mbind result_bind]. split; [|split].
    + do 3 f_equal. rewrite <- Z.add_assoc. f_equal. f_equal.
      clear -Hl. induction rest as [|l rest IH]; [done|].
      cbn [foldr]. by rewrite IH, (line_cost_step _ _ _ _ l Hl).
    + by eapply reaches_step.
    + constructor.
      * exists body. split; [done|]. rewrite Hl. intros [= ->]. by apply Hbody.
      * eapply Forall2_impl; [exact Hw|]. intros l o (b & -> & Hb).
        exists b. split; [done|]. intros H. apply Hb.
        by rewrite <- (lookup_step_same _ _ _ _ l Hl).
Qed.

Lemma main_loop_total_witness :
  ∃ parser' written,
    main_loop [$" ld a, b" ++ [NEWLINE]; $"; wait" ++ [NEWLINE];
               $"loop: djnz loop" ++ [NEWLINE]]
      SAMPLE 0 true false 20 false 8 false
    = Ok (parser', (written, 12)) ∧
    length written = 3%nat.
Proof.
  destruct (main_loop_total
              [$" ld a, b" ++ [NEWLINE]; $"; wait" ++ [NEWLINE];
               $"loop: djnz loop" ++ [NEWLINE]]
              SAMPLE 0 true false 20 false 8 false sample_ok ltac:(lia))
    as (parser' & written & H & _ & Hw).
  exists parser', written. split.
  - rewrite H. do 3 f_equal.
  - apply Forall2_length in Hw. symmetry. exact Hw.
Defined.

(** ** A pass with updates disabled *)

(** X14: with updates disabled, a line that already ends in an
    annotation and what an earlier pass kept behind it gets the new
    annotation in front of the old one, which stays: annotations pile
    up from pass to pass. *)
Theorem format_line_no_update_keeps (code text kept : str) (entry : Entry)
  (total total_cond : Z) (subt : bool) (column : Z) (debug use_tabs : bool)
  (tab_width : Z) :
  is_annotation text →
  Forall (fun c => c ≠ ";"%char) kept →
  format_line (code ++ $"; " ++ text ++ kept ++ [NEWLINE]) entry total
    total_cond subt false column debug use_tabs tab_width
  = Ok (code ++ annotation_text entry total total_cond subt debug ++ $" "
        ++ text ++ rstrip kept ++ [NEWLINE]).
Proof.
  intros (body & -> & Hne & Hchars) Hkept.
  assert (Er : rstrip (code ++ $"; " ++ ($"[" ++ body ++ $"]") ++ kept
                       ++ [NEWLINE])
               = code ++ ";"%char :: $" [" ++ body ++ $"]" ++ rstrip kept).
  { replace (code ++ $"; " ++ ($"[" ++ body ++ $"]") ++ kept ++ [NEWLINE])
      with ((code ++ $"; [" ++ body) ++ ["]"%char] ++ (kept ++ [NEWLINE]))
      by (by rewrite <- !app_assoc).
    rewrite rstrip_after_end by done.
    rewrite (rstrip_app_blank kept [NEWLINE]) by done.
    by rewrite <- !app_assoc. }
  rewrite (format_line_trailing _ code ($" [" ++ body ++ $"]" ++ rstrip kept)).
  - generalize (annotation_text entry total total_cond subt debug).
    intros ann. do 4 f_equal.
    change ($" [" ++ body ++ $"]" ++ rstrip kept)
      with ($" " ++ ("["%char :: body ++ $"]" ++ rstrip kept)).
    rewrite (lstrip_blanks $" ") by (by repeat constructor).
    cbn [lstrip]. change (isspace "[") with false. cbv iota.
    simpl. by rewrite <- !app_assoc.
  - exact Er.
  - constructor; [done|]. constructor; [done|].
    apply Forall_app. split.
    + eapply Forall_impl; [exact Hchars|]. intros a Hc.
      by destruct (ann_char_bracket a Hc) as (_ & _ & ?).
    + constructor; [done|]. by apply Forall_rstrip.
Qed.

Lemma format_line_no_update_keeps_witness :
  format_line ($"NOP ; [4] wait" ++ [NEWLINE]) NOP 8 0 false false 20 false
    false 8
  = Ok ($"NOP ; [4] [4] wait" ++ [NEWLINE]).
Proof.
  apply (format_line_no_update_keeps $"NOP " $"[4]" $" wait" NOP 8 0 false
           20 false false 8).
  - exists $"4". split; [reflexivity|]. split; [discriminate|].
    repeat (apply Forall_cons_2 || apply Forall_nil_2); reflexivity.
  - repeat (apply Forall_cons_2 || apply Forall_nil_2); discriminate.
Defined.

(** ** What [OUR_COMMENT] finds *)

(** X15: [OUR_COMMENT.search] finds nothing exactly in a text where no
    annotation occurs, a bracket, one or more digits, dots, blanks and
    slashes, and a bracket; otherwise what it matches is the leftmost
    annotation of the text, from its first to its last bracket, and
    the only one that begins there. *)
Theorem our_comment_search (s : str) :
  (re_search OUR_COMMENT s = None ↔
   ∀ text, is_annotation text → ¬ occurs text s) ∧
  (∀ m, re_search OUR_COMMENT s = Some m →
     ∃ before after,
       s = before ++ group0 m ++ after ∧ is_annotation (group0 m) ∧
       m_start m = length before ∧
       (∀ n, (n < length before)%nat → ¬ annotation_at s n) ∧
       ∀ text after', is_annotation text →
         drop (length before) s = text ++ after' → text = group0 m).
Proof.
  split; [apply re_search_our_comment_none|].
  intros m (before & text & after & E & Ha & Hf & Hw & Hs & He)
           %search_from_our_comment_sound.
  assert (Hg : group0 m = text).
  { unfold group0. rewrite Hw, Hs, He, E. by apply substring_middle. }
  rewrite Hg. exists before, after. split; [done|]. split; [done|].
  split; [done|]. split; [done|].
  intros text' after' Ha' E'. rewrite E, drop_app_length in E'.
  symmetry in E'. by apply (annotation_prefix_unique _ _ _ _ Ha' Ha E').
Qed.
